(** * Claim-history reconstruction of the claims web client

    A shallow embedding of the history panel of the provider portal
    (the file with [chunkedQueryFilter], [load] and [loadOlder]): the
    chunked range query with halving retries, the resolution of the lower
    block bound from the manual field, the saved cursor and the default
    look-back, the construction of the table rows from the two event
    streams, and their ordering for display.

    Conventions.
    - Block numbers and spans are JavaScript numbers holding integers well
      inside the safe range; they are modelled by [Z].  A number that may
      be [NaN] (the result of [Number] on text) is a [jsnum]; [Number]
      reads ASCII text in every notation of the language and takes the
      value exactly, and a value that is not an integer has no number in
      the model.
    - Strings are [string]; account addresses are ASCII hexadecimal text.
    - The contract binding is an oracle: a query on a block range either
      rejects with an error or resolves with the logs of the range.
    - Every query the helper issues is recorded in a trace, so that
      statements about what is asked of the node can be made. *)

From Stdlib Require Import ZArith List String Ascii Bool Lia.
From Stdlib Require Import Permutation Sorted.
From Stdlib Require Import DecimalString DecimalZ.
From Stdlib Require NArith DecimalPos DecimalFacts.
Import ListNotations.

Local Open Scope string_scope.
Local Open Scope list_scope.
Local Open Scope Z_scope.

Set Implicit Arguments.

(* ================================================================== *)
(** ** JavaScript values used by the panel *)

Module JS.

(** A JavaScript number known to be an integer, or [NaN]. *)
Inductive jsnum : Type :=
| Num (z : Z)
| NaN.

(** Truthiness of a number: [0] and [NaN] are falsy. *)
Definition truthy_num (n : jsnum) : bool :=
  match n with
  | Num z => negb (z =? 0)
  | NaN => false
  end.

(** Truthiness of a string: only the empty string is falsy. *)
Definition truthy_str (s : string) : bool :=
  match s with
  | EmptyString => false
  | String _ _ => true
  end.

(** White space and line terminators, among the ASCII characters: tab,
    line feed, vertical tab, form feed, carriage return and space. *)
Definition is_space (c : ascii) : bool :=
  let n := nat_of_ascii c in
  (Nat.eqb n 32 || (Nat.leb 9 n && Nat.leb n 13))%bool.

(** The text without the white space at its start, and at its end. *)
Fixpoint trimStart (s : string) : string :=
  match s with
  | EmptyString => EmptyString
  | String c s' => if is_space c then trimStart s' else s
  end.

Fixpoint trimEnd (s : string) : string :=
  match s with
  | EmptyString => EmptyString
  | String c s' =>
      match trimEnd s' with
      | EmptyString => if is_space c then EmptyString
                       else String c EmptyString
      | t => String c t
      end
  end.

(** The value of a character as a digit in base [b], if it is one. *)
Definition digit_in (b : Z) (c : ascii) : option Z :=
  let n := Z.of_nat (nat_of_ascii c) in
  let v := if (48 <=? n) && (n <=? 57) then n - 48
           else if (97 <=? n) && (n <=? 102) then n - 87
           else if (65 <=? n) && (n <=? 70) then n - 55
           else 16 in
  if v <? b then Some v else None.

(** The longest run of digits in base [b] at the head of [s]: its value
    on top of [acc], its length on top of [n], and the text after it. *)
Fixpoint read_digits (b : Z) (s : string) (acc : Z) (n : nat)
  : Z * nat * string :=
  match s with
  | EmptyString => (acc, n, s)
  | String c s' =>
      match digit_in b c with
      | Some d => read_digits b s' (acc * b + d) (S n)
      | None => (acc, n, s)
      end
  end.

(** A sign, if the text starts with one, and the text after it. *)
Definition read_sign (s : string) : bool * string :=
  match s with
  | String "+" s' => (false, s')
  | String "-" s' => (true, s')
  | _ => (false, s)
  end.

(** The digits of a literal in base 2, 8 or 16, after its prefix: one
    digit at least, and nothing else. *)
Definition radix_literal (b : Z) (body : string) : jsnum :=
  match read_digits b body 0 0 with
  | (v, S _, EmptyString) => Num v
  | _ => NaN
  end.

(** An unsigned decimal literal, as the pair [(m, e)] that stands for
    [m * 10 ^ e]: digits, then possibly a point and digits, with a digit
    on one side of the point at least, then possibly an exponent. *)
Definition decimal_literal (s : string) : option (Z * Z) :=
  let '(i, ni, r1) := read_digits 10 s 0 0 in
  let '(m, nf, r2) :=
    match r1 with
    | String "." r => read_digits 10 r i 0
    | _ => (i, 0%nat, r1)
    end in
  if (ni + nf =? 0)%nat then None
  else
    match r2 with
    | EmptyString => Some (m, - Z.of_nat nf)
    | String c r3 =>
        if Ascii.eqb c "e" || Ascii.eqb c "E" then
          let (neg, r4) := read_sign r3 in
          match read_digits 10 r4 0 0 with
          | (x, S _, EmptyString) =>
              Some (m, (if neg then - x else x) - Z.of_nat nf)
          | _ => None
          end
        else None
    end.

(** A decimal literal with its sign.  The numbers of the model are the
    integers: a literal whose value is not one (a fraction that does not
    vanish, or [Infinity]) has no number here and reads as [NaN]. *)
Definition signed_literal (s : string) : jsnum :=
  let (neg, body) := read_sign s in
  match decimal_literal body with
  | Some (m, e) =>
      if 0 <=? e then
        let v := m * 10 ^ e in Num (if neg then - v else v)
      else if m mod 10 ^ (- e) =? 0 then
        let v := m / 10 ^ (- e) in Num (if neg then - v else v)
      else NaN
  | None => NaN
  end.

(** [Number(s)] on ASCII text: white space around the literal is passed
    over, the empty literal is zero, a literal is decimal (with sign,
    fraction and exponent) or, after [0x], [0o] or [0b], in base 16, 8
    or 2, and any other text is not a number.  The value is taken
    exactly, without the rounding of double precision. *)
Definition Number_of_string (s : string) : jsnum :=
  match trimStart (trimEnd s) with
  | EmptyString => Num 0
  | String "0" (String c body) as t =>
      if Ascii.eqb c "x" || Ascii.eqb c "X" then radix_literal 16 body
      else if Ascii.eqb c "o" || Ascii.eqb c "O" then radix_literal 8 body
      else if Ascii.eqb c "b" || Ascii.eqb c "B" then radix_literal 2 body
      else signed_literal t
  | t => signed_literal t
  end.

(** [String(n)] and [n.toString()] on an integer. *)
Definition String_of_Z (z : Z) : string :=
  NilZero.string_of_int (Z.to_int z).

(** [c.toLowerCase()] on one ASCII character. *)
Definition lower_ascii (c : ascii) : ascii :=
  let n := nat_of_ascii c in
  if andb (Nat.leb 65 n) (Nat.leb n 90) then ascii_of_nat (n + 32) else c.

(** [s.toLowerCase()] on ASCII text. *)
Fixpoint toLowerCase (s : string) : string :=
  match s with
  | EmptyString => EmptyString
  | String c s' => String (lower_ascii c) (toLowerCase s')
  end.

(** [Array.prototype.sort(cmp)].  The language requires the sort to be
    stable, and with a comparator that is a consistent ordering the
    result is then determined whatever the algorithm.  It is computed
    here by insertion from the right: an element, which precedes in the
    array all those already placed, goes before the first of them that
    it does not compare greater than. *)
Section Sort.
Variable A : Type.
Variable cmp : A -> A -> Z.

Fixpoint insert (x : A) (l : list A) : list A :=
  match l with
  | [] => [x]
  | y :: l' => if cmp x y <=? 0 then x :: y :: l' else y :: insert x l'
  end.

Fixpoint sort (l : list A) : list A :=
  match l with
  | [] => []
  | x :: l' => insert x (sort l')
  end.
End Sort.

End JS.

Import JS.

(* ================================================================== *)
(** ** Errors, queries and runs *)

(** What went wrong in a request; the code never looks at it. *)
Inductive ErrClass : Type :=
| RangeTooLarge
| Connectivity
| MalformedResponse.

(** A thrown value: an [Error] with its [message]. *)
Record JsError : Type := mkError {
  err_class : ErrClass;
  err_message : string
}.

(** One call of [queryFilter(filter, start, end)], with the [maxSpan] in
    force in the invocation that issued it, and whether it resolved. *)
Record Query : Type := mkQuery {
  q_start : Z;
  q_end : Z;
  q_span : Z;
  q_ok : bool
}.

(** The width of a queried range, [toBlock - fromBlock]. *)
Definition width (q : Query) : Z := q_end q - q_start q.

(** How an asynchronous computation ends. *)
Inductive Completion (A : Type) : Type :=
| Returned (a : A)
| Thrown (e : JsError)
| OutOfFuel.

Arguments Returned {A} a.
Arguments Thrown {A} e.
Arguments OutOfFuel {A}.

(** A run: the queries issued, in order, and the completion. *)
Definition Run (A : Type) : Type := (list Query * Completion A)%type.

Definition trace {A} (r : Run A) : list Query := fst r.
Definition completion {A} (r : Run A) : Completion A := snd r.

Definition ret {A} (a : A) : Run A := ([], Returned a).
Definition throw {A} (e : JsError) : Run A := ([], Thrown e).
Definition diverge {A} : Run A := ([], OutOfFuel).
Definition tell (q : Query) : Run unit := ([q], Returned tt).

Definition bind {A B} (m : Run A) (k : A -> Run B) : Run B :=
  match snd m with
  | Returned a => (fst m ++ fst (k a), snd (k a))
  | Thrown e => (fst m, Thrown e)
  | OutOfFuel => (fst m, OutOfFuel)
  end.

Notation "x <- m ;; k" := (bind m (fun x => k))
  (at level 61, m at next level, right associativity).
Notation "m ;;; k" := (bind m (fun _ => k))
  (at level 61, right associativity).

(* ================================================================== *)
(** ** [chunkedQueryFilter] *)

Section Chunked.
(** The type of logs, and [c.queryFilter(filter, _, _)] for the contract
    and filter of the call. *)
Variable L : Type.
Variable queryFilter : Z -> Z -> JsError + list L.

(** The [while] loop of the helper from a given [start], with the logs
    collected so far in [out].  A failed query is caught: at a span of
    200 or less the error is rethrown, otherwise the helper calls itself
    on the failed range with half the span and the loop goes on after
    that range.  One unit of fuel is spent per loop iteration and per
    nested call. *)
Fixpoint chunked_loop (fuel : nat) (start to maxSpan : Z) (out : list L)
  : Run (list L) :=
  match fuel with
  | O => diverge
  | S fuel' =>
      if start <=? to then
        let end_ := Z.min (start + maxSpan) to in
        match queryFilter start end_ with
        | inr logs =>
            tell (mkQuery start end_ maxSpan true) ;;;
            chunked_loop fuel' (end_ + 1) to maxSpan (out ++ logs)
        | inl e =>
            tell (mkQuery start end_ maxSpan false) ;;;
            if maxSpan <=? 200 then throw e
            else
              let smaller := maxSpan / 2 in
              more <- chunked_loop fuel' start end_ smaller [] ;;
              chunked_loop fuel' (end_ + 1) to maxSpan (out ++ more)
        end
      else ret out
  end.

Definition chunkedQueryFilter (fuel : nat) (from to maxSpan : Z)
  : Run (list L) :=
  chunked_loop fuel from to maxSpan [].

(** The helper called with a lower bound that may be [NaN]: the loop
    test [NaN <= to] is false, so nothing is queried. *)
Definition chunkedQueryFilterN (fuel : nat) (from : jsnum) (to maxSpan : Z)
  : Run (list L) :=
  match from with
  | Num z => chunkedQueryFilter fuel z to maxSpan
  | NaN => ret []
  end.

End Chunked.

(** The sub-ranges queried by the outermost invocation: the queries issued
    at the span the helper was called with. *)
Definition top_ranges (maxSpan : Z) (tr : list Query) : list (Z * Z) :=
  map (fun q => (q_start q, q_end q))
      (filter (fun q => q_span q =? maxSpan) tr).

(* ================================================================== *)
(** ** Logs and table rows *)

(** A log as the binding returns it: [args] is missing when the log could
    not be decoded against the ABI. *)
Record Log (A : Type) : Type := mkLog {
  args : option A;
  transactionHash : string;
  blockNumber : Z
}.

(** Decoded arguments of [ClaimPaid]. *)
Record PaidArgs : Type := mkPaidArgs {
  pa_provider : option string;
  pa_id : Z;
  pa_code : Z;
  pa_year : Z;
  pa_amount : Z;
  pa_visitIndex : Z
}.

(** Decoded arguments of [ClaimRejected]. *)
Record RejectedArgs : Type := mkRejectedArgs {
  ra_provider : option string;
  ra_code : Z;
  ra_year : Z;
  ra_reason : string
}.

Inductive Kind : Type :=
| paid
| rejected.

(** A row of the history table.  The object literal of a paid row has the
    properties [amount] and [visitIndex] and no [reason]; that of a
    rejected row has [reason] and neither of the other two. *)
Record Row : Type := mkRow {
  kind : Kind;
  id : string;
  code : Z;
  year : Z;
  amount : option Z;
  visitIndex : option Z;
  reason : option string;
  tx : string;
  block : Z
}.

(** [l.args?.provider?.toLowerCase()], [None] standing for [undefined]. *)
Definition lowered (p : option string) : option string :=
  option_map toLowerCase p.

(** [x !== providerAddr] for [x] a string or [undefined] and
    [providerAddr] a string, negated: the test that keeps a log. *)
Definition same_account (x : option string) (providerAddr : string) : bool :=
  match x with
  | Some s => String.eqb s providerAddr
  | None => false
  end.

(** The account a log reports, if it was decoded and has one. *)
Definition reported_paid (l : Log PaidArgs) : option string :=
  match args l with
  | Some a => pa_provider a
  | None => None
  end.

Definition reported_rejected (l : Log RejectedArgs) : option string :=
  match args l with
  | Some a => ra_provider a
  | None => None
  end.

(** The object pushed for a paid log with arguments [a]. *)
Definition paid_row (l : Log PaidArgs) (a : PaidArgs) : Row :=
  mkRow paid (String_of_Z (pa_id a)) (pa_code a) (pa_year a)
        (Some (pa_amount a)) (Some (pa_visitIndex a)) None
        (transactionHash l) (blockNumber l).

(** The object pushed for a rejected log with arguments [a]. *)
Definition rejected_row (l : Log RejectedArgs) (a : RejectedArgs) : Row :=
  mkRow rejected "-" (ra_code a) (ra_year a) None None
        (Some (ra_reason a)) (transactionHash l) (blockNumber l).

(** The first [for] loop of [load]: a log whose lower-cased account
    differs from [providerAddr] is passed over, any other is pushed. *)
Fixpoint push_paid (providerAddr : string) (logs : list (Log PaidArgs))
  (rows : list Row) : list Row :=
  match logs with
  | [] => rows
  | l :: logs' =>
      if same_account (lowered (reported_paid l)) providerAddr then
        match args l with
        | Some a => push_paid providerAddr logs' (rows ++ [paid_row l a])
        | None => push_paid providerAddr logs' rows
        end
      else push_paid providerAddr logs' rows
  end.

(** The second [for] loop of [load], on the rejected logs. *)
Fixpoint push_rejected (providerAddr : string)
  (logs : list (Log RejectedArgs)) (rows : list Row) : list Row :=
  match logs with
  | [] => rows
  | l :: logs' =>
      if same_account (lowered (reported_rejected l)) providerAddr then
        match args l with
        | Some a =>
            push_rejected providerAddr logs' (rows ++ [rejected_row l a])
        | None => push_rejected providerAddr logs' rows
        end
      else push_rejected providerAddr logs' rows
  end.

(** [rows] after both loops. *)
Definition build_rows (providerAddr : string)
  (paidLogs : list (Log PaidArgs)) (rejLogs : list (Log RejectedArgs))
  : list Row :=
  push_rejected providerAddr rejLogs (push_paid providerAddr paidLogs []).

(** The comparator [(a,b) => a.block - b.block]. *)
Definition by_block (a b : Row) : Z := block a - block b.

(** [rows.sort(...)] followed by [rows.reverse()]: what [setItems] gets. *)
Definition present (rows : list Row) : list Row :=
  rev (sort by_block rows).

(* ================================================================== *)
(** ** The history panel *)

(** The read-only contract binding.  The two filter factories may be
    missing; a filter is made for an account, and a query with it over a
    block range rejects or resolves. *)
Record Engine : Type := mkEngine {
  has_ClaimPaid : bool;
  has_ClaimRejected : bool;
  queryPaid : string -> Z -> Z -> JsError + list (Log PaidArgs);
  queryRejected : string -> Z -> Z -> JsError + list (Log RejectedArgs)
}.

(** The state of the panel together with the entry [claims.fromBlock] of
    the browser's local storage ([None] when the key is absent). *)
Record State : Type := mkState {
  items : list Row;
  fromBlock : string;
  loading : bool;
  err : string;
  claims_fromBlock : option string
}.

(** How one call of [load] ended. *)
Inductive Outcome : Type :=
| Skipped
| Loaded (rows : list Row)
| Failed (message : string)
| Diverged.

(** What a call of [load] did: the state it leaves, how it ended, and the
    queries issued for each of the two filters. *)
Record LoadResult : Type := mkLoadResult {
  final : State;
  outcome : Outcome;
  paid_queries : list Query;
  rejected_queries : list Query
}.

(** [Number(localStorage.getItem("claims.fromBlock") || 0)]. *)
Definition saved_cursor (item : option string) : jsnum :=
  match item with
  | Some s => if truthy_str s then Number_of_string s else Num 0
  | None => Num 0
  end.

(** The lower bound: manual field, else saved cursor, else look-back. *)
Definition baseFrom (LOOKBACK : Z) (fromBlock : string) (saved : jsnum)
  (to : Z) : jsnum :=
  if truthy_str fromBlock then Number_of_string fromBlock
  else if truthy_num saved then saved
  else Num (Z.max (to - LOOKBACK) 0).

(** [e?.message || "Failed to load history"]. *)
Definition message_of (e : JsError) : string :=
  if truthy_str (err_message e) then err_message e
  else "Failed to load history".

Definition filters_missing : JsError :=
  mkError MalformedResponse "Event filters missing (ABI mismatch?)".

Section Load.
(** The look-back constant of the panel (9000 in the chunked version). *)
Variable LOOKBACK : Z.

(** The state a failed call leaves: the message is shown, the spinner is
    cleared, the rows and the stored cursor are as they were. *)
Definition after_failure (st : State) (e : JsError) : State :=
  mkState (items st) (fromBlock st) false (message_of e)
          (claims_fromBlock st).

(** [load], for a panel given the binding [engineR], the account
    [provider] and, through [readProvider], the answer of
    [getBlockNumber()].  The two chunked queries run under
    [Promise.all]; the first rejection, taken here in argument order,
    is the one caught. *)
Definition load (fuel : nat) (engineR : option Engine) (provider : string)
  (readProvider : option (JsError + Z)) (st : State) : LoadResult :=
  match engineR, readProvider with
  | Some engine, Some getBlockNumber =>
      let providerAddr := toLowerCase provider in
      match getBlockNumber with
      | inl e => mkLoadResult (after_failure st e) (Failed (message_of e))
                   [] []
      | inr to =>
          let saved := saved_cursor (claims_fromBlock st) in
          let from := baseFrom LOOKBACK (fromBlock st) saved to in
          if negb (has_ClaimPaid engine && has_ClaimRejected engine) then
            mkLoadResult (after_failure st filters_missing)
              (Failed (message_of filters_missing)) [] []
          else
            let p := chunkedQueryFilterN (queryPaid engine provider)
                       fuel from to 9500 in
            let r := chunkedQueryFilterN (queryRejected engine provider)
                       fuel from to 9500 in
            match completion p, completion r with
            | Thrown e, _ =>
                mkLoadResult (after_failure st e) (Failed (message_of e))
                  (trace p) (trace r)
            | _, Thrown e =>
                mkLoadResult (after_failure st e) (Failed (message_of e))
                  (trace p) (trace r)
            | Returned paidLogs, Returned rejLogs =>
                let rows := present (build_rows providerAddr paidLogs
                                       rejLogs) in
                mkLoadResult
                  (mkState rows (fromBlock st) false ""
                           (Some (String_of_Z (to + 1))))
                  (Loaded rows) (trace p) (trace r)
            | _, _ =>
                mkLoadResult
                  (mkState (items st) (fromBlock st) true ""
                           (claims_fromBlock st))
                  Diverged (trace p) (trace r)
            end
      end
  | _, _ => mkLoadResult st Skipped [] []
  end.

End Load.

(* ================================================================== *)
(** ** Vocabulary of the statements *)

(** The chunking of [[start, to]] by steps of [ms]: each chunk begins
    where the previous one ended plus one and reaches [ms] further, or to
    [to] if that is nearer. *)
Inductive Chunks (ms to : Z) : Z -> list (Z * Z) -> Prop :=
| Chunks_done start :
    to < start -> Chunks ms to start []
| Chunks_step start rest :
    start <= to ->
    Chunks ms to (Z.min (start + ms) to + 1) rest ->
    Chunks ms to start ((start, Z.min (start + ms) to) :: rest).

(** A list of ranges covers [[from, to]] exactly. *)
Definition covers_exactly (from to : Z) (rs : list (Z * Z)) : Prop :=
  forall b, from <= b <= to <-> exists r, In r rs /\ fst r <= b <= snd r.

(** Ranges in ascending order, each ending before the next begins. *)
Definition ascending_disjoint (rs : list (Z * Z)) : Prop :=
  StronglySorted (fun r1 r2 => snd r1 < fst r2) rs.

(** Each range is not empty and spans at most [ms]. *)
Definition spans_at_most (ms : Z) (rs : list (Z * Z)) : Prop :=
  Forall (fun r => fst r <= snd r /\ snd r - fst r <= ms) rs.

(** The blocks [s], [s+1], ... *)
Fixpoint blocks_from (s : Z) (n : nat) : list Z :=
  match n with
  | O => []
  | S n' => s :: blocks_from (s + 1) n'
  end.

(** The blocks of the range [[s, e]], none when [e < s]. *)
Definition blocks (s e : Z) : list Z := blocks_from s (Z.to_nat (e - s + 1)).

(** The logs a chain holds in the range [[s, e]], in block order, when
    [logsAt b] are the logs of block [b]. *)
Definition logs_in (L : Type) (logsAt : Z -> list L) (s e : Z) : list L :=
  flat_map logsAt (blocks s e).

(** A source that rejects exactly the range queries wider than [W], and
    serves the others from the chain. *)
Definition rejects_wider_than (L : Type) (W : Z) (logsAt : Z -> list L)
  (q : Z -> Z -> JsError + list L) : Prop :=
  forall s e,
    (W < e - s -> exists x, q s e = inl x) /\
    (e - s <= W -> q s e = inr (logs_in logsAt s e)).

(** The simulated source with ceiling [W]. *)
Definition ceiling_source (L : Type) (W : Z) (logsAt : Z -> list L)
  (s e : Z) : JsError + list L :=
  if W <? e - s
  then inl (mkError RangeTooLarge "query exceeds max block range")
  else inr (logs_in logsAt s e).


(** The test of the two loops, as a filter on logs. *)
Definition keeps_paid (providerAddr : string) (l : Log PaidArgs) : bool :=
  same_account (lowered (reported_paid l)) providerAddr.

Definition keeps_rejected (providerAddr : string) (l : Log RejectedArgs)
  : bool :=
  same_account (lowered (reported_rejected l)) providerAddr.

(** The row of a log, when it has arguments to read. *)
Definition paid_row_of (l : Log PaidArgs) : option Row :=
  option_map (paid_row l) (args l).

Definition rejected_row_of (l : Log RejectedArgs) : option Row :=
  option_map (rejected_row l) (args l).

(** A reported account is [account] up to the case of letters. *)
Definition same_account_ci (reported : option string) (account : string)
  : Prop :=
  exists s, reported = Some s /\ toLowerCase s = toLowerCase account.

(** The fields of a row agree with its kind. *)
Definition kind_exclusive (r : Row) : Prop :=
  match kind r with
  | paid => amount r <> None /\ visitIndex r <> None /\ reason r = None
  | rejected => reason r <> None /\ amount r = None /\ visitIndex r = None
  end.

(** Orders on rows by block. *)
Definition block_le (a b : Row) : Prop := block a <= block b.
Definition block_ge (a b : Row) : Prop := block a >= block b.

(** The rows of one block, in the order of the list. *)
Definition at_block (b : Z) (rows : list Row) : list Row :=
  filter (fun r => block r =? b) rows.


(** Whether a call of [load] ran to the end of its [try] block. *)
Definition succeeded (o : Outcome) : bool :=
  match o with
  | Loaded _ => true
  | _ => false
  end.

(** The lower bound [load] works out in state [st] at head [to]. *)
Definition lower_bound (LOOKBACK : Z) (st : State) (to : Z) : jsnum :=
  baseFrom LOOKBACK (fromBlock st) (saved_cursor (claims_fromBlock st)) to.

(** The two helper runs of a call of [load]. *)
Definition paid_run (LOOKBACK : Z) (fuel : nat) (engine : Engine)
  (provider : string) (to : Z) (st : State) : Run (list (Log PaidArgs)) :=
  chunkedQueryFilterN (queryPaid engine provider) fuel
    (lower_bound LOOKBACK st to) to 9500.

Definition rejected_run (LOOKBACK : Z) (fuel : nat) (engine : Engine)
  (provider : string) (to : Z) (st : State)
  : Run (list (Log RejectedArgs)) :=
  chunkedQueryFilterN (queryRejected engine provider) fuel
    (lower_bound LOOKBACK st to) to 9500.

(** A fresh panel: nothing shown, nothing typed, nothing stored. *)
Definition fresh : State := mkState [] "" false "" None.

(** A binding with both filters over the given two sources. *)
Definition engine_of
  (qp : Z -> Z -> JsError + list (Log PaidArgs))
  (qr : Z -> Z -> JsError + list (Log RejectedArgs)) : Engine :=
  mkEngine true true (fun _ => qp) (fun _ => qr).

(** A node that times out on ranges wider than 300 blocks, over a chain
    without claim events. *)
Definition slow_node (L : Type) (s e : Z) : JsError + list L :=
  if 300 <? e - s then inl (mkError Connectivity "request timed out")
  else inr [].

(** A node that answers every query, over a chain without claim events. *)
Definition quiet_node (L : Type) (s e : Z) : JsError + list L := inr [].

(** A node that cannot be reached. *)
Definition dead_node (L : Type) (s e : Z) : JsError + list L :=
  inl (mkError Connectivity "network error").


(** A node serving the given logs by block range. *)
Definition node_of (A : Type) (logs : list (Log A)) (s e : Z)
  : JsError + list (Log A) :=
  inr (filter (fun l => (s <=? blockNumber l) && (blockNumber l <=? e))
              logs).

(** Sample chain contents: two accounts, one of them written in two
    letter cases, and one log that did not decode. *)
Definition alice : string := "0xABCDEF0123456789abcdef0123456789ABCDEF01".
Definition alice_lower : string :=
  "0xabcdef0123456789abcdef0123456789abcdef01".
Definition bob : string := "0x00000000000000000000000000000000000000b0".

Definition sample_paid : list (Log PaidArgs) :=
  [ mkLog (Some (mkPaidArgs (Some alice) 1 1 2025 25000000 1)) "0xa1" 905;
    mkLog (Some (mkPaidArgs (Some bob) 2 1 2025 25000000 1)) "0xb1" 907;
    mkLog None "0xc1" 908;
    mkLog (Some (mkPaidArgs (Some alice_lower) 3 2 2025 90000000 1))
          "0xa2" 909 ].

Definition sample_rejected : list (Log RejectedArgs) :=
  [ mkLog (Some (mkRejectedArgs (Some alice_lower) 1 2025 "limit reached"))
          "0xa3" 902;
    mkLog (Some (mkRejectedArgs (Some bob) 2 2025 "not covered"))
          "0xb2" 905 ].

Definition sample_engine : Engine :=
  engine_of (node_of sample_paid) (node_of sample_rejected).

(** Rows at blocks 5, 2, 9, 2, the two at block 2 of different kinds. *)
Definition example_rows : list Row :=
  [ mkRow paid "7" 1 2025 (Some 25000000) (Some 1) None "0x05" 5;
    mkRow rejected "-" 1 2025 None None (Some "limit reached") "0x02" 2;
    mkRow paid "8" 2 2025 (Some 90000000) (Some 1) None "0x09" 9;
    mkRow paid "9" 1 2025 (Some 25000000) (Some 2) None "0x2b" 2 ].


(** The completion of a loop started with [out] already collected. *)
Definition onto (L : Type) (out : list L) (c : Completion (list L))
  : Completion (list L) :=
  match c with
  | Returned l => Returned (out ++ l)
  | Thrown e => Thrown e
  | OutOfFuel => OutOfFuel
  end.

(** Fuel that is always enough when the span is not negative: one unit
    per block of the range, one per unit of span (a bound on the
    halvings), and one to leave the loop. *)
Definition enough (start to ms : Z) : nat :=
  (Z.to_nat (to - start + 1) + Z.to_nat ms + 1)%nat.


(** The ranges of the queries that were answered, in the order asked. *)
Definition ok_ranges (tr : list Query) : list (Z * Z) :=
  map (fun x => (q_start x, q_end x)) (filter q_ok tr).

(** What the source answers on a range, nothing when it rejects. *)
Definition answer (L : Type) (q : Z -> Z -> JsError + list L)
  (r : Z * Z) : list L :=
  match q (fst r) (snd r) with
  | inr logs => logs
  | inl _ => []
  end.

(** Ranges laid end to end from [a] up to, not including, [c]. *)
Inductive Tiles : Z -> Z -> list (Z * Z) -> Prop :=
| Tiles_nil a : Tiles a a []
| Tiles_cons a e c rest :
    a <= e -> Tiles (e + 1) c rest -> Tiles a c ((a, e) :: rest).

(** The spans a call at span [ms] can come to use, within [n] levels of
    nesting: [ms], and its successive halves while above 200. *)
Fixpoint halvings (n : nat) (ms : Z) : list Z :=
  match n with
  | O => []
  | S n' => ms :: (if ms <=? 200 then [] else halvings n' (ms / 2))
  end.


(** What follows a failed request [x] in a run [r] of the helper over
    the source [q], [post] being the queries issued after [x].  The
    source refused the range of [x] with some error.  Above the floor
    the helper asks again, on that range and at half the span: [post]
    begins with the queries of that run of the helper, which has ended
    unless the whole run was cut short.  At the floor nothing more is
    asked, and the run throws the error of the request. *)
Definition retried_or_thrown (L : Type) (q : Z -> Z -> JsError + list L)
  (r : Run (list L)) (x : Query) (post : list Query) : Prop :=
  exists e,
    q (q_start x) (q_end x) = inl e /\
    (200 < q_span x ->
     exists n rest,
       let retry := chunkedQueryFilter q n (q_start x) (q_end x)
                      (q_span x / 2) in
       post = trace retry ++ rest /\
       (completion retry = OutOfFuel ->
        rest = [] /\ completion r = OutOfFuel)) /\
    (q_span x <= 200 -> post = [] /\ completion r = Thrown e).

(** Two sources that refuse the same ranges and answer alike on the
    others: they differ at most in the errors they give. *)
Definition same_up_to_errors (L : Type)
  (q1 q2 : Z -> Z -> JsError + list L) : Prop :=
  forall s e,
    match q1 s e, q2 s e with
    | inr a, inr b => a = b
    | inl _, inl _ => True
    | _, _ => False
    end.

(** Two completions that differ at most in the error thrown. *)
Definition same_ending (A : Type) (c1 c2 : Completion A) : Prop :=
  match c1, c2 with
  | Returned a, Returned b => a = b
  | Thrown _, Thrown _ => True
  | OutOfFuel, OutOfFuel => True
  | _, _ => False
  end.

(** A node that cannot serve block [b]: every range that holds it is
    refused, whatever its width; the other ranges hold no claim event. *)
Definition broken_at (L : Type) (b s e : Z) : JsError + list L :=
  if (s <=? b) && (b <=? e)
  then inl (mkError MalformedResponse "missing trie node")
  else inr [].

(** A call of [load] ran the helper, for both filters, from the lower
    bound [from] to [to]. *)
Definition scans_from (res : LoadResult) (engine : Engine)
  (provider : string) (fuel : nat) (from : jsnum) (to : Z) : Prop :=
  paid_queries res
  = trace (chunkedQueryFilterN (queryPaid engine provider) fuel from to 9500)
  /\
  rejected_queries res
  = trace (chunkedQueryFilterN (queryRejected engine provider) fuel from to
             9500).

(** Logs at blocks 5, 2, 9 of one kind and at block 2 of the other, all
    of one account, in the order a node returns them to one query. *)
Definition tie_paid : list (Log PaidArgs) :=
  [ mkLog (Some (mkPaidArgs (Some alice) 7 1 2025 25000000 1)) "0x05" 5;
    mkLog (Some (mkPaidArgs (Some alice) 8 1 2025 25000000 2)) "0x2a" 2;
    mkLog (Some (mkPaidArgs (Some alice) 9 2 2025 90000000 1)) "0x09" 9 ].

Definition tie_rejected : list (Log RejectedArgs) :=
  [ mkLog (Some (mkRejectedArgs (Some alice) 1 2025 "limit reached"))
          "0x2b" 2 ].

Definition tie_engine : Engine :=
  engine_of (node_of tie_paid) (node_of tie_rejected).

(** The comparator of [by_block] on the block numbers themselves. *)
Definition by_number (a b : Z) : Z := a - b.

(** The sample logs as a chain: the logs of each block. *)
Definition paid_chain (b : Z) : list (Log PaidArgs) :=
  filter (fun l => blockNumber l =? b) sample_paid.

Definition rejected_chain (b : Z) : list (Log RejectedArgs) :=
  filter (fun l => blockNumber l =? b) sample_rejected.


(** ** [loadOlder] *)

(** The text [loadOlder] puts in the manual field:
    [String(Math.max((to ?? 0) - LOOKBACK, 0))] with [to] the stored
    cursor less one, or nothing (zero) when there is no cursor. *)
Definition older_field (LOOKBACK : Z) (item : option string) : string :=
  let saved := saved_cursor item in
  let to := match saved with
            | Num z => if truthy_num saved then z - 1 else 0
            | NaN => 0
            end in
  String_of_Z (Z.max (to - LOOKBACK) 0).

Definition set_fromBlock (text : string) (st : State) : State :=
  mkState (items st) text (loading st) (err st) (claims_fromBlock st).

(** [loadOlder]: the field is set, then [load] is awaited.  The [load]
    that runs is the function of the rendering in which the button was
    pressed, where [fromBlock] is still the text of before; the new text
    is in the state once the call is over. *)
Definition loadOlder (LOOKBACK : Z) (fuel : nat) (engineR : option Engine)
  (provider : string) (readProvider : option (JsError + Z)) (st : State)
  : LoadResult :=
  let text := older_field LOOKBACK (claims_fromBlock st) in
  let res := load LOOKBACK fuel engineR provider readProvider st in
  mkLoadResult (set_fromBlock text (final res)) (outcome res)
               (paid_queries res) (rejected_queries res).

(** The number [loadOlder] writes, given the cursor read. *)
Definition older_bound (LOOKBACK : Z) (saved : jsnum) : Z :=
  match saved with
  | Num z => if z =? 0 then Z.max (0 - LOOKBACK) 0
             else Z.max (z - 1 - LOOKBACK) 0
  | NaN => Z.max (0 - LOOKBACK) 0
  end.


(** ** Amounts *)

(** [n] characters [0]. *)
Fixpoint zeros (n : nat) : string :=
  match n with
  | O => EmptyString
  | S n' => String "0" (zeros n')
  end.

(** [s.padStart(6, "0")]. *)
Definition padStart6 (s : string) : string :=
  append (zeros (6 - String.length s)) s.

(** [s.replace(/0+$/, "")]: the zeros at the end of [s] are removed. *)
Fixpoint strip_zeros (s : string) : string :=
  match s with
  | EmptyString => EmptyString
  | String c s' =>
      match strip_zeros s' with
      | EmptyString => if Ascii.eqb c "0" then EmptyString
                       else String c EmptyString
      | t => String c t
      end
  end.

(** [fmtUSDC]: an amount in millionths, as text; [None] is [undefined].
    Division and remainder of [bigint] round toward zero. *)
Definition fmtUSDC (x : option Z) : string :=
  match x with
  | None => "-"
  | Some x =>
      let whole := Z.quot x 1000000 in
      let frac := strip_zeros (padStart6 (String_of_Z (Z.rem x 1000000))) in
      if truthy_str frac
      then append (String_of_Z whole) (String "." frac)
      else String_of_Z whole
  end.

(** Reading decimal notation: the text before the first point, and the
    text after it if there is a point. *)
Fixpoint split_point (s : string) : string * option string :=
  match s with
  | EmptyString => (EmptyString, None)
  | String c s' =>
      if Ascii.eqb c "." then (EmptyString, Some s')
      else let (w, f) := split_point s' in (String c w, f)
  end.

(** The amount in millionths that a decimal notation with at most six
    decimals denotes: the whole part times a million, plus the decimals
    read as millionths. *)
Definition read_usdc (s : string) : jsnum :=
  match split_point s with
  | (w, None) =>
      match Number_of_string w with
      | Num n => Num (n * 1000000)
      | NaN => NaN
      end
  | (w, Some f) =>
      match Number_of_string w,
            Number_of_string (append f (zeros (6 - String.length f))) with
      | Num n, Num m => Num (n * 1000000 + m)
      | _, _ => NaN
      end
  end.

Definition is_digit (c : ascii) : bool :=
  (Nat.leb 48 (nat_of_ascii c) && Nat.leb (nat_of_ascii c) 57)%bool.

Fixpoint all_digits (s : string) : bool :=
  match s with
  | EmptyString => true
  | String c s' => (is_digit c && all_digits s')%bool
  end.

(** The number a text of decimal digits denotes. *)
Definition digits_value (s : string) : Z :=
  fst (fst (read_digits 10 s 0 0)).

(** The last character of a text, if any. *)
Fixpoint last_char (s : string) : option ascii :=
  match s with
  | EmptyString => None
  | String c EmptyString => Some c
  | String _ s' => last_char s'
  end.

(** The little-endian decimal of [f] on [n] digits. *)
Definition digit_on (r : N) (d : Decimal.uint) : Decimal.uint :=
  match r with
  | 0%N => Decimal.D0 d
  | 1%N => Decimal.D1 d
  | 2%N => Decimal.D2 d
  | 3%N => Decimal.D3 d
  | 4%N => Decimal.D4 d
  | 5%N => Decimal.D5 d
  | 6%N => Decimal.D6 d
  | 7%N => Decimal.D7 d
  | 8%N => Decimal.D8 d
  | _ => Decimal.D9 d
  end.

Fixpoint little_digits (n : nat) (f : N) : Decimal.uint :=
  match n with
  | O => Decimal.Nil
  | S n' => digit_on (f mod 10) (little_digits n' (f / 10))
  end.


(** ** Patient identifiers *)

(** One of [0-9a-fA-F]. *)
Definition is_hex (c : ascii) : bool :=
  let n := nat_of_ascii c in
  ((Nat.leb 48 n && Nat.leb n 57) || (Nat.leb 97 n && Nat.leb n 102)
   || (Nat.leb 65 n && Nat.leb n 70))%bool.

(** [[0-9a-fA-F]{n}$]: exactly [n] hexadecimal digits, then the end. *)
Fixpoint hex_run (n : nat) (s : string) : bool :=
  match n, s with
  | O, EmptyString => true
  | S n', String c s' => (is_hex c && hex_run n' s')%bool
  | _, _ => false
  end.

(** [isBytes32Hex]: [/^0x[0-9a-fA-F]{64}$/.test(s)]. *)
Definition isBytes32Hex (s : string) : bool :=
  match s with
  | String "0" (String "x" body) => hex_run 64 body
  | _ => false
  end.

(** The value of a hexadecimal digit, and of a run of them. *)
Definition hex_digit (c : ascii) : Z :=
  let n := Z.of_nat (nat_of_ascii c) in
  if is_digit c then n - 48
  else if Nat.leb 97 (nat_of_ascii c) then n - 87
  else n - 55.

Fixpoint hex_value_from (acc : Z) (s : string) : Z :=
  match s with
  | EmptyString => acc
  | String c s' => hex_value_from (16 * acc + hex_digit c) s'
  end.

Definition hex_value (s : string) : Z := hex_value_from 0 s.

(** The lower-case digit of a value below 16, and the text of a value on
    [n] hexadecimal digits. *)
Definition hex_char (v : Z) : ascii :=
  ascii_of_nat (Z.to_nat (if v <? 10 then v + 48 else v + 87)).

Fixpoint hex_text (n : nat) (v : Z) : string :=
  match n with
  | O => EmptyString
  | S n' => append (hex_text n' (v / 16)) (String (hex_char (v mod 16)) "")
  end.

(** ** Submitting a claim *)

(** An error of the wallet or of the node: [shortMessage] and [message],
    empty when missing. *)
Record TxError : Type := mkTxError {
  shortMessage : string;
  tx_message : string
}.

(** A log of the receipt as [parseLog] reads it against the ABI of the
    engine: [ClaimPaid] with its sixth and seventh arguments, the amount
    and the visit index; [ClaimRejected] with its fifth, the reason; an
    event of another name. *)
Inductive Parsed : Type :=
| ParsedPaid (amount vix : Z)
| ParsedRejected (reason : string)
| ParsedOther (name : string).

(** A transaction as returned by [engineW.submit]: its hash, and what
    [wait()] gives, the logs of the receipt, each parsed or not. *)
Record Tx : Type := mkTx {
  hash : string;
  wait : TxError + list (option Parsed)
}.

(** The state of the submission form, with the balance shown beside. *)
Record Form : Type := mkForm {
  patientId : string;
  form_code : string;
  form_year : string;
  lastTx : string;
  result : string;
  vault : Z
}.

(** What a call of [submit] did: the form it leaves, the call made on
    the contract if one was made, and whether an alert was shown. *)
Record SubmitResult : Type := mkSubmitResult {
  form : Form;
  submitted : option (string * jsnum * jsnum);
  alerted : bool
}.

(** The loop over the logs of the receipt: the last [ClaimPaid] and the
    last [ClaimRejected] are kept. *)
Fixpoint scan_receipt (logs : list (option Parsed))
  (paidE : option (Z * Z)) (rejectedE : option string)
  : option (Z * Z) * option string :=
  match logs with
  | [] => (paidE, rejectedE)
  | Some (ParsedPaid a v) :: logs' => scan_receipt logs' (Some (a, v)) rejectedE
  | Some (ParsedRejected r) :: logs' => scan_receipt logs' paidE (Some r)
  | _ :: logs' => scan_receipt logs' paidE rejectedE
  end.

(** The text shown for what the receipt held. *)
Definition receipt_text (found : option (Z * Z) * option string) : string :=
  match found with
  | (Some (a, v), _) =>
      append "✅ Paid "
        (append (fmtUSDC (Some a))
           (append " USDC · visit #" (String_of_Z v)))
  | (None, Some r) => append "❌ Rejected: " r
  | (None, None) => "Tx mined, no event parsed (check explorer)"
  end.

(** [e?.shortMessage || e?.message || "Error"]. *)
Definition tx_error_text (e : TxError) : string :=
  if truthy_str (shortMessage e) then shortMessage e
  else if truthy_str (tx_message e) then tx_message e
  else "Error".

Definition set_result (text : string) (f : Form) : Form :=
  mkForm (patientId f) (form_code f) (form_year f) (lastTx f) text (vault f).

(** [submit] of the provider portal, given the write binding [engineW]
    (its [submit], when there is a signer) and what [vaultBalance()]
    gives when called ([None] when [bankR] is missing or the call
    fails). *)
Definition submit
  (engineW : option (string -> jsnum -> jsnum -> TxError + Tx))
  (vaultBalance : option Z) (f : Form) : SubmitResult :=
  match engineW with
  | None => mkSubmitResult f None false
  | Some send =>
      if negb (isBytes32Hex (patientId f)) then mkSubmitResult f None true
      else
        let call := (patientId f, Number_of_string (form_code f),
                     Number_of_string (form_year f)) in
        match send (patientId f) (Number_of_string (form_code f))
                   (Number_of_string (form_year f)) with
        | inl e => mkSubmitResult (set_result (tx_error_text e) f)
                     (Some call) false
        | inr tx =>
            match wait tx with
            | inl e =>
                mkSubmitResult
                  (mkForm (patientId f) (form_code f) (form_year f)
                          (hash tx) (tx_error_text e) (vault f))
                  (Some call) false
            | inr logs =>
                mkSubmitResult
                  (mkForm (patientId f) (form_code f) (form_year f)
                          (hash tx)
                          (receipt_text (scan_receipt logs None None))
                          (match vaultBalance with
                           | Some bal => bal
                           | None => vault f
                           end))
                  (Some call) false
            end
        end
  end.

(** ** The cells of the history table *)

(** [r.amount ? fmtUSDC(r.amount) : r.reason]: a missing or zero amount
    is falsy; a missing reason shows nothing. *)
Definition amount_cell (r : Row) : string :=
  match amount r with
  | Some a => if a =? 0
              then match reason r with Some t => t | None => "" end
              else fmtUSDC (Some a)
  | None => match reason r with Some t => t | None => "" end
  end.

(** [r.visitIndex ?? "-"]. *)
Definition visit_cell (r : Row) : string :=
  match visitIndex r with
  | Some v => String_of_Z v
  | None => "-"
  end.


(** A log of the receipt that reads as [ClaimPaid], as [ClaimRejected]. *)
Definition is_paid (l : option Parsed) : bool :=
  match l with
  | Some (ParsedPaid _ _) => true
  | _ => false
  end.

Definition is_rejected (l : option Parsed) : bool :=
  match l with
  | Some (ParsedRejected _) => true
  | _ => false
  end.

(** Sample forms and transactions. *)
Definition sample_id : string :=
  "0x00000000000000000000000000000000000000000000000000000000000000fF".

Definition sample_form : Form := mkForm sample_id "1" "2025" "" "" 0.

Definition sample_logs : list (option Parsed) :=
  [Some (ParsedRejected "limit reached"); None;
   Some (ParsedPaid 1500000 2); Some (ParsedOther "Transfer");
   Some (ParsedPaid 25000000 3); Some (ParsedRejected "late")].

Definition sample_send (id : string) (c y : jsnum) : TxError + Tx :=
  inr (mkTx "0xfeed" (inr sample_logs)).


(** An ASCII letter other than [I]: no number, in any notation that
    [Number] reads, starts with one. *)
Definition starts_no_number (c : ascii) : bool :=
  let n := nat_of_ascii c in
  (((Nat.leb 65 n && Nat.leb n 90) || (Nat.leb 97 n && Nat.leb n 122))
   && negb (Nat.eqb n 73))%bool.

(* ================================================================== *)
(** * Properties *)

(** ** The run monad *)

Unset Implicit Arguments.

Lemma bind_tell {A} (q : Query) (m : Run A) :
  (tell q ;;; m) = (q :: trace m, completion m).
Proof. reflexivity. Qed.

Lemma bind_returned {A B} (m : Run A) (k : A -> Run B) {a} :
  completion m = Returned a ->
  bind m k = (trace m ++ trace (k a), completion (k a)).
Proof. unfold bind, completion, trace. intros ->. reflexivity. Qed.

Lemma bind_thrown {A B} (m : Run A) (k : A -> Run B) {e} :
  completion m = Thrown e -> bind m k = (trace m, Thrown e).
Proof. unfold bind, completion, trace. intros ->. reflexivity. Qed.

Lemma bind_out_of_fuel {A B} (m : Run A) (k : A -> Run B) :
  completion m = OutOfFuel -> bind m k = (trace m, OutOfFuel).
Proof. unfold bind, completion, trace. intros ->. reflexivity. Qed.

(** ** The chunked query helper *)

Section ChunkedFacts.
Variable L : Type.
Variable q : Z -> Z -> JsError + list L.

Lemma onto_app (out logs : list L) c :
  onto (out ++ logs) c = onto out (onto logs c).
Proof. destruct c; simpl; now rewrite <- ?app_assoc. Qed.

Lemma chunked_loop_S fuel start to ms out :
  chunked_loop q (S fuel) start to ms out =
  if start <=? to then
    let end_ := Z.min (start + ms) to in
    match q start end_ with
    | inr logs =>
        tell (mkQuery start end_ ms true) ;;;
        chunked_loop q fuel (end_ + 1) to ms (out ++ logs)
    | inl e =>
        tell (mkQuery start end_ ms false) ;;;
        if ms <=? 200 then throw e
        else
          more <- chunked_loop q fuel start end_ (ms / 2) [] ;;
          chunked_loop q fuel (end_ + 1) to ms (out ++ more)
    end
  else ret out.
Proof. reflexivity. Qed.

(** The collected logs are only ever appended to: a loop started with
    [out] issues the queries of the loop started empty and completes
    with [out] in front. *)
Lemma chunked_loop_out fuel : forall start to ms out,
  chunked_loop q fuel start to ms out =
  (trace (chunked_loop q fuel start to ms []),
   onto out (completion (chunked_loop q fuel start to ms []))).
Proof.
  induction fuel as [|fuel IH]; intros start to ms out.
  - reflexivity.
  - rewrite !chunked_loop_S.
    destruct (start <=? to); [|cbn; now rewrite app_nil_r].
    cbv zeta. set (e := Z.min (start + ms) to).
    destruct (q start e) as [x|logs].
    + rewrite !bind_tell.
      destruct (ms <=? 200); [reflexivity|].
      destruct (completion (chunked_loop q fuel start e (ms / 2) []))
        as [more| |] eqn:Hn.
      * rewrite !(bind_returned _ _ Hn). cbn [trace completion fst snd].
        rewrite (IH (e + 1) to ms (out ++ more)).
        rewrite (IH (e + 1) to ms ([] ++ more)).
        cbn [trace completion fst snd app]. now rewrite onto_app.
      * rewrite !(bind_thrown _ _ Hn). reflexivity.
      * rewrite !(bind_out_of_fuel _ _ Hn). reflexivity.
    + rewrite !bind_tell.
      rewrite (IH (e + 1) to ms (out ++ logs)).
      rewrite (IH (e + 1) to ms ([] ++ logs)).
      cbn [trace completion fst snd app]. now rewrite onto_app.
Qed.

(** Fuel is only a bound: a run that ended is the run at any larger
    fuel. *)
Lemma chunked_loop_more_fuel fuel : forall start to ms out,
  completion (chunked_loop q fuel start to ms out) <> OutOfFuel ->
  chunked_loop q (S fuel) start to ms out =
  chunked_loop q fuel start to ms out.
Proof.
  induction fuel as [|fuel IH]; intros start to ms out Hc.
  - now elim Hc.
  - rewrite chunked_loop_S in Hc. rewrite (chunked_loop_S (S fuel)).
    rewrite (chunked_loop_S fuel).
    destruct (start <=? to); [|reflexivity].
    cbv zeta in *. set (e := Z.min (start + ms) to) in *.
    destruct (q start e) as [x|logs].
    + rewrite bind_tell in Hc. rewrite !bind_tell.
      cbn [completion snd] in Hc.
      destruct (ms <=? 200); [reflexivity|].
      destruct (completion (chunked_loop q fuel start e (ms / 2) []))
        as [more| |] eqn:Hn.
      * assert (Hn' : chunked_loop q (S fuel) start e (ms / 2) [] =
                      chunked_loop q fuel start e (ms / 2) [])
          by (apply IH; rewrite Hn; discriminate).
        rewrite Hn'. rewrite (bind_returned _ _ Hn) in Hc.
        rewrite !(bind_returned _ _ Hn).
        cbn [trace completion fst snd] in *.
        rewrite IH; [reflexivity|exact Hc].
      * assert (Hn' : chunked_loop q (S fuel) start e (ms / 2) [] =
                      chunked_loop q fuel start e (ms / 2) [])
          by (apply IH; rewrite Hn; discriminate).
        rewrite Hn'. now rewrite !(bind_thrown _ _ Hn).
      * rewrite (bind_out_of_fuel _ _ Hn) in Hc. now elim Hc.
    + rewrite bind_tell in Hc. rewrite !bind_tell.
      cbn [completion snd] in Hc. rewrite IH; [reflexivity|exact Hc].
Qed.

Lemma chunked_loop_fuel_le fuel fuel' start to ms out :
  (fuel <= fuel')%nat ->
  completion (chunked_loop q fuel start to ms out) <> OutOfFuel ->
  chunked_loop q fuel' start to ms out =
  chunked_loop q fuel start to ms out.
Proof.
  induction 1 as [|m Hle IH]; intros Hc; [reflexivity|].
  rewrite chunked_loop_more_fuel; rewrite IH; auto.
Qed.

Lemma chunked_loop_terminates fuel : forall start to ms out,
  0 <= ms -> (enough start to ms <= fuel)%nat ->
  completion (chunked_loop q fuel start to ms out) <> OutOfFuel.
Proof.
  unfold enough.
  induction fuel as [|fuel IH]; intros start to ms out Hms Hf; [lia|].
  rewrite chunked_loop_S.
  destruct (Z.leb_spec start to) as [Hle|Hgt]; [|discriminate].
  cbv zeta. set (e := Z.min (start + ms) to).
  assert (He : start <= e <= to) by (unfold e; lia).
  assert (Hnext : forall o,
    completion (chunked_loop q fuel (e + 1) to ms o) <> OutOfFuel)
    by (intros o; apply IH; lia).
  destruct (q start e) as [x|logs]; rewrite bind_tell; cbn [completion snd].
  - destruct (Z.leb_spec ms 200) as [Hfl|Hfl]; [discriminate|].
    assert (Hhalf : 0 <= ms / 2 < ms)
      by (split; [apply Z.div_pos; lia | apply Z.div_lt; lia]).
    assert (Hn : completion (chunked_loop q fuel start e (ms / 2) [])
                 <> OutOfFuel) by (apply IH; lia).
    destruct (completion (chunked_loop q fuel start e (ms / 2) []))
      as [more| |] eqn:Hc.
    + rewrite (bind_returned _ _ Hc). cbn [snd]. apply Hnext.
    + rewrite (bind_thrown _ _ Hc). discriminate.
    + now elim Hn.
  - apply Hnext.
Qed.

End ChunkedFacts.

(** ** The sub-ranges of the outermost invocation *)

Lemma top_ranges_app ms tr1 tr2 :
  top_ranges ms (tr1 ++ tr2) = top_ranges ms tr1 ++ top_ranges ms tr2.
Proof. unfold top_ranges. now rewrite filter_app, map_app. Qed.

Lemma top_ranges_below ms tr :
  Forall (fun x => q_span x < ms) tr -> top_ranges ms tr = [].
Proof.
  induction 1 as [|x tr Hx _ IH]; [reflexivity|].
  unfold top_ranges in *. cbn [filter].
  destruct (Z.eqb_spec (q_span x) ms); [lia|exact IH].
Qed.

Section TopRanges.
Variable L : Type.
Variable q : Z -> Z -> JsError + list L.

(** No query is issued at a span above the one the helper was called
    with. *)
Lemma chunked_loop_spans fuel : forall start to ms out,
  0 <= ms ->
  Forall (fun x => q_span x <= ms)
         (trace (chunked_loop q fuel start to ms out)).
Proof.
  induction fuel as [|fuel IH]; intros start to ms out Hms;
    [constructor|].
  rewrite chunked_loop_S.
  destruct (start <=? to); [|constructor].
  cbv zeta. set (e := Z.min (start + ms) to).
  destruct (q start e) as [x|logs]; rewrite bind_tell;
    cbn [trace fst]; constructor; cbn [q_span]; try lia.
  - destruct (Z.leb_spec ms 200) as [Hfl|Hfl]; [constructor|].
    assert (Hhalf : 0 <= ms / 2 < ms)
      by (split; [apply Z.div_pos; lia | apply Z.div_lt; lia]).
    assert (Hn : Forall (fun x => q_span x <= ms)
                   (trace (chunked_loop q fuel start e (ms / 2) []))).
    { eapply Forall_impl; [|apply IH; lia]. cbv beta. intros; lia. }
    destruct (completion (chunked_loop q fuel start e (ms / 2) []))
      as [more| |] eqn:Hc.
    + rewrite (bind_returned _ _ Hc). cbn [fst].
      apply Forall_app. split; [exact Hn|now apply IH].
    + rewrite (bind_thrown _ _ Hc). exact Hn.
    + rewrite (bind_out_of_fuel _ _ Hc). exact Hn.
  - now apply IH.
Qed.

(** A run that returns has queried, at its own span, exactly the
    chunking of the range. *)
Lemma chunked_loop_chunks fuel : forall start to ms out res,
  0 <= ms ->
  completion (chunked_loop q fuel start to ms out) = Returned res ->
  Chunks ms to start
         (top_ranges ms (trace (chunked_loop q fuel start to ms out))).
Proof.
  induction fuel as [|fuel IH]; intros start to ms out res Hms;
    [discriminate|].
  rewrite chunked_loop_S.
  destruct (Z.leb_spec start to) as [Hle|Hgt];
    [|intros _; now constructor].
  cbv zeta. set (e := Z.min (start + ms) to).
  destruct (q start e) as [x|logs]; rewrite bind_tell;
    cbn [trace completion fst snd].
  - destruct (Z.leb_spec ms 200) as [Hfl|Hfl]; [discriminate|].
    assert (Hhalf : 0 <= ms / 2 < ms)
      by (split; [apply Z.div_pos; lia | apply Z.div_lt; lia]).
    destruct (completion (chunked_loop q fuel start e (ms / 2) []))
      as [more| |] eqn:Hc.
    + rewrite (bind_returned _ _ Hc). cbn [trace completion fst snd].
      intros Hr.
      change (?x :: ?l) with ([x] ++ l). rewrite !top_ranges_app.
      rewrite (top_ranges_below ms
                 (trace (chunked_loop q fuel start e (ms / 2) []))).
      * unfold top_ranges at 1. cbn [filter q_span].
        rewrite Z.eqb_refl. cbn [map app q_start q_end].
        constructor; [exact Hle|]. eapply IH; eauto.
      * eapply Forall_impl; [|apply chunked_loop_spans; lia].
        cbv beta. intros; lia.
    + rewrite (bind_thrown _ _ Hc). discriminate.
    + rewrite (bind_out_of_fuel _ _ Hc). discriminate.
  - intros Hr. change (?x :: ?l) with ([x] ++ l).
    rewrite top_ranges_app. unfold top_ranges at 1. cbn [filter q_span].
    rewrite Z.eqb_refl. cbn [map app q_start q_end].
    constructor; [exact Hle|]. eapply IH; eauto.
Qed.

End TopRanges.

(** A chunking stays inside the range, each chunk within the span. *)
Lemma Chunks_bounds ms to start rs :
  0 <= ms -> Chunks ms to start rs ->
  Forall (fun r => start <= fst r /\ fst r <= snd r /\ snd r <= to /\
                   snd r - fst r <= ms) rs.
Proof.
  intros Hms. induction 1 as [start Hgt|start rest Hle _ IH];
    constructor.
  - cbn [fst snd]. lia.
  - eapply Forall_impl; [|exact IH]. cbv beta. intros r. lia.
Qed.

Lemma Chunks_ascending ms to start rs :
  0 <= ms -> Chunks ms to start rs -> ascending_disjoint rs.
Proof.
  intros Hms. induction 1 as [start Hgt|start rest Hle Hrest IH];
    constructor; [exact IH|].
  eapply Forall_impl; [|apply (Chunks_bounds _ _ _ _ Hms Hrest)].
  cbv beta. cbn [fst snd]. intros r. lia.
Qed.

Lemma Chunks_cover ms to start rs :
  0 <= ms -> Chunks ms to start rs -> covers_exactly start to rs.
Proof.
  intros Hms. induction 1 as [start Hgt|start rest Hle Hrest IH];
    intros b; split.
  - lia.
  - intros (r & [] & _).
  - intros Hb. destruct (Z_le_gt_dec b (Z.min (start + ms) to)) as [Hin|Hout].
    + exists (start, Z.min (start + ms) to). split; [now left|].
      cbn [fst snd]. lia.
    + destruct (proj1 (IH b)) as (r & Hr & Hbr); [lia|].
      exists r. split; [now right|exact Hbr].
  - intros (r & [<-|Hr] & Hbr).
    + cbn [fst snd] in Hbr. lia.
    + assert (Hb : Z.min (start + ms) to + 1 <= b <= to)
        by (apply IH; now exists r).
      lia.
Qed.

Lemma Chunks_spans ms to start rs :
  0 <= ms -> Chunks ms to start rs -> spans_at_most ms rs.
Proof.
  intros Hms Hc. eapply Forall_impl; [|apply (Chunks_bounds _ _ _ _ Hms Hc)].
  cbv beta. intros r. lia.
Qed.

(** ** Failures leave the helper only at the floor *)

Section Thrown.
Variable L : Type.
Variable q : Z -> Z -> JsError + list L.

(** A run that throws ends on a query that failed at a span of 200 or
    less, and throws the error of that query. *)
Lemma chunked_loop_thrown fuel : forall start to ms out e,
  completion (chunked_loop q fuel start to ms out) = Thrown e ->
  exists tr s en sp,
    trace (chunked_loop q fuel start to ms out)
    = tr ++ [mkQuery s en sp false] /\
    sp <= 200 /\ q s en = inl e.
Proof.
  induction fuel as [|fuel IH]; intros start to ms out e; [discriminate|].
  rewrite chunked_loop_S.
  destruct (start <=? to); [|discriminate].
  cbv zeta. set (en := Z.min (start + ms) to).
  destruct (q start en) as [x|logs] eqn:Hq; rewrite bind_tell;
    cbn [trace completion fst snd].
  - destruct (Z.leb_spec ms 200) as [Hfl|Hfl].
    + intros [= <-]. exists [], start, en, ms. now repeat split.
    + destruct (completion (chunked_loop q fuel start en (ms / 2) []))
        as [more| |] eqn:Hc.
      * rewrite (bind_returned _ _ Hc). cbn [trace completion fst snd].
        intros Hr. destruct (IH _ _ _ _ _ Hr) as (tr & s & e' & sp & Ht & H).
        exists (mkQuery start en ms false
                  :: trace (chunked_loop q fuel start en (ms / 2) [])
                  ++ tr), s, e', sp.
        split; [|exact H]. rewrite Ht. cbn [app].
        now rewrite app_assoc.
      * rewrite (bind_thrown _ _ Hc). cbn [fst snd]. intros [= <-].
        destruct (IH _ _ _ _ _ Hc) as (tr & s & e' & sp & Ht & H).
        exists (mkQuery start en ms false :: tr), s, e', sp.
        split; [|exact H]. now rewrite Ht.
      * rewrite (bind_out_of_fuel _ _ Hc). discriminate.
  - intros Hr. destruct (IH _ _ _ _ _ Hr) as (tr & s & e' & sp & Ht & H).
    exists (mkQuery start en ms true :: tr), s, e', sp.
    split; [|exact H]. now rewrite Ht.
Qed.

(** With a source that never fails the helper never throws. *)
Lemma chunked_loop_total_source fuel start to ms out :
  (forall s e, exists logs, q s e = inr logs) ->
  forall e, completion (chunked_loop q fuel start to ms out) <> Thrown e.
Proof.
  intros Hq e Hc.
  destruct (chunked_loop_thrown _ _ _ _ _ _ Hc) as (_ & s & en & _ & _ & _ & H).
  destruct (Hq s en) as (logs & Hl). congruence.
Qed.

(** An empty range is answered at once, without a query. *)
Lemma chunked_empty_range fuel from to ms :
  to < from -> chunkedQueryFilter q (S fuel) from to ms = ret [].
Proof.
  intros Hlt. unfold chunkedQueryFilter. rewrite chunked_loop_S.
  destruct (Z.leb_spec from to) as [|_]; [lia|reflexivity].
Qed.

End Thrown.

(** ** Every failed request *)

Section Failed.
Variable L : Type.
Variable q : Z -> Z -> JsError + list L.

(** What one failed request leads to, whatever was collected before
    it. *)
Lemma chunked_loop_failed_step fuel start to ms out e :
  start <= to -> q start (Z.min (start + ms) to) = inl e ->
  let en := Z.min (start + ms) to in
  let retry := chunkedQueryFilter q fuel start en (ms / 2) in
  (ms <= 200 ->
   chunked_loop q (S fuel) start to ms out
   = ([mkQuery start en ms false], Thrown e)) /\
  (200 < ms ->
   (forall more, completion retry = Returned more ->
      let next := chunked_loop q fuel (en + 1) to ms (out ++ more) in
      chunked_loop q (S fuel) start to ms out
      = (mkQuery start en ms false :: trace retry ++ trace next,
         completion next)) /\
   (forall e', completion retry = Thrown e' ->
      chunked_loop q (S fuel) start to ms out
      = (mkQuery start en ms false :: trace retry, Thrown e'))).
Proof.
  intros Hle Hq. cbv zeta. rewrite chunked_loop_S.
  destruct (Z.leb_spec start to) as [_|]; [|lia].
  cbv zeta. rewrite Hq, bind_tell.
  split; intros Hms.
  - destruct (Z.leb_spec ms 200) as [_|]; [reflexivity|lia].
  - destruct (Z.leb_spec ms 200) as [|_]; [lia|].
    unfold chunkedQueryFilter. split.
    + intros more Hc. rewrite (bind_returned _ _ Hc). reflexivity.
    + intros e' Hc. rewrite (bind_thrown _ _ Hc). reflexivity.
Qed.

(** What follows a failed request inside a part of a run follows it in
    the run. *)
Lemma retried_or_thrown_inside (r r' : Run (list L)) x post tail :
  retried_or_thrown q r' x post ->
  ((exists a, completion r' = Returned a) \/
   (tail = [] /\ completion r = completion r')) ->
  retried_or_thrown q r x (post ++ tail).
Proof.
  intros (e & Hq & Hretry & Hfloor) Hr.
  exists e. split; [exact Hq|]. split.
  - intros Hsp. destruct (Hretry Hsp) as (n & rest & Hpost & Hout).
    exists n, (rest ++ tail). cbv zeta in *. split.
    + now rewrite Hpost, app_assoc.
    + intros Ho. destruct (Hout Ho) as [-> Hc].
      destruct Hr as [(a & Ha)|[-> Hr]]; [congruence|].
      split; [reflexivity|congruence].
  - intros Hsp. destruct (Hfloor Hsp) as [-> Hc].
    destruct Hr as [(a & Ha)|[-> Hr]]; [congruence|].
    split; [reflexivity|congruence].
Qed.

(** Every failed request of a run, wherever it comes in the scan, is
    tried again at half the span or, at the floor, ends the run. *)
Lemma chunked_loop_failed fuel : forall start to ms out pre x post,
  trace (chunked_loop q fuel start to ms out) = pre ++ x :: post ->
  q_ok x = false ->
  retried_or_thrown q (chunked_loop q fuel start to ms out) x post.
Proof.
  induction fuel as [|fuel IH]; intros start to ms out pre x post.
  - cbn. intros H. now destruct pre.
  - rewrite chunked_loop_S.
    destruct (start <=? to); [|cbn; intros H; now destruct pre].
    cbv zeta. set (en := Z.min (start + ms) to).
    destruct (q start en) as [e|logs] eqn:Hq; rewrite bind_tell;
      cbn [trace fst].
    + destruct (Z.leb_spec ms 200) as [Hfl|Hfl].
      * cbn [throw fst snd]. intros H Hx.
        destruct pre as [|y pre]; cbn [app] in H.
        -- injection H as <- <-. exists e. cbn.
           split; [exact Hq|]. split; [lia|]. intros _. now split.
        -- injection H as _ H. now destruct pre.
      * set (retry := chunked_loop q fuel start en (ms / 2) []).
        destruct (completion retry) as [more| |] eqn:Hc.
        -- rewrite (bind_returned _ _ Hc). cbn [trace completion fst snd].
           set (next := chunked_loop q fuel (en + 1) to ms (out ++ more)).
           intros H Hx.
           destruct pre as [|y pre]; cbn [app] in H.
           ++ injection H as <- <-. exists e. cbn [q_start q_end q_span].
              split; [exact Hq|]. split; [|lia]. intros _.
              exists fuel, (trace next). cbv zeta.
              unfold chunkedQueryFilter. fold retry.
              split; [reflexivity|]. congruence.
           ++ injection H as _ H. apply app_eq_app in H.
              destruct H as (l & [[H1 H2]|[H1 H2]]).
              ** (* x is among the queries of [next] *)
                 destruct l as [|z l]; cbn [app] in H2.
                 --- (* boundary: x is the first query of next *)
                     rewrite app_nil_r in H1. 
                     assert (Hn : trace next = [] ++ x :: post)
                       by (now rewrite H2).
                     rewrite <- (app_nil_r post).
                     eapply retried_or_thrown_inside;
                       [exact (IH _ _ _ _ _ _ _ Hn Hx)|].
                     right. now split.
                 --- injection H2 as <- H2.
                     assert (Hn : trace retry = pre ++ x :: l)
                       by (now rewrite H1).
                     rewrite H2.
                     eapply retried_or_thrown_inside;
                       [exact (IH _ _ _ _ _ _ _ Hn Hx)|].
                     left. eauto.
              ** assert (Hn : trace next = l ++ x :: post)
                   by (now rewrite H2).
                 rewrite <- (app_nil_r post).
                 eapply retried_or_thrown_inside;
                   [exact (IH _ _ _ _ _ _ _ Hn Hx)|].
                 right. now split.
        -- rewrite (bind_thrown _ _ Hc). cbn [trace completion fst snd].
           intros H Hx.
           destruct pre as [|y pre]; cbn [app] in H.
           ++ injection H as <- <-. exists e. cbn [q_start q_end q_span].
              split; [exact Hq|]. split; [|lia]. intros _.
              exists fuel, []. cbv zeta.
              unfold chunkedQueryFilter. fold retry.
              split; [now rewrite app_nil_r|]. congruence.
           ++ injection H as _ H.
              rewrite <- (app_nil_r post).
              eapply retried_or_thrown_inside;
                [exact (IH _ _ _ _ _ _ _ H Hx)|].
              right. split; [reflexivity|]. cbn [completion snd].
              symmetry. exact Hc.
        -- rewrite (bind_out_of_fuel _ _ Hc). cbn [trace completion fst snd].
           intros H Hx.
           destruct pre as [|y pre]; cbn [app] in H.
           ++ injection H as <- <-. exists e. cbn [q_start q_end q_span].
              split; [exact Hq|]. split; [|lia]. intros _.
              exists fuel, []. cbv zeta.
              unfold chunkedQueryFilter. fold retry.
              split; [now rewrite app_nil_r|]. intros _. now split.
           ++ injection H as _ H.
              rewrite <- (app_nil_r post).
              eapply retried_or_thrown_inside;
                [exact (IH _ _ _ _ _ _ _ H Hx)|].
              right. split; [reflexivity|]. cbn [completion snd].
              symmetry. exact Hc.
    + intros H Hx.
      destruct pre as [|y pre]; cbn [app] in H.
      * injection H as <- _. discriminate Hx.
      * injection H as _ H.
        rewrite <- (app_nil_r post).
        eapply retried_or_thrown_inside;
          [exact (IH _ _ _ _ _ _ _ H Hx)|].
        right. now split.
Qed.

End Failed.

(** The helper does not look at the error it catches: over two sources
    that differ only in their errors it issues the same queries and ends
    the same way. *)
Lemma chunked_loop_same_up_to_errors L (q1 q2 : Z -> Z -> JsError + list L) :
  same_up_to_errors q1 q2 ->
  forall fuel start to ms out,
    trace (chunked_loop q1 fuel start to ms out)
    = trace (chunked_loop q2 fuel start to ms out) /\
    same_ending (completion (chunked_loop q1 fuel start to ms out))
                (completion (chunked_loop q2 fuel start to ms out)).
Proof.
  intros Hq. induction fuel as [|fuel IH]; intros start to ms out.
  - now split.
  - rewrite !chunked_loop_S.
    destruct (start <=? to); [|now split].
    cbv zeta. set (en := Z.min (start + ms) to).
    specialize (Hq start en).
    destruct (q1 start en) as [e1|l1], (q2 start en) as [e2|l2];
      try contradiction; rewrite !bind_tell; cbn [trace completion fst snd].
    + destruct (ms <=? 200); [now split|].
      destruct (IH start en (ms / 2) []) as [Ht Hc].
      destruct (completion (chunked_loop q1 fuel start en (ms / 2) []))
        as [m1| |] eqn:H1;
        destruct (completion (chunked_loop q2 fuel start en (ms / 2) []))
          as [m2| |] eqn:H2; try contradiction.
      * cbn in Hc. subst m2.
        rewrite (bind_returned _ _ H1), (bind_returned _ _ H2).
        cbn [fst snd]. destruct (IH (en + 1) to ms (out ++ m1)) as [Ht' Hc'].
        split; [now rewrite Ht, Ht'|exact Hc'].
      * rewrite (bind_thrown _ _ H1), (bind_thrown _ _ H2). cbn [fst snd].
        split; [now rewrite Ht|exact I].
      * rewrite (bind_out_of_fuel _ _ H1), (bind_out_of_fuel _ _ H2).
        cbn [fst snd]. split; [now rewrite Ht|exact I].
    + subst l2. destruct (IH (en + 1) to ms (out ++ l1)) as [Ht' Hc'].
      split; [now rewrite Ht'|exact Hc'].
Qed.

(** C1.  For integers [from <= to] and a positive [maxSpan], the helper
    ends, and when it returns (as it does whenever the source answers
    every query) the sub-ranges [(start, min(start+maxSpan, to))] queried
    by the outermost invocation cover [[from, to]] exactly, in ascending
    order without overlap, and none spans more than [maxSpan], the span
    of a sub-range being its end minus its start. *)
Theorem chunked_ranges_cover_exactly :
  forall (L : Type) (q : Z -> Z -> JsError + list L) (from to maxSpan : Z),
    from <= to -> 0 < maxSpan ->
    exists n, forall fuel, (n <= fuel)%nat ->
      let r := chunkedQueryFilter q fuel from to maxSpan in
      completion r <> OutOfFuel /\
      ((forall s e, exists logs, q s e = inr logs) ->
       exists out, completion r = Returned out) /\
      (forall out, completion r = Returned out ->
         let rs := top_ranges maxSpan (trace r) in
         covers_exactly from to rs /\
         ascending_disjoint rs /\
         spans_at_most maxSpan rs).
Proof.
  intros L q from to maxSpan Hle Hms.
  exists (enough from to maxSpan). intros fuel Hf r.
  assert (Hms' : 0 <= maxSpan) by lia.
  assert (Hend : completion r <> OutOfFuel)
    by (apply chunked_loop_terminates; assumption).
  split; [exact Hend|]. split.
  - intros Hq. destruct (completion r) as [out| |] eqn:Hc.
    + now exists out.
    + now elim (chunked_loop_total_source L q fuel from to maxSpan [] Hq e).
    + now elim Hend.
  - intros out Hc rs.
    assert (Hch : Chunks maxSpan to from rs)
      by (eapply chunked_loop_chunks; eauto).
    split; [|split].
    + eapply Chunks_cover; eauto.
    + eapply Chunks_ascending; eauto.
    + eapply Chunks_spans; eauto.
Qed.

Lemma chunked_ranges_cover_exactly_witness :
  0 <= 25 /\ 0 < 10 /\
  exists n, forall fuel, (n <= fuel)%nat ->
    let r := chunkedQueryFilter (fun _ _ => inr [tt]) fuel 0 25 10 in
    completion r <> OutOfFuel /\
    ((forall s e : Z, exists logs, @inr JsError _ [tt] = inr logs) ->
     exists out, completion r = Returned out) /\
    (forall out, completion r = Returned out ->
       let rs := top_ranges 10 (trace r) in
       covers_exactly 0 25 rs /\
       ascending_disjoint rs /\
       spans_at_most 10 rs).
Proof.
  split; [lia|]. split; [lia|].
  apply (chunked_ranges_cover_exactly unit (fun _ _ => inr [tt]) 0 25 10);
    lia.
Defined.

(** The range [[0, 25]] at span 10, over a node that answers and over
    one that rejects ranges wider than 4 blocks. *)
Example chunks_of_0_25 :
  top_ranges 10 (trace (chunkedQueryFilter (@quiet_node unit) 10 0 25 10))
  = [(0, 10); (11, 21); (22, 25)].
Proof. reflexivity. Qed.

Example rejected_at_the_floor :
  chunkedQueryFilter (ceiling_source 4 (fun b => [b])) 10 0 25 10
  = ([mkQuery 0 10 10 false],
     Thrown (mkError RangeTooLarge "query exceeds max block range")).
Proof. reflexivity. Qed.

(** ** A source with a ceiling on the range width *)

Lemma blocks_from_app s n1 : forall n2,
  blocks_from s (n1 + n2) =
  blocks_from s n1 ++ blocks_from (s + Z.of_nat n1) n2.
Proof.
  revert s. induction n1 as [|n1 IH]; intros s n2.
  - cbn. now rewrite Z.add_0_r.
  - cbn [Nat.add blocks_from app]. rewrite IH. do 3 f_equal. lia.
Qed.

Lemma blocks_split s e t :
  s <= e -> e <= t -> blocks s e ++ blocks (e + 1) t = blocks s t.
Proof.
  intros Hse Het. unfold blocks.
  replace (Z.to_nat (t - s + 1))
    with (Z.to_nat (e - s + 1) + Z.to_nat (t - (e + 1) + 1))%nat by lia.
  rewrite blocks_from_app. do 2 f_equal. lia.
Qed.

Lemma blocks_empty s e : e < s -> blocks s e = [].
Proof.
  intros H. unfold blocks.
  replace (Z.to_nat (e - s + 1)) with 0%nat by lia. reflexivity.
Qed.

Lemma logs_in_split L (logsAt : Z -> list L) s e t :
  s <= e -> e <= t ->
  logs_in logsAt s e ++ logs_in logsAt (e + 1) t = logs_in logsAt s t.
Proof.
  intros Hse Het. unfold logs_in.
  now rewrite <- flat_map_app, blocks_split.
Qed.

Lemma ceiling_source_rejects L W (logsAt : Z -> list L) :
  rejects_wider_than W logsAt (ceiling_source W logsAt).
Proof.
  intros s e. unfold ceiling_source.
  destruct (Z.ltb_spec W (e - s)); split; intros; try lia; eauto.
Qed.

Section Ceiling.
Variable L : Type.
Variable W : Z.
Variable logsAt : Z -> list L.
Variable q : Z -> Z -> JsError + list L.
Hypothesis q_ceiling : rejects_wider_than W logsAt q.
Hypothesis W_floor : 200 <= W.

(** When the ceiling of the source is not below the floor of the
    helper, halving reaches an accepted width before the floor: the
    loop returns the logs of the whole range, and stays inside it. *)
Lemma chunked_loop_ceiling fuel : forall start to ms out,
  0 <= ms -> (enough start to ms <= fuel)%nat ->
  completion (chunked_loop q fuel start to ms out)
  = Returned (out ++ logs_in logsAt start to) /\
  Forall (fun x => start <= q_start x /\ q_start x <= q_end x /\
                   q_end x <= to /\ (q_ok x = true -> width x <= W))
         (trace (chunked_loop q fuel start to ms out)).
Proof.
  unfold enough.
  induction fuel as [|fuel IH]; intros start to ms out Hms Hf; [lia|].
  rewrite chunked_loop_S.
  destruct (Z.leb_spec start to) as [Hle|Hgt].
  2:{ split; [|constructor]. unfold logs_in.
      now rewrite blocks_empty, app_nil_r by lia. }
  cbv zeta. set (e := Z.min (start + ms) to).
  assert (He : start <= e <= to) by (unfold e; lia).
  assert (Hw : e - start <= ms) by (unfold e; lia).
  assert (Hnext : forall o,
    completion (chunked_loop q fuel (e + 1) to ms o)
    = Returned (o ++ logs_in logsAt (e + 1) to) /\
    Forall (fun x => start <= q_start x /\ q_start x <= q_end x /\
                     q_end x <= to /\ (q_ok x = true -> width x <= W))
           (trace (chunked_loop q fuel (e + 1) to ms o))).
  { intros o. destruct (IH (e + 1) to ms o) as [Hc Ht]; [lia|lia|].
    split; [exact Hc|]. eapply Forall_impl; [|exact Ht].
    cbv beta. intros x. intuition lia. }
  destruct (q_ceiling start e) as [Hrej Hok].
  destruct (Z_le_gt_dec (e - start) W) as [Hfit|Hwide].
  - rewrite (Hok Hfit), bind_tell. cbn [trace completion fst snd].
    destruct (Hnext (out ++ logs_in logsAt start e)) as [Hc Ht].
    split.
    + rewrite Hc, <- app_assoc, logs_in_split; [reflexivity|lia|lia].
    + constructor; [|exact Ht]. unfold width. cbn. lia.
  - destruct Hrej as (x & Hx); [lia|].
    rewrite Hx, bind_tell. cbn [trace completion fst snd].
    destruct (Z.leb_spec ms 200) as [Hfl|Hfl]; [lia|].
    assert (Hhalf : 0 <= ms / 2 < ms)
      by (split; [apply Z.div_pos; lia | apply Z.div_lt; lia]).
    destruct (IH start e (ms / 2) []) as [Hc Ht]; [lia|lia|].
    cbn [app] in Hc. rewrite (bind_returned _ _ Hc).
    cbn [trace completion fst snd].
    destruct (Hnext (out ++ logs_in logsAt start e)) as [Hc' Ht'].
    split.
    + rewrite Hc', <- app_assoc, logs_in_split; [reflexivity|lia|lia].
    + constructor; [cbn; split; [lia|split; [lia|split; [lia|]]];
                    discriminate|].
      apply Forall_app. split; [|exact Ht'].
      eapply Forall_impl; [|exact Ht]. cbv beta. intros y. intuition lia.
Qed.

End Ceiling.

(** The helper at the ceiling 50, below the floor: the range [[0, 100]]
    is asked for at every span from 9500 down to 148 and then given up. *)
Lemma ceiling_below_floor_fails :
  rejects_wider_than 50 (fun b => [b])
    (ceiling_source 50 (fun b => [b])) /\
  50 < 9500 /\
  ~ (exists n, forall fuel, (n <= fuel)%nat ->
       completion
         (chunkedQueryFilter (ceiling_source 50 (fun b => [b])) fuel
            0 100 9500)
       = Returned (logs_in (fun b => [b]) 0 100)).
Proof.
  split; [apply ceiling_source_rejects|]. split; [lia|].
  intros (n & Hn).
  assert (H7 : completion
                 (chunkedQueryFilter (ceiling_source 50 (fun b => [b])) 7
                    0 100 9500)
               = Thrown (mkError RangeTooLarge
                           "query exceeds max block range"))
    by (vm_compute; reflexivity).
  specialize (Hn (Nat.max n 7) (Nat.le_max_l n 7)).
  unfold chunkedQueryFilter in *.
  rewrite (chunked_loop_fuel_le _ _ 7 (Nat.max n 7)) in Hn.
  - rewrite H7 in Hn. discriminate.
  - apply Nat.le_max_r.
  - rewrite H7. discriminate.
Qed.

(** C2, with the ceiling not below the floor.  For a source that rejects
    exactly the range queries wider than [W], with [200 <= W < maxSpan],
    the helper ends and returns all the logs of [[from, to]], and every
    query that succeeded has width at most [W].  For any source and any
    failed request of the loop, whatever was collected before it: at a
    span of 200 or less the failure is thrown at once, with no further
    query; at a span above 200 the helper runs itself on the failed range
    at half the span, and then either goes on after that range with the
    logs of that run added, or throws what that run threw.  The same
    holds of every failed request found anywhere among the queries of a
    run. *)
Theorem bisection_reaches_ceiling :
  forall (L : Type) (W : Z) (logsAt : Z -> list L)
         (q : Z -> Z -> JsError + list L) (from to maxSpan : Z),
    rejects_wider_than W logsAt q ->
    200 <= W -> W < maxSpan ->
    (exists n, forall fuel, (n <= fuel)%nat ->
       let r := chunkedQueryFilter q fuel from to maxSpan in
       completion r = Returned (logs_in logsAt from to) /\
       Forall (fun x => q_ok x = true -> width x <= W) (trace r)) /\
    (forall (q' : Z -> Z -> JsError + list L) fuel s t ms out e,
       s <= t -> q' s (Z.min (s + ms) t) = inl e ->
       let en := Z.min (s + ms) t in
       let retry := chunkedQueryFilter q' fuel s en (ms / 2) in
       (ms <= 200 ->
        chunked_loop q' (S fuel) s t ms out
        = ([mkQuery s en ms false], Thrown e)) /\
       (200 < ms ->
        (forall more, completion retry = Returned more ->
           let next := chunked_loop q' fuel (en + 1) t ms (out ++ more) in
           chunked_loop q' (S fuel) s t ms out
           = (mkQuery s en ms false :: trace retry ++ trace next,
              completion next)) /\
        (forall e', completion retry = Thrown e' ->
           chunked_loop q' (S fuel) s t ms out
           = (mkQuery s en ms false :: trace retry, Thrown e')))) /\
    (forall (q' : Z -> Z -> JsError + list L) fuel s t ms out pre x post,
       let r := chunked_loop q' fuel s t ms out in
       trace r = pre ++ x :: post -> q_ok x = false ->
       retried_or_thrown q' r x post).
Proof.
  intros L W logsAt q from to maxSpan Hq HW Hms. split; [|split].
  - exists (enough from to maxSpan). intros fuel Hf r.
    destruct (chunked_loop_ceiling L W logsAt q Hq HW fuel from to maxSpan [])
      as [Hc Ht]; [lia|exact Hf|].
    split; [exact Hc|].
    eapply Forall_impl; [|exact Ht]. cbv beta. tauto.
  - intros q' fuel s t ms out e Hst Hfail.
    exact (chunked_loop_failed_step L q' fuel s t ms out e Hst Hfail).
  - intros q' fuel s t ms out pre x post r Htr Hx.
    exact (chunked_loop_failed L q' fuel s t ms out pre x post Htr Hx).
Qed.

Lemma bisection_reaches_ceiling_witness :
  let logsAt := fun b : Z => [b] in
  let q := ceiling_source 300 logsAt in
  (exists n, forall fuel, (n <= fuel)%nat ->
     let r := chunkedQueryFilter q fuel 0 1000 9500 in
     completion r = Returned (logs_in logsAt 0 1000) /\
     Forall (fun x => q_ok x = true -> width x <= 300) (trace r)) /\
  (forall fuel out,
     chunked_loop (@broken_at Z 15000) (S fuel) 14995 15142 148 out
     = ([mkQuery 14995 15142 148 false],
        Thrown (mkError MalformedResponse "missing trie node"))) /\
  (forall pre x post,
     let r := chunkedQueryFilter (@broken_at Z 15000) 30 0 20000 9500 in
     trace r = pre ++ x :: post -> q_ok x = false ->
     retried_or_thrown (@broken_at Z 15000) r x post).
Proof.
  intros logsAt q.
  destruct (bisection_reaches_ceiling Z 300 logsAt q 0 1000 9500
              (ceiling_source_rejects Z 300 logsAt) ltac:(lia) ltac:(lia))
    as (H1 & H2 & H3).
  split; [exact H1|]. split.
  - intros fuel out.
    destruct (H2 (@broken_at Z 15000) fuel 14995 15142 148 out
                (mkError MalformedResponse "missing trie node")
                ltac:(lia) eq_refl) as [Hfloor _].
    apply Hfloor. lia.
  - intros pre x post. apply H3.
Defined.

(** A failure at the floor in the middle of a scan: the range that
    holds block 15000 is halved down to 148 blocks and then given up,
    after four ranges were answered. *)
Example floor_failure_in_mid_scan :
  chunkedQueryFilter (@broken_at Z 15000) 30 0 20000 9500
  = ([mkQuery 0 9500 9500 true; mkQuery 9501 19001 9500 false;
      mkQuery 9501 14251 4750 true; mkQuery 14252 19001 4750 false;
      mkQuery 14252 16627 2375 false; mkQuery 14252 15439 1187 false;
      mkQuery 14252 14845 593 true; mkQuery 14846 15439 593 false;
      mkQuery 14846 15142 296 false; mkQuery 14846 14994 148 true;
      mkQuery 14995 15142 148 false],
     Thrown (mkError MalformedResponse "missing trie node")).
Proof. reflexivity. Qed.

(** ** Rows: the account test and the fields *)

Lemma same_account_spec reported account :
  same_account (lowered reported) (toLowerCase account) = true <->
  same_account_ci reported account.
Proof.
  unfold same_account_ci. destruct reported as [s|]; cbn.
  - rewrite String.eqb_eq. split.
    + intros H. now exists s.
    + now intros (s' & [= <-] & H).
  - split; [discriminate|]. now intros (s' & [=] & _).
Qed.

(** The two loops append, in order, the rows of the logs they keep; as
    optional rows these are the images of the kept logs, one each. *)
Lemma push_paid_spec A logs : forall rows,
  map Some (push_paid A logs rows) =
  map Some rows ++ map paid_row_of (filter (keeps_paid A) logs).
Proof.
  induction logs as [|l logs IH]; intros rows; cbn [push_paid filter].
  - now rewrite app_nil_r.
  - unfold keeps_paid at 1.
    destruct (same_account (lowered (reported_paid l)) A) eqn:Hk;
      [|apply IH].
    unfold reported_paid in Hk.
    destruct (args l) as [a|] eqn:Ha; [|discriminate].
    rewrite IH, map_app, <- app_assoc. cbn [map app].
    unfold paid_row_of at 2. now rewrite Ha.
Qed.

Lemma push_rejected_spec A logs : forall rows,
  map Some (push_rejected A logs rows) =
  map Some rows ++ map rejected_row_of (filter (keeps_rejected A) logs).
Proof.
  induction logs as [|l logs IH]; intros rows; cbn [push_rejected filter].
  - now rewrite app_nil_r.
  - unfold keeps_rejected at 1.
    destruct (same_account (lowered (reported_rejected l)) A) eqn:Hk;
      [|apply IH].
    unfold reported_rejected in Hk.
    destruct (args l) as [a|] eqn:Ha; [|discriminate].
    rewrite IH, map_app, <- app_assoc. cbn [map app].
    unfold rejected_row_of at 2. now rewrite Ha.
Qed.

Lemma build_rows_spec A paidLogs rejLogs :
  map Some (build_rows A paidLogs rejLogs) =
  map paid_row_of (filter (keeps_paid A) paidLogs) ++
  map rejected_row_of (filter (keeps_rejected A) rejLogs).
Proof.
  unfold build_rows. now rewrite push_rejected_spec, push_paid_spec.
Qed.

Lemma push_paid_exclusive A logs : forall rows,
  Forall kind_exclusive rows ->
  Forall kind_exclusive (push_paid A logs rows).
Proof.
  induction logs as [|l logs IH]; intros rows Hr; cbn [push_paid];
    [exact Hr|].
  destruct (same_account _ A); [|now apply IH].
  destruct (args l) as [a|]; [|now apply IH].
  apply IH, Forall_app. split; [exact Hr|].
  constructor; [|constructor]. cbn. repeat split; discriminate.
Qed.

Lemma push_rejected_exclusive A logs : forall rows,
  Forall kind_exclusive rows ->
  Forall kind_exclusive (push_rejected A logs rows).
Proof.
  induction logs as [|l logs IH]; intros rows Hr; cbn [push_rejected];
    [exact Hr|].
  destruct (same_account _ A); [|now apply IH].
  destruct (args l) as [a|]; [|now apply IH].
  apply IH, Forall_app. split; [exact Hr|].
  constructor; [|constructor]. cbn. repeat split; discriminate.
Qed.

(** ** Sorting by block and reversing *)

Lemma insert_perm x l : Permutation (x :: l) (insert by_block x l).
Proof.
  induction l as [|y l IH]; cbn [insert]; [reflexivity|].
  destruct (by_block x y <=? 0); [reflexivity|].
  rewrite perm_swap. now constructor.
Qed.

Lemma sort_perm l : Permutation l (sort by_block l).
Proof.
  induction l as [|x l IH]; cbn [sort]; [constructor|].
  rewrite <- insert_perm. now constructor.
Qed.

Lemma insert_sorted x l :
  StronglySorted block_le l -> StronglySorted block_le (insert by_block x l).
Proof.
  induction 1 as [|y l Hs IH Hy]; cbn [insert].
  - repeat constructor.
  - unfold by_block at 1. destruct (Z.leb_spec (block x - block y) 0).
    + constructor; [now constructor|]. constructor; [unfold block_le; lia|].
      eapply Forall_impl; [|exact Hy]. unfold block_le. intros; lia.
    + constructor; [exact IH|].
      eapply Permutation_Forall; [apply insert_perm|].
      constructor; [unfold block_le; lia|exact Hy].
Qed.

Lemma sort_sorted l : StronglySorted block_le (sort by_block l).
Proof.
  induction l as [|x l IH]; cbn [sort]; [constructor|].
  now apply insert_sorted.
Qed.

(** Insertion puts the new row in front of the rows of its own block. *)
Lemma at_block_insert b x l :
  at_block b (insert by_block x l) = at_block b (x :: l).
Proof.
  unfold at_block. induction l as [|y l IH]; cbn [insert]; [reflexivity|].
  unfold by_block at 1. destruct (Z.leb_spec (block x - block y) 0);
    [reflexivity|].
  cbn [filter] in *. rewrite IH.
  destruct (Z.eqb_spec (block x) b), (Z.eqb_spec (block y) b);
    try reflexivity; lia.
Qed.

(** The sort is stable: rows of one block keep their order. *)
Lemma sort_stable b l : at_block b (sort by_block l) = at_block b l.
Proof.
  induction l as [|x l IH]; cbn [sort]; [reflexivity|].
  rewrite at_block_insert. unfold at_block in *. cbn [filter].
  now rewrite IH.
Qed.

Lemma sorted_snoc (R : Row -> Row -> Prop) l x :
  StronglySorted R l -> Forall (fun y => R y x) l ->
  StronglySorted R (l ++ [x]).
Proof.
  induction 1 as [|y l Hs IH Hy]; intros Hx; cbn [app].
  - repeat constructor.
  - inversion Hx as [|? ? Hyx Hlx]; subst.
    constructor; [now apply IH|].
    apply Forall_app. split; [exact Hy|now constructor].
Qed.

Lemma sorted_rev l :
  StronglySorted block_le l -> StronglySorted block_ge (rev l).
Proof.
  induction 1 as [|x l Hs IH Hx]; cbn [rev]; [constructor|].
  apply sorted_snoc; [exact IH|].
  apply Forall_rev. eapply Forall_impl; [|exact Hx].
  unfold block_le, block_ge. intros; lia.
Qed.

Lemma at_block_rev b l : at_block b (rev l) = rev (at_block b l).
Proof.
  unfold at_block. induction l as [|x l IH]; [reflexivity|].
  cbn [rev filter]. rewrite filter_app, IH. cbn [filter].
  destruct (block x =? b); [reflexivity|now rewrite app_nil_r].
Qed.

Lemma present_perm rows : Permutation rows (present rows).
Proof.
  unfold present. rewrite <- Permutation_rev. apply sort_perm.
Qed.

Lemma map_block_insert x l :
  map block (insert by_block x l) = insert by_number (block x) (map block l).
Proof.
  induction l as [|y l IH]; [reflexivity|].
  cbn [insert map]. unfold by_block at 1, by_number at 1.
  destruct (block x - block y <=? 0); cbn [map]; [reflexivity|].
  now rewrite IH.
Qed.

Lemma map_block_sort l :
  map block (sort by_block l) = sort by_number (map block l).
Proof.
  induction l as [|x l IH]; [reflexivity|].
  cbn [sort map]. now rewrite map_block_insert, IH.
Qed.

(** ** Numbers and their text *)

Lemma digit_is_no_space c : is_digit c = true -> is_space c = false.
Proof.
  unfold is_digit, is_space. intros H. apply andb_prop in H.
  destruct H as [H1 H2]. apply Nat.leb_le in H1, H2.
  destruct (Nat.eqb_spec (nat_of_ascii c) 32); [lia|].
  destruct (Nat.leb_spec (nat_of_ascii c) 13); [lia|].
  now rewrite andb_false_r.
Qed.

Lemma digit_in_ten c :
  is_digit c = true ->
  digit_in 10 c = Some (Z.of_nat (nat_of_ascii c) - 48).
Proof.
  unfold is_digit, digit_in. intros H. apply andb_prop in H.
  destruct H as [H1 H2]. apply Nat.leb_le in H1, H2. cbv zeta.
  destruct (Z.leb_spec 48 (Z.of_nat (nat_of_ascii c))); [|lia].
  destruct (Z.leb_spec (Z.of_nat (nat_of_ascii c)) 57); [|lia].
  cbn [andb].
  destruct (Z.ltb_spec (Z.of_nat (nat_of_ascii c) - 48) 10); [reflexivity|lia].
Qed.

(** Trimming leaves a first character that is not white space. *)
Lemma trimEnd_first c s :
  is_space c = false -> exists t, trimEnd (String c s) = String c t.
Proof.
  intros Hc. cbn [trimEnd]. rewrite Hc.
  destruct (trimEnd s); eauto.
Qed.

Lemma trimEnd_digits s : all_digits s = true -> trimEnd s = s.
Proof.
  induction s as [|c s IH]; [reflexivity|]. cbn [all_digits trimEnd].
  intros H. apply andb_prop in H. destruct H as [Hc Hs].
  rewrite (IH Hs), (digit_is_no_space _ Hc). now destruct s.
Qed.

(** A text of digits is read to its end. *)
Lemma read_digits_all s : all_digits s = true -> forall acc n,
  read_digits 10 s acc n
  = (fst (fst (read_digits 10 s acc 0)), (n + String.length s)%nat, "").
Proof.
  induction s as [|c s IH]; intros H acc n.
  - cbn. now rewrite Nat.add_0_r.
  - cbn [all_digits] in H. apply andb_prop in H. destruct H as [Hc Hs].
    cbn [read_digits String.length]. rewrite (digit_in_ten _ Hc).
    rewrite (IH Hs _ (S n)), (IH Hs _ 1%nat). cbn [fst].
    f_equal. f_equal. lia.
Qed.

Lemma read_digits_value s : all_digits s = true ->
  read_digits 10 s 0 0 = (digits_value s, String.length s, "").
Proof. intros H. now rewrite (read_digits_all s H). Qed.

Lemma decimal_literal_digits s :
  all_digits s = true -> s <> "" ->
  decimal_literal s = Some (digits_value s, 0).
Proof.
  intros H Hs. unfold decimal_literal. rewrite (read_digits_value s H).
  destruct s as [|c s]; [congruence|]. reflexivity.
Qed.

Lemma signed_literal_digits s :
  all_digits s = true -> s <> "" ->
  signed_literal s = Num (digits_value s) /\
  signed_literal (String "-" s) = Num (- digits_value s).
Proof.
  intros H Hs. unfold signed_literal. cbn [read_sign].
  assert (Hsign : read_sign s = (false, s)).
  { destruct s as [|c s]; [congruence|]. cbn [all_digits] in H.
    apply andb_prop in H. destruct H as [Hc _].
    destruct c as [[] [] [] [] [] [] [] []]; try discriminate Hc;
      reflexivity. }
  rewrite Hsign, (decimal_literal_digits s H Hs). cbn [Z.leb Z.compare].
  cbv zeta. change (10 ^ 0) with 1. now rewrite Z.mul_1_r.
Qed.

(** On a text of decimal digits [Number] gives the number denoted, and
    its opposite when a minus sign comes first. *)
Lemma Number_of_digits s :
  all_digits s = true -> s <> "" ->
  Number_of_string s = Num (digits_value s) /\
  Number_of_string (String "-" s) = Num (- digits_value s).
Proof.
  intros H Hs. destruct (signed_literal_digits s H Hs) as [Hpos Hneg].
  unfold Number_of_string. split.
  - rewrite (trimEnd_digits s H).
    destruct s as [|c s]; [congruence|].
    pose proof H as H'. cbn [all_digits] in H'. apply andb_prop in H'.
    destruct H' as [Hc Hs'].
    cbn [trimStart]. rewrite (digit_is_no_space _ Hc).
    destruct s as [|c' s]; [now destruct c as [[] [] [] [] [] [] [] []]|].
    cbn [all_digits] in Hs'. apply andb_prop in Hs'. destruct Hs' as [Hc' _].
    assert (Hx : (Ascii.eqb c' "x" || Ascii.eqb c' "X") = false /\
                 (Ascii.eqb c' "o" || Ascii.eqb c' "O") = false /\
                 (Ascii.eqb c' "b" || Ascii.eqb c' "B") = false)
      by (destruct c' as [[] [] [] [] [] [] [] []]; try discriminate Hc';
          repeat split; reflexivity).
    destruct Hx as (-> & -> & ->).
    now destruct c as [[] [] [] [] [] [] [] []].
  - assert (Ht : trimEnd (String "-" s) = String "-" s).
    { cbn [trimEnd]. rewrite (trimEnd_digits s H).
      destruct s; [congruence|reflexivity]. }
    rewrite Ht. cbn [trimStart]. exact Hneg.
Qed.

Ltac digit_step :=
  match goal with
  | |- context [digit_in 10 ?c] =>
      let v := eval vm_compute in (digit_in 10 c) in
      change (digit_in 10 c) with v
  end.

(** The digits that [String] writes are read back to the number. *)
Lemma read_uint_acc d : forall a n,
  read_digits 10 (NilEmpty.string_of_uint d) (Z.pos a) n
  = (Z.pos (Pos.of_uint_acc d a), (n + Decimal.nb_digits d)%nat, "").
Proof.
  induction d; intros a n;
    cbn [NilEmpty.string_of_uint read_digits Decimal.nb_digits
         Pos.of_uint_acc];
    try (now rewrite Nat.add_0_r);
    digit_step; cbn [Z.mul Z.add];
    match goal with
    | |- context [read_digits 10 _ (Z.pos ?p) _] => rewrite (IHd p)
    end;
    (apply f_equal2;
     [apply f_equal2; [do 2 f_equal; lia|lia]|reflexivity]).
Qed.

Lemma read_uint d : forall n,
  read_digits 10 (NilEmpty.string_of_uint d) 0 n
  = (Z.of_N (Pos.of_uint d), (n + Decimal.nb_digits d)%nat, "").
Proof.
  induction d; intros n;
    cbn [NilEmpty.string_of_uint read_digits Decimal.nb_digits Pos.of_uint];
    try (now rewrite Nat.add_0_r);
    digit_step; cbn [Z.mul Z.add];
    first [rewrite IHd | rewrite read_uint_acc; cbn [Z.of_N]];
    (apply f_equal2; [apply f_equal2; [reflexivity|lia]|reflexivity]).
Qed.

Lemma digits_value_uint d :
  digits_value (NilEmpty.string_of_uint d) = Z.of_uint d.
Proof. unfold digits_value. now rewrite read_uint. Qed.

Lemma string_of_uint_digits d :
  all_digits (NilEmpty.string_of_uint d) = true.
Proof. induction d; cbn; try reflexivity; exact IHd. Qed.

Lemma String_of_Z_pos p :
  String_of_Z (Z.pos p) = NilEmpty.string_of_uint (Pos.to_uint p).
Proof.
  unfold String_of_Z. cbn [Z.to_int NilZero.string_of_int].
  unfold NilZero.string_of_uint.
  pose proof (DecimalPos.Unsigned.to_uint_nonnil p) as H.
  now destruct (Pos.to_uint p).
Qed.

Lemma digits_value_String_of_Z z :
  0 <= z -> digits_value (String_of_Z z) = z.
Proof.
  destruct z as [|p|p]; intros Hz; [reflexivity| |lia].
  rewrite String_of_Z_pos, digits_value_uint.
  change (Z.of_uint (Pos.to_uint p)) with (Z.of_int (Z.to_int (Z.pos p))).
  apply DecimalZ.of_to.
Qed.

(** Reading back the text of an integer gives the integer. *)
Lemma Number_of_String_of_Z z : Number_of_string (String_of_Z z) = Num z.
Proof.
  assert (Hne : forall p, String_of_Z (Z.pos p) <> "").
  { intros p. rewrite String_of_Z_pos.
    pose proof (DecimalPos.Unsigned.to_uint_nonnil p).
    destruct (Pos.to_uint p); cbn; congruence. }
  assert (Hd : forall p, all_digits (String_of_Z (Z.pos p)) = true)
    by (intros p; rewrite String_of_Z_pos; apply string_of_uint_digits).
  destruct z as [|p|p]; [reflexivity| |].
  - destruct (Number_of_digits _ (Hd p) (Hne p)) as [H _].
    rewrite H. f_equal. apply digits_value_String_of_Z. lia.
  - change (String_of_Z (Z.neg p))
      with (String "-" (String_of_Z (Z.pos p))).
    destruct (Number_of_digits _ (Hd p) (Hne p)) as [_ H].
    rewrite H. f_equal. rewrite digits_value_String_of_Z; lia.
Qed.

(** Zeros in front of a text of digits do not change the number. *)
Lemma Number_zero_prefix s :
  all_digits s = true -> s <> "" ->
  Number_of_string (String "0" s) = Number_of_string s.
Proof.
  intros H Hs.
  destruct (Number_of_digits s H Hs) as [-> _].
  destruct (Number_of_digits (String "0" s)) as [-> _];
    [exact H|discriminate|].
  f_equal. unfold digits_value. cbn [read_digits].
  change (digit_in 10 "0") with (Some 0). cbn [Z.mul Z.add].
  now rewrite (read_digits_all s H 0 1), (read_digits_all s H 0 0).
Qed.

(** A text that begins with a letter other than [I] is not a number. *)
Lemma Number_of_word c rest :
  starts_no_number c = true -> Number_of_string (String c rest) = NaN.
Proof.
  intros Hc.
  assert (Hsp : is_space c = false)
    by (destruct c as [[] [] [] [] [] [] [] []]; try discriminate Hc;
        reflexivity).
  destruct (trimEnd_first c rest Hsp) as (t & Ht).
  unfold Number_of_string. rewrite Ht. cbn [trimStart]. rewrite Hsp.
  destruct c as [[] [] [] [] [] [] [] []]; try discriminate Hc;
    reflexivity.
Qed.

Example Number_examples :
  Number_of_string "1001" = Num 1001 /\ Number_of_string "0" = Num 0 /\
  Number_of_string "" = Num 0 /\ Number_of_string "-7" = Num (-7) /\
  Number_of_string "+7" = Num 7 /\ Number_of_string "latest" = NaN.
Proof. repeat split; reflexivity. Qed.

Example Number_notations :
  map Number_of_string
    [" 5000"; "1e3"; "2e3"; "0x10"; "0XfF"; "0o17"; "0b101"; " "; "12.0";
     "1.5e1"; "100e-2"; "00012"; "5."; "-0"]
  = map Num [5000; 1000; 2000; 16; 255; 15; 5; 0; 12; 15; 1; 12; 5; 0] /\
  map Number_of_string
    ["0x"; "0b2"; "-0x10"; "."; "1e"; "1 2"; "e5"; "1_000"; "--5"; "0x1G"]
  = map (fun _ => NaN) (seq 0 10).
Proof. split; reflexivity. Qed.

Example toLowerCase_example : toLowerCase alice = alice_lower.
Proof. reflexivity. Qed.

Lemma saved_cursor_some s : saved_cursor (Some s) = Number_of_string s.
Proof. now destruct s. Qed.

Lemma saved_cursor_written z : saved_cursor (Some (String_of_Z z)) = Num z.
Proof. now rewrite saved_cursor_some, Number_of_String_of_Z. Qed.

(** ** [load] *)

Section LoadFacts.
Variable LOOKBACK : Z.

(** [load] with a binding that has both filters and a head block. *)
Lemma load_run fuel engine provider to st :
  has_ClaimPaid engine = true -> has_ClaimRejected engine = true ->
  load LOOKBACK fuel (Some engine) provider (Some (inr to)) st =
  let p := paid_run LOOKBACK fuel engine provider to st in
  let r := rejected_run LOOKBACK fuel engine provider to st in
  match completion p, completion r with
  | Thrown e, _ =>
      mkLoadResult (after_failure st e) (Failed (message_of e))
        (trace p) (trace r)
  | _, Thrown e =>
      mkLoadResult (after_failure st e) (Failed (message_of e))
        (trace p) (trace r)
  | Returned paidLogs, Returned rejLogs =>
      let rows := present (build_rows (toLowerCase provider) paidLogs
                             rejLogs) in
      mkLoadResult
        (mkState rows (fromBlock st) false "" (Some (String_of_Z (to + 1))))
        (Loaded rows) (trace p) (trace r)
  | _, _ =>
      mkLoadResult
        (mkState (items st) (fromBlock st) true "" (claims_fromBlock st))
        Diverged (trace p) (trace r)
  end.
Proof. intros Hp Hr. unfold load. now rewrite Hp, Hr. Qed.

(** What a call that loaded rows went through. *)
Lemma load_loaded fuel engineR provider readProvider st rows :
  outcome (load LOOKBACK fuel engineR provider readProvider st)
  = Loaded rows ->
  exists engine to paidLogs rejLogs,
    engineR = Some engine /\ readProvider = Some (inr to) /\
    has_ClaimPaid engine = true /\ has_ClaimRejected engine = true /\
    completion (paid_run LOOKBACK fuel engine provider to st)
    = Returned paidLogs /\
    completion (rejected_run LOOKBACK fuel engine provider to st)
    = Returned rejLogs /\
    rows = present (build_rows (toLowerCase provider) paidLogs rejLogs) /\
    final (load LOOKBACK fuel engineR provider readProvider st)
    = mkState rows (fromBlock st) false "" (Some (String_of_Z (to + 1))).
Proof.
  destruct engineR as [engine|]; [|discriminate].
  destruct readProvider as [[e|to]|]; [discriminate| |discriminate].
  destruct (has_ClaimPaid engine) eqn:Hp;
    [|unfold load; rewrite Hp; discriminate].
  destruct (has_ClaimRejected engine) eqn:Hr;
    [|unfold load; rewrite Hp, Hr; discriminate].
  rewrite (load_run _ _ _ _ _ Hp Hr). cbv zeta.
  destruct (completion (paid_run LOOKBACK fuel engine provider to st))
    as [paidLogs|e|] eqn:Hcp;
    destruct (completion (rejected_run LOOKBACK fuel engine provider to st))
      as [rejLogs|e'|] eqn:Hcr; try discriminate.
  cbn [outcome final]. intros [= <-].
  exists engine, to, paidLogs, rejLogs. now repeat split.
Qed.

(** A call that did not load rows left the rows and the cursor alone. *)
Lemma load_not_loaded fuel engineR provider readProvider st :
  succeeded (outcome (load LOOKBACK fuel engineR provider readProvider st))
  = false ->
  claims_fromBlock (final (load LOOKBACK fuel engineR provider readProvider st))
  = claims_fromBlock st /\
  items (final (load LOOKBACK fuel engineR provider readProvider st))
  = items st.
Proof.
  destruct engineR as [engine|]; [|now split].
  destruct readProvider as [[e|to]|]; [now split| |now split].
  destruct (has_ClaimPaid engine) eqn:Hp;
    [|unfold load; rewrite Hp; now split].
  destruct (has_ClaimRejected engine) eqn:Hr;
    [|unfold load; rewrite Hp, Hr; now split].
  rewrite (load_run _ _ _ _ _ Hp Hr). cbv zeta.
  destruct (completion (paid_run LOOKBACK fuel engine provider to st));
    destruct (completion (rejected_run LOOKBACK fuel engine provider to st));
    cbn; intros; (discriminate || now split).
Qed.

End LoadFacts.

(** C5.  A call of [load] that does not run to the end of its [try]
    block, in particular one that ends in a failure, leaves the stored
    cursor exactly as it was before the call. *)
Theorem cursor_written_only_on_success :
  forall LOOKBACK fuel engineR provider readProvider st,
    let res := load LOOKBACK fuel engineR provider readProvider st in
    succeeded (outcome res) = false ->
    claims_fromBlock (final res) = claims_fromBlock st.
Proof.
  intros LOOKBACK fuel engineR provider readProvider st res H.
  now apply load_not_loaded.
Qed.

Lemma cursor_written_only_on_success_witness :
  let st := mkState [] "" false "" (Some "4242") in
  let res := load 9000 20 (Some (engine_of (@dead_node _) (@dead_node _)))
               "0xAbC" (Some (inr 10000)) st in
  outcome res = Failed "network error" /\
  claims_fromBlock (final res) = Some "4242".
Proof.
  intros st res. split; [reflexivity|].
  apply (cursor_written_only_on_success 9000 20
           (Some (engine_of (@dead_node _) (@dead_node _)))
           "0xAbC" (Some (inr 10000)) st).
  reflexivity.
Defined.

(** What [load] shows is what [present] makes of the rows built. *)
Lemma load_presents LOOKBACK fuel engineR provider readProvider st rows :
  outcome (load LOOKBACK fuel engineR provider readProvider st)
  = Loaded rows ->
  items (final (load LOOKBACK fuel engineR provider readProvider st)) = rows /\
  StronglySorted block_ge rows.
Proof.
  intros H.
  destruct (load_loaded _ _ _ _ _ _ _ H)
    as (engine & to & paidLogs & rejLogs & _ & _ & _ & _ & _ & _ & -> & ->).
  split; [reflexivity|]. apply sorted_rev, sort_sorted.
Qed.

(** C7.  The rows a call of [load] shows are the rows built from the
    retrieved logs, sorted by block in ascending order by a stable sort
    and then reversed: a rearrangement of the rows retrieved, in
    descending order of block; read from the last to the first they are
    in ascending order with the rows of one block in retrieval order, so
    that the rows of one block are shown in the opposite order.  Rows
    retrieved at blocks 5, 2, 9, 2 are shown at blocks 9, 5, 2, 2. *)
Theorem presented_descending_by_block :
  forall LOOKBACK fuel engineR provider readProvider st rows,
    outcome (load LOOKBACK fuel engineR provider readProvider st)
    = Loaded rows ->
    exists engine to paidLogs rejLogs,
      engineR = Some engine /\ readProvider = Some (inr to) /\
      completion (paid_run LOOKBACK fuel engine provider to st)
      = Returned paidLogs /\
      completion (rejected_run LOOKBACK fuel engine provider to st)
      = Returned rejLogs /\
      let retrieved := build_rows (toLowerCase provider) paidLogs rejLogs in
      items (final (load LOOKBACK fuel engineR provider readProvider st))
      = rows /\
      rows = rev (sort by_block retrieved) /\
      Permutation retrieved rows /\
      StronglySorted block_ge rows /\
      StronglySorted block_le (rev rows) /\
      (forall b, at_block b (rev rows) = at_block b retrieved) /\
      (forall b, at_block b rows = rev (at_block b retrieved)) /\
      map block rows = rev (sort by_number (map block retrieved)) /\
      (map block retrieved = [5; 2; 9; 2] -> map block rows = [9; 5; 2; 2]).
Proof.
  intros LOOKBACK fuel engineR provider readProvider st rows H.
  destruct (load_loaded _ _ _ _ _ _ _ H)
    as (engine & to & paidLogs & rejLogs & He & Hh & _ & _ & Hp & Hr & Hrows
        & Hfinal).
  exists engine, to, paidLogs, rejLogs.
  repeat (split; [assumption|]). cbv zeta.
  set (retrieved := build_rows (toLowerCase provider) paidLogs rejLogs) in *.
  assert (Hpresent : rows = rev (sort by_block retrieved)) by exact Hrows.
  assert (Hblocks : map block rows = rev (sort by_number (map block retrieved)))
    by (now rewrite Hpresent, map_rev, map_block_sort).
  split; [now rewrite Hfinal|]. split; [exact Hpresent|].
  split; [rewrite Hrows; apply present_perm|].
  split; [rewrite Hpresent; apply sorted_rev, sort_sorted|].
  split; [rewrite Hpresent, rev_involutive; apply sort_sorted|].
  split; [intros b; rewrite Hpresent, rev_involutive; apply sort_stable|].
  split; [intros b; now rewrite Hpresent, at_block_rev, sort_stable|].
  split; [exact Hblocks|].
  intros H5. rewrite Hblocks, H5. reflexivity.
Qed.

Lemma presented_descending_by_block_witness :
  let res := load 9000 20 (Some tie_engine) alice (Some (inr 10)) fresh in
  let retrieved := build_rows (toLowerCase alice) tie_paid tie_rejected in
  map block retrieved = [5; 2; 9; 2] /\
  map kind retrieved = [paid; paid; paid; rejected] /\
  exists rows,
    outcome res = Loaded rows /\ items (final res) = rows /\
    map block rows = [9; 5; 2; 2] /\
    map kind rows = [paid; paid; rejected; paid] /\
    StronglySorted block_ge rows /\
    Permutation retrieved rows.
Proof.
  intros res retrieved. split; [reflexivity|]. split; [reflexivity|].
  exists (present retrieved).
  destruct (presented_descending_by_block 9000 20 (Some tie_engine) alice
              (Some (inr 10)) fresh (present retrieved) eq_refl)
    as (engine & to & paidLogs & rejLogs & He & Hto & Hp & Hr & Hitems & _
        & _ & Hsorted & _).
  split; [reflexivity|]. split; [exact Hitems|].
  split; [reflexivity|]. split; [reflexivity|].
  split; [exact Hsorted|]. apply present_perm.
Defined.

(** C8.  The rows a call of [load] for [provider] shows are exactly the
    rows of those retrieved logs, paid and rejected, whose reported
    account is [provider] up to the case of letters, one row per such
    log; the test is made on every retrieved log, whatever the node did
    with the account given in the filter. *)
Theorem rows_are_those_of_the_account :
  forall LOOKBACK fuel engineR provider readProvider st rows,
    outcome (load LOOKBACK fuel engineR provider readProvider st)
    = Loaded rows ->
    exists engine to paidLogs rejLogs,
      engineR = Some engine /\ readProvider = Some (inr to) /\
      completion (paid_run LOOKBACK fuel engine provider to st)
      = Returned paidLogs /\
      completion (rejected_run LOOKBACK fuel engine provider to st)
      = Returned rejLogs /\
      Permutation
        (map Some rows)
        (map paid_row_of
             (filter (keeps_paid (toLowerCase provider)) paidLogs) ++
         map rejected_row_of
             (filter (keeps_rejected (toLowerCase provider)) rejLogs)) /\
      (forall l, keeps_paid (toLowerCase provider) l = true <->
                 same_account_ci (reported_paid l) provider) /\
      (forall l, keeps_rejected (toLowerCase provider) l = true <->
                 same_account_ci (reported_rejected l) provider).
Proof.
  intros LOOKBACK fuel engineR provider readProvider st rows H.
  destruct (load_loaded _ _ _ _ _ _ _ H)
    as (engine & to & paidLogs & rejLogs & He & Hh & _ & _ & Hp & Hr & -> & _).
  exists engine, to, paidLogs, rejLogs.
  repeat (split; [assumption|]).
  split; [|split].
  - rewrite <- build_rows_spec. apply Permutation_map.
    symmetry. apply present_perm.
  - intros l. apply same_account_spec.
  - intros l. apply same_account_spec.
Qed.

Lemma rows_are_those_of_the_account_witness :
  let res := load 9000 20 (Some sample_engine) alice (Some (inr 1000))
               fresh in
  let rows := present (build_rows (toLowerCase alice) sample_paid
                         sample_rejected) in
  outcome res = Loaded rows /\
  map tx rows = ["0xa2"; "0xa1"; "0xa3"] /\
  exists engine to paidLogs rejLogs,
    Some sample_engine = Some engine /\
    Some (@inr JsError Z 1000) = Some (inr to) /\
    completion (paid_run 9000 20 engine alice to fresh)
    = Returned paidLogs /\
    completion (rejected_run 9000 20 engine alice to fresh)
    = Returned rejLogs /\
    Permutation
      (map Some rows)
      (map paid_row_of
           (filter (keeps_paid (toLowerCase alice)) paidLogs) ++
       map rejected_row_of
           (filter (keeps_rejected (toLowerCase alice)) rejLogs)) /\
    (forall l, keeps_paid (toLowerCase alice) l = true <->
               same_account_ci (reported_paid l) alice) /\
    (forall l, keeps_rejected (toLowerCase alice) l = true <->
               same_account_ci (reported_rejected l) alice).
Proof.
  intros res rows. split; [reflexivity|]. split; [reflexivity|].
  apply (rows_are_those_of_the_account 9000 20 (Some sample_engine) alice
           (Some (inr 1000)) fresh rows).
  reflexivity.
Defined.

(** C9.  Every row a call of [load] shows agrees with its kind: a paid
    row has an amount and a visit index and no reason, a rejected row has
    a reason and neither amount nor visit index. *)
Theorem rows_kind_exclusive :
  forall LOOKBACK fuel engineR provider readProvider st rows,
    outcome (load LOOKBACK fuel engineR provider readProvider st)
    = Loaded rows ->
    Forall kind_exclusive rows /\
    items (final (load LOOKBACK fuel engineR provider readProvider st))
    = rows.
Proof.
  intros LOOKBACK fuel engineR provider readProvider st rows H.
  split; [|now apply load_presents].
  destruct (load_loaded _ _ _ _ _ _ _ H)
    as (engine & to & paidLogs & rejLogs & _ & _ & _ & _ & _ & _ & -> & _).
  eapply Permutation_Forall; [apply present_perm|].
  unfold build_rows.
  apply push_rejected_exclusive, push_paid_exclusive. constructor.
Qed.

Lemma rows_kind_exclusive_witness :
  let res := load 9000 20 (Some sample_engine) alice (Some (inr 1000))
               fresh in
  let rows := present (build_rows (toLowerCase alice) sample_paid
                         sample_rejected) in
  outcome res = Loaded rows /\
  map kind rows = [paid; paid; rejected] /\
  Forall kind_exclusive rows /\ items (final res) = rows.
Proof.
  intros res rows. split; [reflexivity|]. split; [reflexivity|].
  apply (rows_kind_exclusive 9000 20 (Some sample_engine) alice
           (Some (inr 1000)) fresh rows).
  reflexivity.
Defined.

(** ** The range a call of [load] scans *)

(** A range no wider than the span is fetched by one query. *)
Lemma chunked_single L (q : Z -> Z -> JsError + list L) n from to ms logs :
  from <= to -> to <= from + ms -> q from to = inr logs ->
  chunkedQueryFilter q (S (S n)) from to ms
  = ([mkQuery from to ms true], Returned logs).
Proof.
  intros Hle Hms Hq. unfold chunkedQueryFilter.
  rewrite chunked_loop_S.
  destruct (Z.leb_spec from to) as [_|]; [|lia].
  cbv zeta. replace (Z.min (from + ms) to) with to by lia.
  rewrite Hq, bind_tell, chunked_loop_S.
  destruct (Z.leb_spec (to + 1) to) as [|_]; [lia|]. reflexivity.
Qed.

Lemma load_queries LOOKBACK fuel engine provider to st :
  has_ClaimPaid engine = true -> has_ClaimRejected engine = true ->
  paid_queries (load LOOKBACK fuel (Some engine) provider (Some (inr to)) st)
  = trace (paid_run LOOKBACK fuel engine provider to st) /\
  rejected_queries
    (load LOOKBACK fuel (Some engine) provider (Some (inr to)) st)
  = trace (rejected_run LOOKBACK fuel engine provider to st).
Proof.
  intros Hp Hr. rewrite (load_run _ _ _ _ _ _ Hp Hr). cbv zeta.
  destruct (completion (paid_run LOOKBACK fuel engine provider to st));
    destruct (completion (rejected_run LOOKBACK fuel engine provider to st));
    now split.
Qed.

Lemma load_succeeded LOOKBACK fuel engineR provider readProvider st :
  succeeded (outcome (load LOOKBACK fuel engineR provider readProvider st))
  = true ->
  exists rows,
    outcome (load LOOKBACK fuel engineR provider readProvider st)
    = Loaded rows.
Proof.
  destruct (outcome _) as [|rows| |]; try discriminate. now exists rows.
Qed.

(** With enough fuel a call of [load] does not run out of it. *)
Lemma load_ends LOOKBACK engineR provider readProvider st :
  exists n, forall fuel, (n <= fuel)%nat ->
    outcome (load LOOKBACK fuel engineR provider readProvider st)
    <> Diverged.
Proof.
  destruct engineR as [engine|]; [|exists 0%nat; discriminate].
  destruct readProvider as [[e|to]|];
    [exists 0%nat; discriminate| |exists 0%nat; discriminate].
  destruct (has_ClaimPaid engine) eqn:Hp;
    [|exists 0%nat; intros; unfold load; rewrite Hp; discriminate].
  destruct (has_ClaimRejected engine) eqn:Hr;
    [|exists 0%nat; intros; unfold load; rewrite Hp, Hr; discriminate].
  exists (match lower_bound LOOKBACK st to with
          | Num f => enough f to 9500
          | NaN => 0%nat
          end).
  intros fuel Hfuel. rewrite (load_run _ _ _ _ _ _ Hp Hr). cbv zeta.
  assert (Hpt : completion (paid_run LOOKBACK fuel engine provider to st)
                <> OutOfFuel).
  { unfold paid_run. destruct (lower_bound LOOKBACK st to);
      [apply chunked_loop_terminates; [lia|exact Hfuel]|discriminate]. }
  assert (Hrt : completion (rejected_run LOOKBACK fuel engine provider to st)
                <> OutOfFuel).
  { unfold rejected_run. destruct (lower_bound LOOKBACK st to);
      [apply chunked_loop_terminates; [lia|exact Hfuel]|discriminate]. }
  destruct (completion (paid_run LOOKBACK fuel engine provider to st));
    destruct (completion (rejected_run LOOKBACK fuel engine provider to st));
    try discriminate; contradiction.
Qed.

(** C3.  With both filters at hand and the head at [to], a call of
    [load] runs the helper, for each filter, over the range from the
    lower bound to [to], where the lower bound is the manual field when
    it is not empty, else the stored cursor when there is one (other than
    zero), else [max (to - LOOKBACK) 0]; a call that succeeds stores
    [to + 1].  With the head at 1000, nothing stored, nothing typed and a
    look-back of 200, the range asked for is [[800, 1000]] and the cursor
    stored on success is 1001. *)
Theorem lower_bound_by_precedence :
  forall LOOKBACK fuel engine provider to st,
    has_ClaimPaid engine = true -> has_ClaimRejected engine = true ->
    let res := load LOOKBACK fuel (Some engine) provider (Some (inr to)) st in
    let from := lower_bound LOOKBACK st to in
    paid_queries res
    = trace (chunkedQueryFilterN (queryPaid engine provider) fuel
               from to 9500) /\
    rejected_queries res
    = trace (chunkedQueryFilterN (queryRejected engine provider) fuel
               from to 9500) /\
    (fromBlock st <> "" -> from = Number_of_string (fromBlock st)) /\
    (fromBlock st = "" ->
     forall s c, claims_fromBlock st = Some s ->
                 Number_of_string s = Num c -> c <> 0 -> from = Num c) /\
    (fromBlock st = "" -> claims_fromBlock st = None ->
     from = Num (Z.max (to - LOOKBACK) 0)) /\
    (succeeded (outcome res) = true ->
     claims_fromBlock (final res) = Some (String_of_Z (to + 1))) /\
    (LOOKBACK = 200 -> to = 1000 ->
     fromBlock st = "" -> claims_fromBlock st = None ->
     (exists logs, queryPaid engine provider 800 1000 = inr logs) ->
     (exists logs, queryRejected engine provider 800 1000 = inr logs) ->
     (2 <= fuel)%nat ->
     paid_queries res = [mkQuery 800 1000 9500 true] /\
     rejected_queries res = [mkQuery 800 1000 9500 true] /\
     succeeded (outcome res) = true /\
     claims_fromBlock (final res) = Some "1001").
Proof.
  intros LOOKBACK fuel engine provider to st Hp Hr res from.
  destruct (load_queries LOOKBACK fuel engine provider to st Hp Hr)
    as [Hqp Hqr].
  split; [exact Hqp|]. split; [exact Hqr|].
  unfold from, lower_bound, baseFrom.
  split; [|split; [|split; [|split]]].
  - destruct (fromBlock st); [congruence|reflexivity].
  - intros -> s c -> Hs Hc. rewrite saved_cursor_some, Hs. cbn.
    destruct (Z.eqb_spec c 0); [contradiction|reflexivity].
  - intros -> ->. reflexivity.
  - intros Hs. destruct (load_succeeded _ _ _ _ _ _ Hs) as (rows & Hrows).
    destruct (load_loaded _ _ _ _ _ _ _ Hrows)
      as (engine' & to' & _ & _ & _ & [= <-] & _ & _ & _ & _ & _ & Hf).
    fold res in Hf. now rewrite Hf.
  - intros HL Hto Hfb Hcur (pl & Hpl) (rl & Hrl) Hfuel.
    destruct fuel as [|[|n]]; [lia|lia|].
    assert (Hfrom : lower_bound LOOKBACK st to = Num 800)
      by (unfold lower_bound, baseFrom; rewrite Hfb, Hcur, HL, Hto;
          reflexivity).
    assert (Hprun : paid_run LOOKBACK (S (S n)) engine provider to st
                    = ([mkQuery 800 1000 9500 true], Returned pl)).
    { unfold paid_run. rewrite Hfrom, Hto. cbn [chunkedQueryFilterN].
      apply chunked_single; [lia|lia|exact Hpl]. }
    assert (Hrrun : rejected_run LOOKBACK (S (S n)) engine provider to st
                    = ([mkQuery 800 1000 9500 true], Returned rl)).
    { unfold rejected_run. rewrite Hfrom, Hto. cbn [chunkedQueryFilterN].
      apply chunked_single; [lia|lia|exact Hrl]. }
    unfold res. rewrite (load_run _ _ _ _ _ _ Hp Hr). cbv zeta.
    rewrite Hprun, Hrrun. cbn [completion trace fst snd paid_queries
      rejected_queries outcome final succeeded claims_fromBlock].
    rewrite Hto. now repeat split.
Qed.

Lemma lower_bound_by_precedence_witness :
  let engine := engine_of (@quiet_node _) (@quiet_node _) in
  let res := load 200 5 (Some engine) alice (Some (inr 1000)) fresh in
  paid_queries res = [mkQuery 800 1000 9500 true] /\
  rejected_queries res = [mkQuery 800 1000 9500 true] /\
  succeeded (outcome res) = true /\
  claims_fromBlock (final res) = Some "1001".
Proof.
  intros engine res.
  apply (lower_bound_by_precedence 200 5 engine alice 1000 fresh);
    try reflexivity.
  - now exists [].
  - now exists [].
  - lia.
Defined.

(** ** Zero as a cursor and as a manual lower bound *)

(** A manual field holding the text [0] is not empty: block 0 is taken as
    the lower bound, ahead of the stored cursor 5000 and of the default
    1000, and the scan starts at block 0. *)
Lemma manual_zero_is_used :
  let st := mkState [] "0" false "" (Some "5000") in
  let res := load 9000 5 (Some (engine_of (@quiet_node _) (@quiet_node _)))
               alice (Some (inr 10000)) st in
  Number_of_string (fromBlock st) = Num 0 /\
  saved_cursor (claims_fromBlock st) = Num 5000 /\
  Z.max (10000 - 9000) 0 = 1000 /\
  lower_bound 9000 st 10000 = Num 0 /\
  paid_queries res
  = [mkQuery 0 9500 9500 true; mkQuery 9501 10000 9500 true].
Proof. repeat split; reflexivity. Qed.

(** The first query of a run starts at the lower bound. *)
Lemma helper_first_query L (q : Z -> Z -> JsError + list L) fuel from to ms
  x rest :
  trace (chunkedQueryFilterN q fuel from to ms) = x :: rest ->
  from = Num (q_start x).
Proof.
  destruct from as [z|]; cbn [chunkedQueryFilterN]; [|discriminate].
  unfold chunkedQueryFilter. destruct fuel as [|fuel]; [discriminate|].
  rewrite chunked_loop_S. destruct (z <=? to); [|discriminate].
  cbv zeta. destruct (q z (Z.min (z + ms) to)); rewrite bind_tell;
    cbn [trace fst]; intros [= <- _]; reflexivity.
Qed.

(** C10, as the code has it.  In a call of [load] with both filters and
    the head at [to]: with the manual field empty, a stored cursor that
    reads as zero (also an empty or a missing entry) counts as absent and
    the scan runs from [max (to - LOOKBACK) 0]; a cursor that reads as
    another number is where the scan runs from; and a scan whose first
    request starts at block 0 had no cursor and a head within the
    look-back.  A manual field that is not empty is used as it reads, and
    with the field [0] the scan runs from block 0. *)
Theorem zero_cursor_and_empty_field_are_absent :
  forall LOOKBACK fuel engine provider to st,
    has_ClaimPaid engine = true -> has_ClaimRejected engine = true ->
    let res := load LOOKBACK fuel (Some engine) provider (Some (inr to)) st in
    (fromBlock st = "" ->
     (claims_fromBlock st = None \/ claims_fromBlock st = Some "" \/
      claims_fromBlock st = Some "0" \/
      saved_cursor (claims_fromBlock st) = Num 0) ->
     scans_from res engine provider fuel (Num (Z.max (to - LOOKBACK) 0)) to) /\
    (fromBlock st = "" ->
     forall c, saved_cursor (claims_fromBlock st) = Num c -> c <> 0 ->
               scans_from res engine provider fuel (Num c) to) /\
    (fromBlock st = "" ->
     forall x rest,
       paid_queries res = x :: rest \/ rejected_queries res = x :: rest ->
       q_start x = 0 ->
       truthy_num (saved_cursor (claims_fromBlock st)) = false /\
       to <= LOOKBACK) /\
    (fromBlock st <> "" ->
     scans_from res engine provider fuel (Number_of_string (fromBlock st))
       to) /\
    (fromBlock st = "0" ->
     scans_from res engine provider fuel (Num 0) to /\
     (0 <= to -> (0 < fuel)%nat ->
      exists x rest, paid_queries res = x :: rest /\ q_start x = 0)).
Proof.
  intros LOOKBACK fuel engine provider to st Hp Hr res.
  assert (Hscan : scans_from res engine provider fuel
                    (lower_bound LOOKBACK st to) to)
    by exact (load_queries LOOKBACK fuel engine provider to st Hp Hr).
  split; [|split; [|split; [|split]]].
  - intros Hfb Hcur.
    assert (H0 : saved_cursor (claims_fromBlock st) = Num 0)
      by (destruct Hcur as [->|[->|[->|H]]]; [reflexivity..|exact H]).
    replace (Num (Z.max (to - LOOKBACK) 0))
      with (lower_bound LOOKBACK st to); [exact Hscan|].
    unfold lower_bound, baseFrom. now rewrite Hfb, H0.
  - intros Hfb c Hc Hc0.
    replace (Num c) with (lower_bound LOOKBACK st to); [exact Hscan|].
    unfold lower_bound, baseFrom. rewrite Hfb, Hc. cbn.
    destruct (Z.eqb_spec c 0); [contradiction|reflexivity].
  - intros Hfb x rest Hx Hx0. destruct Hscan as [Hsp Hsr].
    assert (Hfrom : lower_bound LOOKBACK st to = Num 0).
    { rewrite <- Hx0. destruct Hx as [Hx|Hx].
      - rewrite Hsp in Hx. exact (helper_first_query _ _ _ _ _ _ _ _ Hx).
      - rewrite Hsr in Hx. exact (helper_first_query _ _ _ _ _ _ _ _ Hx). }
    unfold lower_bound, baseFrom in Hfrom. rewrite Hfb in Hfrom.
    cbn [truthy_str] in Hfrom.
    destruct (saved_cursor (claims_fromBlock st)) as [z|]; cbn [truthy_num] in *.
    + destruct (Z.eqb_spec z 0) as [Hz|Hz]; cbn [negb] in *.
      * injection Hfrom as H. split; [reflexivity|lia].
      * injection Hfrom as H. contradiction.
    + injection Hfrom as H. split; [reflexivity|lia].
  - intros Hfb.
    replace (Number_of_string (fromBlock st))
      with (lower_bound LOOKBACK st to); [exact Hscan|].
    unfold lower_bound, baseFrom.
    destruct (fromBlock st); [congruence|reflexivity].
  - intros Hfb.
    assert (Hfrom : lower_bound LOOKBACK st to = Num 0)
      by (unfold lower_bound, baseFrom; now rewrite Hfb).
    rewrite Hfrom in Hscan. split; [exact Hscan|].
    intros Hto Hfuel. destruct Hscan as [Hsp _]. rewrite Hsp.
    cbn [chunkedQueryFilterN]. unfold chunkedQueryFilter.
    destruct fuel as [|n]; [lia|]. rewrite chunked_loop_S.
    destruct (Z.leb_spec 0 to) as [_|]; [|lia]. cbv zeta.
    destruct (queryPaid engine provider 0 (Z.min (0 + 9500) to));
      rewrite bind_tell; cbn [trace fst]; eauto.
Qed.

Lemma zero_cursor_and_empty_field_are_absent_witness :
  let engine := engine_of (@quiet_node _) (@quiet_node _) in
  let st := mkState [] "" false "" (Some "0") in
  let res := load 9000 5 (Some engine) alice (Some (inr 10000)) st in
  paid_queries res = [mkQuery 1000 10000 9500 true] /\
  rejected_queries res = [mkQuery 1000 10000 9500 true].
Proof.
  intros engine st res.
  destruct (zero_cursor_and_empty_field_are_absent 9000 5 engine alice 10000
              st eq_refl eq_refl) as (H & _).
  exact (H eq_refl (or_intror (or_intror (or_introl eq_refl)))).
Defined.

(** ** Failures of any class *)

(** A node that times out on wide ranges is asked again at smaller and
    smaller spans: the connectivity failure of the first request neither
    aborts the scan nor keeps the cursor from being stored. *)
Lemma connectivity_failure_is_retried :
  let engine := engine_of (@slow_node _) (@slow_node _) in
  let res := load 9000 20 (Some engine) alice (Some (inr 1000)) fresh in
  queryPaid engine alice 0 1000
  = inl (mkError Connectivity "request timed out") /\
  paid_queries res
  = [mkQuery 0 1000 9500 false; mkQuery 0 1000 4750 false;
     mkQuery 0 1000 2375 false; mkQuery 0 1000 1187 false;
     mkQuery 0 593 593 false; mkQuery 0 296 296 true;
     mkQuery 297 593 296 true; mkQuery 594 1000 593 false;
     mkQuery 594 890 296 true; mkQuery 891 1000 296 true] /\
  outcome res = Loaded [] /\
  claims_fromBlock (final res) = Some "1001".
Proof. repeat split; reflexivity. Qed.

Lemma helper_failed L (q : Z -> Z -> JsError + list L) fuel from to ms
  pre x post :
  trace (chunkedQueryFilterN q fuel from to ms) = pre ++ x :: post ->
  q_ok x = false ->
  retried_or_thrown q (chunkedQueryFilterN q fuel from to ms) x post.
Proof.
  destruct from as [z|]; cbn [chunkedQueryFilterN].
  - apply chunked_loop_failed.
  - cbn. intros H. now destruct pre.
Qed.

Lemma helper_thrown L (q : Z -> Z -> JsError + list L) fuel from to ms e :
  completion (chunkedQueryFilterN q fuel from to ms) = Thrown e ->
  exists y, In y (trace (chunkedQueryFilterN q fuel from to ms)) /\
            q_ok y = false /\ q_span y <= 200 /\
            q (q_start y) (q_end y) = inl e.
Proof.
  destruct from as [z|]; cbn [chunkedQueryFilterN]; [|discriminate].
  intros H. destruct (chunked_loop_thrown _ _ _ _ _ _ _ _ H)
    as (tr & s & en & sp & Ht & Hsp & Hq).
  exists (mkQuery s en sp false). unfold chunkedQueryFilter. rewrite Ht.
  split; [apply in_or_app; right; now left|]. now repeat split.
Qed.

(** C4, as the code has it.  The helper does not look at the class of a
    failure.  In a call of [load], every request that fails, for either
    filter and wherever in the scan, is tried again by the helper on the
    same range at half the span when the span in force is above 200.  A
    request that fails at a span of 200 or less aborts the scan: it is
    the last request of its run, the run throws, and the call ends in a
    failure whose message is shown, that of a request that failed at the
    floor; the rows shown and the stored cursor stay as they were.  Over
    two sources that differ only in the errors they give, the helper
    issues the same queries and ends the same way. *)
Theorem failure_aborts_scan_at_floor :
  forall LOOKBACK fuel engine provider to st,
    has_ClaimPaid engine = true -> has_ClaimRejected engine = true ->
    let res := load LOOKBACK fuel (Some engine) provider (Some (inr to)) st in
    let p := paid_run LOOKBACK fuel engine provider to st in
    let r := rejected_run LOOKBACK fuel engine provider to st in
    paid_queries res = trace p /\
    rejected_queries res = trace r /\
    (forall pre x post,
       paid_queries res = pre ++ x :: post -> q_ok x = false ->
       retried_or_thrown (queryPaid engine provider) p x post) /\
    (forall pre x post,
       rejected_queries res = pre ++ x :: post -> q_ok x = false ->
       retried_or_thrown (queryRejected engine provider) r x post) /\
    (forall x,
       In x (paid_queries res) \/ In x (rejected_queries res) ->
       q_ok x = false -> q_span x <= 200 ->
       (exists e y,
          outcome res = Failed (message_of e) /\
          err (final res) = message_of e /\
          (In y (paid_queries res) /\
           queryPaid engine provider (q_start y) (q_end y) = inl e \/
           In y (rejected_queries res) /\
           queryRejected engine provider (q_start y) (q_end y) = inl e) /\
          q_ok y = false /\ q_span y <= 200) /\
       loading (final res) = false /\
       items (final res) = items st /\
       claims_fromBlock (final res) = claims_fromBlock st) /\
    (forall (L : Type) (q1 q2 : Z -> Z -> JsError + list L) n s t ms,
       same_up_to_errors q1 q2 ->
       trace (chunkedQueryFilter q1 n s t ms)
       = trace (chunkedQueryFilter q2 n s t ms) /\
       same_ending (completion (chunkedQueryFilter q1 n s t ms))
                   (completion (chunkedQueryFilter q2 n s t ms))).
Proof.
  intros LOOKBACK fuel engine provider to st Hp Hr res p r.
  destruct (load_queries LOOKBACK fuel engine provider to st Hp Hr)
    as [Hqp Hqr].
  fold res p in Hqp. fold res r in Hqr.
  split; [exact Hqp|]. split; [exact Hqr|].
  split; [|split; [|split]].
  - intros pre x post Htr Hx. rewrite Hqp in Htr.
    exact (helper_failed _ _ _ _ _ _ _ _ _ Htr Hx).
  - intros pre x post Htr Hx. rewrite Hqr in Htr.
    exact (helper_failed _ _ _ _ _ _ _ _ _ Htr Hx).
  - intros x Hin Hx Hsp.
    assert (Hthrown : (exists e, completion p = Thrown e) \/
                      (exists e, completion r = Thrown e)).
    { destruct Hin as [Hin|Hin]; apply in_split in Hin;
        destruct Hin as (pre & post & Htr).
      - left. rewrite Hqp in Htr.
        destruct (helper_failed _ _ _ _ _ _ _ _ _ Htr Hx)
          as (e & _ & _ & Hfloor).
        exists e. now apply Hfloor.
      - right. rewrite Hqr in Htr.
        destruct (helper_failed _ _ _ _ _ _ _ _ _ Htr Hx)
          as (e & _ & _ & Hfloor).
        exists e. now apply Hfloor. }
    assert (Hres : exists e,
               (completion p = Thrown e \/ completion r = Thrown e) /\
               res = mkLoadResult (after_failure st e) (Failed (message_of e))
                       (trace p) (trace r)).
    { unfold res. rewrite (load_run _ _ _ _ _ _ Hp Hr). cbv zeta.
      fold p r. destruct (completion p) as [pl|ep|] eqn:Hcp.
      - destruct Hthrown as [(e & He)|(e & He)]; [discriminate|].
        rewrite He. exists e. split; [now right|reflexivity].
      - exists ep. split; [now left|reflexivity].
      - destruct Hthrown as [(e & He)|(e & He)]; [discriminate|].
        rewrite He. exists e. split; [now right|reflexivity]. }
    destruct Hres as (e & He & Hres). rewrite Hres.
    cbn [final outcome after_failure err loading items claims_fromBlock
         paid_queries rejected_queries].
    split; [|now repeat split].
    destruct He as [He|He].
    + destruct (helper_thrown _ _ _ _ _ _ _ He) as (y & Hy & Hok & Hys & Hqy).
      exists e, y. split; [reflexivity|]. split; [reflexivity|].
      split; [left; now split|now split].
    + destruct (helper_thrown _ _ _ _ _ _ _ He) as (y & Hy & Hok & Hys & Hqy).
      exists e, y. split; [reflexivity|]. split; [reflexivity|].
      split; [right; now split|now split].
  - intros L q1 q2 n s t ms Hsame.
    apply chunked_loop_same_up_to_errors. exact Hsame.
Qed.

Lemma failure_aborts_scan_at_floor_witness :
  let engine := engine_of (@broken_at _ 15000) (@quiet_node _) in
  let st := mkState example_rows "" false "" (Some "11000") in
  let res := load 9000 30 (Some engine) alice (Some (inr 20000)) st in
  paid_queries res
  = [mkQuery 11000 20000 9500 false; mkQuery 11000 15750 4750 false;
     mkQuery 11000 13375 2375 true; mkQuery 13376 15750 2375 false;
     mkQuery 13376 14563 1187 true; mkQuery 14564 15750 1187 false;
     mkQuery 14564 15157 593 false; mkQuery 14564 14860 296 true;
     mkQuery 14861 15157 296 false; mkQuery 14861 15009 148 false] /\
  (exists e y,
     outcome res = Failed (message_of e) /\
     err (final res) = message_of e /\
     (In y (paid_queries res) /\
      queryPaid engine alice (q_start y) (q_end y) = inl e \/
      In y (rejected_queries res) /\
      queryRejected engine alice (q_start y) (q_end y) = inl e) /\
     q_ok y = false /\ q_span y <= 200) /\
  loading (final res) = false /\
  items (final res) = example_rows /\
  claims_fromBlock (final res) = Some "11000".
Proof.
  intros engine st res. split; [reflexivity|].
  destruct (failure_aborts_scan_at_floor 9000 30 engine alice 20000 st
              eq_refl eq_refl) as (_ & _ & _ & _ & Habort & _).
  apply (Habort (mkQuery 14861 15009 148 false)).
  - left. vm_compute. tauto.
  - reflexivity.
  - cbn. lia.
Defined.

(** ** Scanning again *)

(** Over blocks that hold no logs, a run that returns has collected
    nothing. *)
Lemma chunked_loop_quiet L (q : Z -> Z -> JsError + list L) h fuel :
  (forall s e logs, h < s -> q s e = inr logs -> logs = []) ->
  forall start to ms out res,
    h < start -> 0 <= ms ->
    completion (chunked_loop q fuel start to ms out) = Returned res ->
    res = out.
Proof.
  intros Hq. induction fuel as [|fuel IH]; intros start to ms out res Hs Hms;
    [discriminate|].
  rewrite chunked_loop_S.
  destruct (Z.leb_spec start to) as [Hle|Hgt]; [|now intros [= <-]].
  cbv zeta. set (e := Z.min (start + ms) to).
  assert (He : start <= e) by (unfold e; lia).
  destruct (q start e) as [x|logs] eqn:Hqe; rewrite bind_tell;
    cbn [completion snd].
  - destruct (Z.leb_spec ms 200) as [Hfl|Hfl]; [discriminate|].
    assert (Hhalf : 0 <= ms / 2) by (apply Z.div_pos; lia).
    destruct (completion (chunked_loop q fuel start e (ms / 2) []))
      as [more| |] eqn:Hc.
    + rewrite (bind_returned _ _ Hc). cbn [snd]. intros Hr.
      rewrite (IH _ _ _ _ _ Hs Hhalf Hc), app_nil_r in Hr.
      eapply IH; [| |exact Hr]; lia.
    + rewrite (bind_thrown _ _ Hc). discriminate.
    + rewrite (bind_out_of_fuel _ _ Hc). discriminate.
  - intros Hr. rewrite (Hq _ _ _ Hs Hqe), app_nil_r in Hr.
    eapply IH; [| |exact Hr]; lia.
Qed.

(** A run that throws was failed by the node on a range that starts
    inside the range asked for. *)
Lemma chunked_loop_thrown_from L (q : Z -> Z -> JsError + list L) fuel :
  forall start to ms out e,
    0 <= ms ->
    completion (chunked_loop q fuel start to ms out) = Thrown e ->
    exists s en, start <= s /\ q s en = inl e.
Proof.
  induction fuel as [|fuel IH]; intros start to ms out e Hms;
    [discriminate|].
  rewrite chunked_loop_S.
  destruct (Z.leb_spec start to) as [Hle|Hgt]; [|discriminate].
  cbv zeta. set (en := Z.min (start + ms) to).
  assert (He : start <= en) by (unfold en; lia).
  destruct (q start en) as [x|logs] eqn:Hq; rewrite bind_tell;
    cbn [completion snd].
  - destruct (Z.leb_spec ms 200) as [Hfl|Hfl].
    + intros [= <-]. exists start, en. split; [lia|exact Hq].
    + assert (Hhalf : 0 <= ms / 2) by (apply Z.div_pos; lia).
      destruct (completion (chunked_loop q fuel start en (ms / 2) []))
        as [more| |] eqn:Hc.
      * rewrite (bind_returned _ _ Hc). cbn [snd]. intros Hr.
        destruct (IH _ _ _ _ _ Hms Hr) as (s & en' & Hs & H).
        exists s, en'. split; [lia|exact H].
      * rewrite (bind_thrown _ _ Hc). cbn [snd]. intros [= <-].
        exact (IH _ _ _ _ _ Hhalf Hc).
      * rewrite (bind_out_of_fuel _ _ Hc). discriminate.
  - intros Hr. destruct (IH _ _ _ _ _ Hms Hr) as (s & en' & Hs & H).
    exists s, en'. split; [lia|exact H].
Qed.

(** C6.  After a call of [load] that succeeded at head [h1] with the
    manual field empty, a second call at a head [h2 >= h1], over a chain
    with no logs above [h1], ends, and shows no row: it loads the empty
    list, or it fails, and it does not fail when the node answers every
    query above [h1]; when the head has not moved the lower bound
    [h1 + 1] is above the head, nothing is queried and the empty list is
    loaded without error.  The cursor stored after the first call is
    [h1 + 1], and the cursor stored after the second is not below it. *)
Theorem rescan_is_empty_and_cursor_not_lower :
  forall LOOKBACK fuel1 engine provider h1 h2 st rows1,
    fromBlock st = "" -> 0 <= h1 -> h1 <= h2 ->
    outcome (load LOOKBACK fuel1 (Some engine) provider (Some (inr h1)) st)
    = Loaded rows1 ->
    (forall s e logs, h1 < s ->
       queryPaid engine provider s e = inr logs -> logs = []) ->
    (forall s e logs, h1 < s ->
       queryRejected engine provider s e = inr logs -> logs = []) ->
    let st1 := final (load LOOKBACK fuel1 (Some engine) provider
                        (Some (inr h1)) st) in
    exists n, forall fuel2, (n <= fuel2)%nat ->
      let res2 := load LOOKBACK fuel2 (Some engine) provider
                    (Some (inr h2)) st1 in
      (outcome res2 = Loaded [] \/ exists msg, outcome res2 = Failed msg) /\
      ((forall s e, h1 < s ->
          exists logs, queryPaid engine provider s e = inr logs) ->
       (forall s e, h1 < s ->
          exists logs, queryRejected engine provider s e = inr logs) ->
       outcome res2 = Loaded [] /\ err (final res2) = "") /\
      (h2 = h1 ->
       outcome res2 = Loaded [] /\ err (final res2) = "" /\
       paid_queries res2 = [] /\ rejected_queries res2 = []) /\
      saved_cursor (claims_fromBlock st1) = Num (h1 + 1) /\
      (exists c2, saved_cursor (claims_fromBlock (final res2)) = Num c2 /\
                  h1 + 1 <= c2).
Proof.
  intros LOOKBACK fuel1 engine provider h1 h2 st rows1 Hfb Hh1 Hh Hfirst
    Hqp Hqr st1.
  destruct (load_loaded _ _ _ _ _ _ _ Hfirst)
    as (engine' & to' & _ & _ & [= <-] & [= <-] & Hp & Hr & _ & _ & _ & Hst1).
  fold st1 in Hst1.
  assert (Hcur : saved_cursor (claims_fromBlock st1) = Num (h1 + 1))
    by (rewrite Hst1; apply saved_cursor_written).
  assert (Hfrom : lower_bound LOOKBACK st1 h2 = Num (h1 + 1)).
  { unfold lower_bound, baseFrom. rewrite Hcur.
    rewrite Hst1 at 1. cbn [fromBlock]. rewrite Hfb. cbn.
    destruct (Z.eqb_spec (h1 + 1) 0); [lia|reflexivity]. }
  exists (enough (h1 + 1) h2 9500). intros fuel2 Hfuel res2.
  pose (p := paid_run LOOKBACK fuel2 engine provider h2 st1).
  pose (r := rejected_run LOOKBACK fuel2 engine provider h2 st1).
  assert (Hpe : p = chunkedQueryFilter (queryPaid engine provider) fuel2
                      (h1 + 1) h2 9500)
    by (unfold p, paid_run; now rewrite Hfrom).
  assert (Hre : r = chunkedQueryFilter (queryRejected engine provider) fuel2
                      (h1 + 1) h2 9500)
    by (unfold r, rejected_run; now rewrite Hfrom).
  assert (Hpt : completion p <> OutOfFuel)
    by (rewrite Hpe; apply chunked_loop_terminates; [lia|exact Hfuel]).
  assert (Hrt : completion r <> OutOfFuel)
    by (rewrite Hre; apply chunked_loop_terminates; [lia|exact Hfuel]).
  assert (Hpq : forall res, completion p = Returned res -> res = []).
  { intros res. rewrite Hpe.
    apply (chunked_loop_quiet _ _ h1 _ (Hqp)); lia. }
  assert (Hrq : forall res, completion r = Returned res -> res = []).
  { intros res. rewrite Hre.
    apply (chunked_loop_quiet _ _ h1 _ (Hqr)); lia. }
  assert (Hres2 : res2 =
    match completion p, completion r with
    | Thrown e, _ =>
        mkLoadResult (after_failure st1 e) (Failed (message_of e))
          (trace p) (trace r)
    | _, Thrown e =>
        mkLoadResult (after_failure st1 e) (Failed (message_of e))
          (trace p) (trace r)
    | Returned paidLogs, Returned rejLogs =>
        let rows := present (build_rows (toLowerCase provider) paidLogs
                               rejLogs) in
        mkLoadResult
          (mkState rows (fromBlock st1) false "" (Some (String_of_Z (h2 + 1))))
          (Loaded rows) (trace p) (trace r)
    | _, _ =>
        mkLoadResult
          (mkState (items st1) (fromBlock st1) true "" (claims_fromBlock st1))
          Diverged (trace p) (trace r)
    end) by (unfold res2; now rewrite (load_run _ _ _ _ _ _ Hp Hr)).
  split; [|split; [|split; [|split; [exact Hcur|]]]].
  - rewrite Hres2.
    destruct (completion p) as [pl|ep|] eqn:Hcp; [| |now elim Hpt];
      destruct (completion r) as [rl|er|] eqn:Hcr;
      try (now elim Hrt); try (right; eexists; reflexivity).
    rewrite (Hpq pl eq_refl), (Hrq rl eq_refl). now left.
  - intros Hap Har. rewrite Hres2.
    destruct (completion p) as [pl|ep|] eqn:Hcp; [| |now elim Hpt].
    + destruct (completion r) as [rl|er|] eqn:Hcr; [| |now elim Hrt].
      * rewrite (Hpq pl eq_refl), (Hrq rl eq_refl). now split.
      * exfalso. rewrite Hre in Hcr.
        apply chunked_loop_thrown_from in Hcr; [|lia].
        destruct Hcr as (s & en & Hs & Hfail).
        destruct (Har s en) as (logs & Hok); [lia|congruence].
    + exfalso. rewrite Hpe in Hcp.
      apply chunked_loop_thrown_from in Hcp; [|lia].
      destruct Hcp as (s & en & Hs & Hfail).
      destruct (Hap s en) as (logs & Hok); [lia|congruence].
  - intros ->.
    assert (Hp0 : p = ret []).
    { rewrite Hpe. destruct fuel2 as [|f]; [unfold enough in Hfuel; lia|].
      apply chunked_empty_range. lia. }
    assert (Hr0 : r = ret []).
    { rewrite Hre. destruct fuel2 as [|f]; [unfold enough in Hfuel; lia|].
      apply chunked_empty_range. lia. }
    rewrite Hres2, Hp0, Hr0. cbn. now repeat split.
  - rewrite Hres2.
    destruct (completion p) as [pl|ep|] eqn:Hcp; [| |now elim Hpt];
      destruct (completion r) as [rl|er|] eqn:Hcr;
      try (now elim Hrt); cbn [final claims_fromBlock after_failure];
      try (exists (h1 + 1); split; [exact Hcur|lia]).
    exists (h2 + 1). split; [apply saved_cursor_written|lia].
Qed.

Lemma rescan_is_empty_and_cursor_not_lower_witness :
  let st1 := final (load 9000 20 (Some sample_engine) alice
                      (Some (inr 1000)) fresh) in
  claims_fromBlock st1 = Some "1001" /\
  exists n, forall fuel2, (n <= fuel2)%nat ->
    let res2 := load 9000 fuel2 (Some sample_engine) alice
                  (Some (inr 1000)) st1 in
    (outcome res2 = Loaded [] \/ exists msg, outcome res2 = Failed msg) /\
    ((forall s e, 1000 < s ->
        exists logs, queryPaid sample_engine alice s e = inr logs) ->
     (forall s e, 1000 < s ->
        exists logs, queryRejected sample_engine alice s e = inr logs) ->
     outcome res2 = Loaded [] /\ err (final res2) = "") /\
    (1000 = 1000 ->
     outcome res2 = Loaded [] /\ err (final res2) = "" /\
     paid_queries res2 = [] /\ rejected_queries res2 = []) /\
    saved_cursor (claims_fromBlock st1) = Num (1000 + 1) /\
    (exists c2, saved_cursor (claims_fromBlock (final res2)) = Num c2 /\
                1000 + 1 <= c2).
Proof.
  intros st1. split; [reflexivity|].
  apply (rescan_is_empty_and_cursor_not_lower 9000 20 sample_engine alice
           1000 1000 fresh
           (present (build_rows (toLowerCase alice) sample_paid
                       sample_rejected))).
  - reflexivity.
  - lia.
  - lia.
  - reflexivity.
  - intros s e logs Hs. cbn. unfold node_of. intros [= <-]. cbn.
    repeat match goal with
    | |- context [(s <=? ?b) && _] =>
        destruct (Z.leb_spec s b); [lia|cbn [andb]]
    end.
    reflexivity.
  - intros s e logs Hs. cbn. unfold node_of. intros [= <-]. cbn.
    repeat match goal with
    | |- context [(s <=? ?b) && _] =>
        destruct (Z.leb_spec s b); [lia|cbn [andb]]
    end.
    reflexivity.
Defined.

(* ================================================================== *)
(** * Further properties of the helper *)

Section Queries.
Variable L : Type.
Variable q : Z -> Z -> JsError + list L.

(** Every query of a run is inside the range asked for, is not empty,
    and is no wider than the span in force, which is not above the span
    the run was started with. *)
Lemma chunked_loop_bounds fuel : forall start to ms out,
  0 <= ms ->
  Forall (fun x => start <= q_start x /\ q_start x <= q_end x /\
                   q_end x <= to /\ width x <= q_span x /\ q_span x <= ms)
         (trace (chunked_loop q fuel start to ms out)).
Proof.
  induction fuel as [|fuel IH]; intros start to ms out Hms; [constructor|].
  rewrite chunked_loop_S.
  destruct (Z.leb_spec start to) as [Hle|Hgt]; [|constructor].
  cbv zeta. set (e := Z.min (start + ms) to).
  assert (He : start <= e <= to /\ e - start <= ms) by (unfold e; lia).
  assert (Hnext : forall o,
    Forall (fun x => start <= q_start x /\ q_start x <= q_end x /\
                     q_end x <= to /\ width x <= q_span x /\ q_span x <= ms)
           (trace (chunked_loop q fuel (e + 1) to ms o))).
  { intros o. eapply Forall_impl; [|apply (IH (e + 1) to ms o Hms)].
    cbv beta. intros x. lia. }
  destruct (q start e) as [x|logs]; rewrite bind_tell;
    cbn [trace fst]; constructor;
    try (unfold width; cbn [q_start q_end q_span]; lia); [|apply Hnext].
  destruct (Z.leb_spec ms 200) as [Hfl|Hfl]; [constructor|].
  assert (Hhalf : 0 <= ms / 2 < ms)
    by (split; [apply Z.div_pos; lia | apply Z.div_lt; lia]).
  assert (Hn : Forall
    (fun x => start <= q_start x /\ q_start x <= q_end x /\
              q_end x <= to /\ width x <= q_span x /\ q_span x <= ms)
    (trace (chunked_loop q fuel start e (ms / 2) []))).
  { eapply Forall_impl; [|apply (IH start e (ms / 2) []); lia].
    cbv beta. intros y. lia. }
  destruct (completion (chunked_loop q fuel start e (ms / 2) []))
    as [more| |] eqn:Hc.
  - rewrite (bind_returned _ _ Hc). cbn [fst].
    apply Forall_app. split; [exact Hn|apply Hnext].
  - rewrite (bind_thrown _ _ Hc). exact Hn.
  - rewrite (bind_out_of_fuel _ _ Hc). exact Hn.
Qed.

Lemma ok_ranges_app tr1 tr2 :
  ok_ranges (tr1 ++ tr2) = ok_ranges tr1 ++ ok_ranges tr2.
Proof. unfold ok_ranges. now rewrite filter_app, map_app. Qed.

Lemma ok_ranges_answered s e ms tr :
  ok_ranges (mkQuery s e ms true :: tr) = (s, e) :: ok_ranges tr.
Proof. reflexivity. Qed.

Lemma ok_ranges_rejected s e ms tr :
  ok_ranges (mkQuery s e ms false :: tr) = ok_ranges tr.
Proof. reflexivity. Qed.

Lemma Tiles_app a b c rs1 rs2 :
  Tiles a b rs1 -> Tiles b c rs2 -> Tiles a c (rs1 ++ rs2).
Proof.
  induction 1 as [a|a e b rest Hae _ IH]; intros H2; [exact H2|].
  cbn [app]. constructor; [exact Hae|now apply IH].
Qed.

(** A run that returns was answered on ranges laid end to end over the
    range asked for, and returns what it was answered, in that order. *)
Lemma chunked_loop_tiles fuel : forall start to ms out res,
  0 <= ms -> start <= to + 1 ->
  completion (chunked_loop q fuel start to ms out) = Returned res ->
  Tiles start (to + 1)
        (ok_ranges (trace (chunked_loop q fuel start to ms out))) /\
  res = out ++ flat_map (answer q)
                 (ok_ranges (trace (chunked_loop q fuel start to ms out))).
Proof.
  induction fuel as [|fuel IH]; intros start to ms out res Hms Hst;
    [discriminate|].
  rewrite chunked_loop_S.
  destruct (Z.leb_spec start to) as [Hle|Hgt].
  2:{ intros [= <-]. replace start with (to + 1) by lia.
      split; [constructor|now rewrite app_nil_r]. }
  cbv zeta. set (e := Z.min (start + ms) to).
  assert (He : start <= e <= to) by (unfold e; lia).
  destruct (q start e) as [x|logs] eqn:Hq; rewrite bind_tell;
    cbn [trace completion fst snd].
  - destruct (Z.leb_spec ms 200) as [Hfl|Hfl]; [discriminate|].
    assert (Hhalf : 0 <= ms / 2) by (apply Z.div_pos; lia).
    destruct (completion (chunked_loop q fuel start e (ms / 2) []))
      as [more| |] eqn:Hc.
    + rewrite (bind_returned _ _ Hc). cbn [trace completion fst snd].
      intros Hr.
      destruct (IH start e (ms / 2) [] more Hhalf ltac:(lia) Hc)
        as [Ht1 Hm].
      destruct (IH (e + 1) to ms (out ++ more) res Hms ltac:(lia) Hr)
        as [Ht2 Hres].
      rewrite ok_ranges_rejected, ok_ranges_app.
      split; [eapply Tiles_app; eauto|].
      rewrite Hres, flat_map_app, <- app_assoc. f_equal. f_equal.
      exact Hm.
    + rewrite (bind_thrown _ _ Hc). discriminate.
    + rewrite (bind_out_of_fuel _ _ Hc). discriminate.
  - intros Hr.
    destruct (IH (e + 1) to ms (out ++ logs) res Hms ltac:(lia) Hr)
      as [Ht2 Hres].
    rewrite ok_ranges_answered.
    split; [constructor; [lia|exact Ht2]|].
    rewrite Hres, <- app_assoc. f_equal. cbn [flat_map]. f_equal.
    unfold answer. cbn [fst snd]. now rewrite Hq.
Qed.


Lemma halvings_le n : forall m ms,
  (n <= m)%nat -> incl (halvings n ms) (halvings m ms).
Proof.
  induction n as [|n IH]; intros m ms Hle; [intros x []|].
  destruct m as [|m]; [lia|]. cbn [halvings].
  apply incl_cons; [now left|]. apply incl_tl.
  destruct (ms <=? 200); [intros x []|]. apply IH. lia.
Qed.

(** The spans of the queries of a run are among the halvings of the span
    it was started with. *)
Lemma chunked_loop_halvings fuel : forall start to ms out,
  Forall (fun x => In (q_span x) (halvings fuel ms))
         (trace (chunked_loop q fuel start to ms out)).
Proof.
  induction fuel as [|fuel IH]; intros start to ms out; [constructor|].
  rewrite chunked_loop_S.
  destruct (start <=? to); [|constructor].
  cbv zeta. set (e := Z.min (start + ms) to).
  assert (Hnext : forall o,
    Forall (fun x => In (q_span x) (halvings (S fuel) ms))
           (trace (chunked_loop q fuel (e + 1) to ms o))).
  { intros o. eapply Forall_impl; [|apply IH]. cbv beta.
    intros x. apply halvings_le. lia. }
  destruct (q start e) as [x|logs]; rewrite bind_tell;
    cbn [trace fst]; constructor; try (now left); [|apply Hnext].
  cbn [halvings].
  destruct (Z.leb_spec ms 200) as [Hfl|Hfl]; [constructor|].
  assert (Hn : Forall
    (fun x => In (q_span x) (ms :: halvings fuel (ms / 2)))
    (trace (chunked_loop q fuel start e (ms / 2) []))).
  { eapply Forall_impl; [|apply IH]. cbv beta. intros y Hy. now right. }
  assert (Hnext' : forall o,
    Forall (fun x => In (q_span x) (ms :: halvings fuel (ms / 2)))
           (trace (chunked_loop q fuel (e + 1) to ms o))).
  { intros o. specialize (Hnext o). cbn [halvings] in Hnext.
    destruct (Z.leb_spec ms 200); [lia|exact Hnext]. }
  destruct (completion (chunked_loop q fuel start e (ms / 2) []))
    as [more| |] eqn:Hc.
  - rewrite (bind_returned _ _ Hc). cbn [fst].
    apply Forall_app. split; [exact Hn|apply Hnext'].
  - rewrite (bind_thrown _ _ Hc). exact Hn.
  - rewrite (bind_out_of_fuel _ _ Hc). exact Hn.
Qed.

End Queries.

Lemma Tiles_bounds a c rs :
  Tiles a c rs -> a <= c /\ Forall (fun r => a <= fst r <= snd r /\ snd r < c) rs.
Proof.
  induction 1 as [a|a e c rest Hae _ [IHle IH]]; [split; [lia|constructor]|].
  split; [lia|]. constructor; [cbn [fst snd]; lia|].
  eapply Forall_impl; [|exact IH]. cbv beta. intros r. lia.
Qed.

Lemma Tiles_ascending a c rs : Tiles a c rs -> ascending_disjoint rs.
Proof.
  induction 1 as [a|a e c rest Hae Hrest IH]; constructor; [exact IH|].
  eapply Forall_impl; [|apply (proj2 (Tiles_bounds _ _ _ Hrest))].
  cbv beta. cbn [fst snd]. intros r. lia.
Qed.

Lemma Tiles_cover a c rs : Tiles a c rs -> covers_exactly a (c - 1) rs.
Proof.
  induction 1 as [a|a e c rest Hae Hrest IH]; intros b; split.
  - lia.
  - intros (r & [] & _).
  - intros Hb. destruct (Z_le_gt_dec b e) as [Hin|Hout].
    + exists (a, e). split; [now left|cbn [fst snd]; lia].
    + destruct (proj1 (IH b)) as (r & Hr & Hbr); [lia|].
      exists r. split; [now right|exact Hbr].
  - pose proof (proj1 (Tiles_bounds _ _ _ Hrest)) as Hec.
    intros (r & [<-|Hr] & Hbr).
    + cbn [fst snd] in Hbr. lia.
    + assert (Hb : e + 1 <= b <= c - 1) by (apply IH; now exists r). lia.
Qed.

(** X1.  Whatever the source does, every query the helper issues lies
    inside the range it was asked for, is not empty, and is no wider than
    the span in force when it was issued, which is never above the span
    the helper was called with. *)
Theorem queries_stay_in_range :
  forall (L : Type) (q : Z -> Z -> JsError + list L) fuel from to maxSpan,
    0 <= maxSpan ->
    Forall (fun x => from <= q_start x /\ q_start x <= q_end x /\
                     q_end x <= to /\ width x <= q_span x /\
                     q_span x <= maxSpan)
           (trace (chunkedQueryFilter q fuel from to maxSpan)).
Proof.
  intros L q fuel from to maxSpan Hms. now apply chunked_loop_bounds.
Qed.

Lemma queries_stay_in_range_witness :
  Forall (fun x => 0 <= q_start x /\ q_start x <= q_end x /\
                   q_end x <= 1000 /\ width x <= q_span x /\
                   q_span x <= 9500)
         (trace (chunkedQueryFilter (@slow_node unit) 20 0 1000 9500)).
Proof.
  apply (queries_stay_in_range unit (@slow_node unit) 20 0 1000 9500). lia.
Defined.

(** X2.  When the helper returns, the ranges on which the source
    answered cover the range asked for exactly, in ascending order and
    without overlap, and what is returned is what the source answered on
    them, in that order: the logs of no block are asked for twice or
    left out, whatever was retried on the way. *)
Theorem answered_ranges_tile_the_range :
  forall (L : Type) (q : Z -> Z -> JsError + list L) fuel from to maxSpan out,
    0 <= maxSpan ->
    completion (chunkedQueryFilter q fuel from to maxSpan) = Returned out ->
    let rs := ok_ranges (trace (chunkedQueryFilter q fuel from to maxSpan)) in
    covers_exactly from to rs /\
    ascending_disjoint rs /\
    out = flat_map (answer q) rs.
Proof.
  intros L q fuel from to maxSpan out Hms Hc rs.
  destruct (Z_le_gt_dec from (to + 1)) as [Hle|Hgt].
  - destruct (chunked_loop_tiles L q fuel from to maxSpan [] out Hms Hle Hc)
      as [Ht Hout].
    fold (chunkedQueryFilter q fuel from to maxSpan) in Ht, Hout.
    fold rs in Ht, Hout. split; [|split].
    + replace to with (to + 1 - 1) by lia. now apply Tiles_cover.
    + eapply Tiles_ascending; eauto.
    + exact Hout.
  - destruct fuel as [|fuel]; [discriminate|].
    unfold rs. rewrite chunked_empty_range in * by lia.
    cbn in Hc. injection Hc as <-. cbn.
    split; [|split; [constructor|reflexivity]].
    intros b. split; [lia|]. intros (r & [] & _).
Qed.

Lemma answered_ranges_tile_the_range_witness :
  let q := ceiling_source 300 (fun b : Z => [b]) in
  let rs := ok_ranges (trace (chunkedQueryFilter q 20 0 1000 9500)) in
  rs = [(0, 296); (297, 593); (594, 890); (891, 1000)] /\
  covers_exactly 0 1000 rs /\
  ascending_disjoint rs /\
  logs_in (fun b : Z => [b]) 0 1000 = flat_map (answer q) rs.
Proof.
  intros q rs. split; [reflexivity|].
  apply (answered_ranges_tile_the_range Z q 20 0 1000 9500
           (logs_in (fun b : Z => [b]) 0 1000)).
  - lia.
  - vm_compute. reflexivity.
Defined.



(** ** Further properties of [load] *)

Lemma halvings_9500 fuel :
  incl (halvings fuel 9500) [9500; 4750; 2375; 1187; 593; 296; 148].
Proof.
  change [9500; 4750; 2375; 1187; 593; 296; 148]
    with (halvings (7 + fuel) 9500).
  apply halvings_le. lia.
Qed.

(** X4.  Every query a call of [load] issues, for either filter, lies
    between the lower bound and the head, is no wider than its span, and
    has for span 9500 or one of its halves 4750, 2375, 1187, 593, 296,
    148: no span below 148 is ever tried. *)
Theorem load_queries_are_bounded :
  forall LOOKBACK fuel engine provider to st from,
    has_ClaimPaid engine = true -> has_ClaimRejected engine = true ->
    lower_bound LOOKBACK st to = Num from ->
    let res := load LOOKBACK fuel (Some engine) provider (Some (inr to)) st in
    Forall (fun x => from <= q_start x /\ q_start x <= q_end x /\
                     q_end x <= to /\ width x <= q_span x /\
                     In (q_span x) [9500; 4750; 2375; 1187; 593; 296; 148])
           (paid_queries res ++ rejected_queries res).
Proof.
  intros LOOKBACK fuel engine provider to st from Hp Hr Hfrom res.
  destruct (load_queries LOOKBACK fuel engine provider to st Hp Hr)
    as [Hqp Hqr].
  fold res in Hqp, Hqr. rewrite Hqp, Hqr.
  unfold paid_run, rejected_run. rewrite Hfrom. cbn [chunkedQueryFilterN].
  apply Forall_app. split.
  - pose proof (chunked_loop_bounds _ (queryPaid engine provider) fuel
                  from to 9500 [] ltac:(lia)) as Hb.
    pose proof (chunked_loop_halvings _ (queryPaid engine provider) fuel
                  from to 9500 []) as Hh.
    unfold chunkedQueryFilter.
    rewrite Forall_forall in *. intros x Hx.
    specialize (Hb x Hx). specialize (Hh x Hx).
    apply halvings_9500 in Hh. intuition.
  - pose proof (chunked_loop_bounds _ (queryRejected engine provider) fuel
                  from to 9500 [] ltac:(lia)) as Hb.
    pose proof (chunked_loop_halvings _ (queryRejected engine provider) fuel
                  from to 9500 []) as Hh.
    unfold chunkedQueryFilter.
    rewrite Forall_forall in *. intros x Hx.
    specialize (Hb x Hx). specialize (Hh x Hx).
    apply halvings_9500 in Hh. intuition.
Qed.

Lemma load_queries_are_bounded_witness :
  let engine := engine_of (@slow_node _) (@slow_node _) in
  let res := load 9000 20 (Some engine) alice (Some (inr 1000)) fresh in
  Forall (fun x => 0 <= q_start x /\ q_start x <= q_end x /\
                   q_end x <= 1000 /\ width x <= q_span x /\
                   In (q_span x) [9500; 4750; 2375; 1187; 593; 296; 148])
         (paid_queries res ++ rejected_queries res).
Proof.
  intros engine res.
  apply (load_queries_are_bounded 9000 20 engine alice 1000 fresh 0);
    reflexivity.
Defined.

(** ** [loadOlder] *)

Lemma String_of_Z_truthy z : truthy_str (String_of_Z z) = true.
Proof.
  destruct (String_of_Z z) eqn:E; [|reflexivity].
  pose proof (Number_of_String_of_Z z) as H. rewrite E in H.
  cbn in H. injection H as <-. discriminate E.
Qed.

Lemma older_field_bound LOOKBACK item :
  older_field LOOKBACK item
  = String_of_Z (older_bound LOOKBACK (saved_cursor item)).
Proof.
  unfold older_field, older_bound.
  destruct (saved_cursor item) as [z|]; [|reflexivity].
  cbn [truthy_num]. now destruct (z =? 0).
Qed.

(** A manual field written by [String] is read back as the number. *)
Lemma lower_bound_of_written_field LOOKBACK st n to :
  fromBlock st = String_of_Z n -> lower_bound LOOKBACK st to = Num n.
Proof.
  intros H. unfold lower_bound, baseFrom.
  now rewrite H, String_of_Z_truthy, Number_of_String_of_Z.
Qed.

(** X5.  A press on "Load older" runs the scan that [load] would have
    run before the press (same outcome, same queries, same cursor), and
    leaves in the manual field the number [n] that is the stored cursor
    of before less one less [LOOKBACK], or zero if that is negative or
    no cursor was stored.  The field is then not empty: every later scan
    starts at [n], whatever cursor is stored by then. *)
Theorem load_older_sets_the_field :
  forall LOOKBACK fuel engineR provider readProvider st,
    let res := loadOlder LOOKBACK fuel engineR provider readProvider st in
    let before := load LOOKBACK fuel engineR provider readProvider st in
    let n := older_bound LOOKBACK (saved_cursor (claims_fromBlock st)) in
    outcome res = outcome before /\
    paid_queries res = paid_queries before /\
    rejected_queries res = rejected_queries before /\
    items (final res) = items (final before) /\
    claims_fromBlock (final res) = claims_fromBlock (final before) /\
    fromBlock (final res) = String_of_Z n /\
    0 <= n /\
    (forall c, saved_cursor (claims_fromBlock st) = Num c -> c <> 0 ->
               n = Z.max (c - 1 - LOOKBACK) 0) /\
    (forall st' to, fromBlock st' = fromBlock (final res) ->
                    lower_bound LOOKBACK st' to = Num n).
Proof.
  intros LOOKBACK fuel engineR provider readProvider st res before n.
  repeat (split; [reflexivity|]).
  split; [apply older_field_bound|]. split; [|split].
  - unfold n, older_bound.
    destruct (saved_cursor (claims_fromBlock st)) as [z|];
      [destruct (z =? 0)|]; lia.
  - intros c Hc Hc0. unfold n, older_bound. rewrite Hc.
    destruct (Z.eqb_spec c 0); [contradiction|reflexivity].
  - intros st' to Hst'. apply lower_bound_of_written_field.
    rewrite Hst'. apply older_field_bound.
Qed.

(** X6.  After a scan that succeeded at head [h], "Load older" leaves
    [max (h - LOOKBACK) 0] in the manual field, whatever the node or the
    head at the time of the press.  This is the lower bound a scan with
    an empty field and no cursor has at head [h]: pressed after such a
    scan, "Load older" makes the later scans start where that one
    started, and no press reaches further back than [LOOKBACK] blocks
    behind the head of the last scan that succeeded. *)
Theorem load_older_after_scan_is_not_older :
  forall LOOKBACK fuel fuel' engineR provider readProvider h st rows
         engineR' readProvider',
    outcome (load LOOKBACK fuel engineR provider readProvider st)
    = Loaded rows ->
    readProvider = Some (inr h) -> 0 <= h ->
    let st1 := final (load LOOKBACK fuel engineR provider readProvider st) in
    let st2 := final (loadOlder LOOKBACK fuel' engineR' provider
                        readProvider' st1) in
    fromBlock st2 = String_of_Z (Z.max (h - LOOKBACK) 0) /\
    (forall to, lower_bound LOOKBACK st2 to = Num (Z.max (h - LOOKBACK) 0)) /\
    (fromBlock st = "" ->
     truthy_num (saved_cursor (claims_fromBlock st)) = false ->
     forall to, lower_bound LOOKBACK st2 to = lower_bound LOOKBACK st h).
Proof.
  intros LOOKBACK fuel fuel' engineR provider readProvider h st rows
    engineR' readProvider' Hloaded Hhead Hh st1 st2.
  destruct (load_loaded _ _ _ _ _ _ _ Hloaded)
    as (engine & to & _ & _ & _ & Hto & _ & _ & _ & _ & _ & Hst1).
  rewrite Hhead in Hto. injection Hto as <-. fold st1 in Hst1.
  assert (Hfield : fromBlock st2 = String_of_Z (Z.max (h - LOOKBACK) 0)).
  { unfold st2, loadOlder. cbn [final set_fromBlock fromBlock].
    rewrite older_field_bound, Hst1. cbn [claims_fromBlock].
    rewrite saved_cursor_written. unfold older_bound.
    destruct (Z.eqb_spec (h + 1) 0); [lia|]. do 2 f_equal. lia. }
  split; [exact Hfield|]. split.
  - intros to. now apply lower_bound_of_written_field.
  - intros Hfb Hcur to.
    rewrite (lower_bound_of_written_field _ _ _ _ Hfield).
    unfold lower_bound, baseFrom. now rewrite Hfb, Hcur.
Qed.

Lemma load_older_after_scan_is_not_older_witness :
  let st1 := final (load 100 20 (Some sample_engine) alice
                      (Some (inr 1000)) fresh) in
  let st2 := final (loadOlder 100 20 (Some sample_engine) alice
                      (Some (inr 1234)) st1) in
  outcome (load 100 20 (Some sample_engine) alice (Some (inr 1000)) fresh)
  = Loaded (present (build_rows (toLowerCase alice) sample_paid
                       sample_rejected)) /\
  fromBlock st2 = "900" /\
  (forall to, lower_bound 100 st2 to = Num 900) /\
  lower_bound 100 fresh 1000 = Num 900.
Proof.
  intros st1 st2. split; [reflexivity|].
  destruct (load_older_after_scan_is_not_older 100 20 20
              (Some sample_engine) alice (Some (inr 1000)) 1000 fresh
              (present (build_rows (toLowerCase alice) sample_paid
                          sample_rejected))
              (Some sample_engine) (Some (inr 1234))
              eq_refl eq_refl ltac:(lia))
    as (H1 & H2 & _).
  split; [exact H1|]. split; [exact H2|reflexivity].
Defined.

(** ** Chunking and what the panel shows *)

(** X7.  Chunking changes the requests and nothing else.  Through a node
    that rejects exactly the ranges wider than [W], with [W] at least
    200, a call of [load] whose lower bound is a number ends and
    succeeds; the rows it shows are those built from all the logs of the
    range from the lower bound to the head, as one query of the whole
    range would have returned them; it stores [to + 1]; and no answered
    request was wider than [W].  What is shown and stored does not depend
    on [W]. *)
Theorem chunking_is_transparent :
  forall LOOKBACK W paidAt rejAt engine provider to st from,
    200 <= W ->
    has_ClaimPaid engine = true -> has_ClaimRejected engine = true ->
    rejects_wider_than W paidAt (queryPaid engine provider) ->
    rejects_wider_than W rejAt (queryRejected engine provider) ->
    lower_bound LOOKBACK st to = Num from ->
    exists n, forall fuel, (n <= fuel)%nat ->
      let res := load LOOKBACK fuel (Some engine) provider
                   (Some (inr to)) st in
      let rows := present (build_rows (toLowerCase provider)
                             (logs_in paidAt from to)
                             (logs_in rejAt from to)) in
      outcome res = Loaded rows /\
      final res = mkState rows (fromBlock st) false ""
                    (Some (String_of_Z (to + 1))) /\
      Forall (fun x => q_ok x = true -> width x <= W)
             (paid_queries res ++ rejected_queries res).
Proof.
  intros LOOKBACK W paidAt rejAt engine provider to st from HW Hhp Hhr
    Hqp Hqr Hfrom.
  exists (enough from to 9500). intros fuel Hfuel res rows.
  destruct (chunked_loop_ceiling _ W paidAt _ Hqp HW fuel from to 9500 [])
    as [Hp Htp]; [lia|exact Hfuel|].
  destruct (chunked_loop_ceiling _ W rejAt _ Hqr HW fuel from to 9500 [])
    as [Hr Htr]; [lia|exact Hfuel|].
  assert (Hprun : paid_run LOOKBACK fuel engine provider to st
                  = chunkedQueryFilter (queryPaid engine provider) fuel
                      from to 9500)
    by (unfold paid_run; now rewrite Hfrom).
  assert (Hrrun : rejected_run LOOKBACK fuel engine provider to st
                  = chunkedQueryFilter (queryRejected engine provider) fuel
                      from to 9500)
    by (unfold rejected_run; now rewrite Hfrom).
  unfold res. rewrite (load_run LOOKBACK fuel engine provider to st Hhp Hhr).
  cbv zeta. rewrite Hprun, Hrrun. unfold chunkedQueryFilter.
  rewrite Hp, Hr. cbn [app outcome final paid_queries rejected_queries].
  split; [reflexivity|]. split; [reflexivity|].
  apply Forall_app. split.
  - eapply Forall_impl; [|exact Htp]. cbv beta. tauto.
  - eapply Forall_impl; [|exact Htr]. cbv beta. tauto.
Qed.

Lemma chunking_is_transparent_witness :
  let engine := engine_of (ceiling_source 300 paid_chain)
                          (ceiling_source 300 rejected_chain) in
  map tx (present (build_rows (toLowerCase alice)
                     (logs_in paid_chain 0 1000)
                     (logs_in rejected_chain 0 1000)))
  = ["0xa2"; "0xa1"; "0xa3"] /\
  exists n, forall fuel, (n <= fuel)%nat ->
    let res := load 9000 fuel (Some engine) alice (Some (inr 1000)) fresh in
    let rows := present (build_rows (toLowerCase alice)
                           (logs_in paid_chain 0 1000)
                           (logs_in rejected_chain 0 1000)) in
    outcome res = Loaded rows /\
    final res = mkState rows (fromBlock fresh) false ""
                  (Some (String_of_Z (1000 + 1))) /\
    Forall (fun x => q_ok x = true -> width x <= 300)
           (paid_queries res ++ rejected_queries res).
Proof.
  intros engine. split; [vm_compute; reflexivity|].
  apply (chunking_is_transparent 9000 300 paid_chain rejected_chain engine
           alice 1000 fresh 0).
  - lia.
  - reflexivity.
  - reflexivity.
  - apply ceiling_source_rejects.
  - apply ceiling_source_rejects.
  - reflexivity.
Defined.

(* ================================================================== *)
(** * Amounts as text *)

(** ** Decimal digits *)

Lemma digit_on_value r d :
  (r < 10)%N ->
  DecimalPos.Unsigned.of_lu (digit_on r d)
  = (r + 10 * DecimalPos.Unsigned.of_lu d)%N.
Proof.
  intros Hr.
  assert (H : r = 0%N \/ r = 1%N \/ r = 2%N \/ r = 3%N \/ r = 4%N \/
              r = 5%N \/ r = 6%N \/ r = 7%N \/ r = 8%N \/ r = 9%N) by lia.
  repeat (destruct H as [->|H]; [reflexivity|]). subst. reflexivity.
Qed.

Lemma digit_on_size r d :
  Decimal.nb_digits (digit_on r d) = S (Decimal.nb_digits d).
Proof.
  unfold digit_on.
  repeat match goal with
         | |- context [match ?p with _ => _ end] => destruct p
         end; reflexivity.
Qed.

Lemma little_digits_value n : forall f,
  (f < 10 ^ N.of_nat n)%N ->
  DecimalPos.Unsigned.of_lu (little_digits n f) = f.
Proof.
  induction n as [|n IH]; intros f Hf.
  - cbn in *. lia.
  - cbn [little_digits]. rewrite digit_on_value by (apply N.mod_lt; lia).
    rewrite IH.
    + symmetry. rewrite N.add_comm. apply N.div_mod. lia.
    + rewrite Nnat.Nat2N.inj_succ, N.pow_succ_r' in Hf.
      apply N.Div0.div_lt_upper_bound. exact Hf.
Qed.

Lemma little_digits_size n f : Decimal.nb_digits (little_digits n f) = n.
Proof.
  revert f. induction n as [|n IH]; intros f; [reflexivity|].
  cbn [little_digits]. now rewrite digit_on_size, IH.
Qed.

Lemma nb_digits_nztail d :
  (Decimal.nb_digits (DecimalFacts.nztail d) <= Decimal.nb_digits d)%nat.
Proof.
  rewrite <- (DecimalFacts.rev_rev d) at 1.
  rewrite <- (DecimalFacts.nb_digits_rev (DecimalFacts.nztail (Decimal.rev (Decimal.rev d)))).
  rewrite DecimalFacts.rev_nztail_rev.
  rewrite <- (DecimalFacts.nb_digits_rev d).
  apply DecimalFacts.nb_digits_nzhead.
Qed.

(** A positive number below [10 ^ n] is written on at most [n] digits. *)
Lemma to_uint_size n p :
  (N.pos p < 10 ^ N.of_nat n)%N ->
  (Decimal.nb_digits (Pos.to_uint p) <= n)%nat.
Proof.
  intros Hp. unfold Pos.to_uint. rewrite DecimalFacts.nb_digits_rev.
  change (Pos.to_little_uint p) with (DecimalPos.Unsigned.to_lu (N.pos p)).
  rewrite <- (little_digits_value n (N.pos p) Hp).
  rewrite DecimalPos.Unsigned.to_of_lu. unfold DecimalFacts.lnorm.
  pose proof (nb_digits_nztail (little_digits n (N.pos p))) as Hle.
  rewrite little_digits_size in Hle.
  destruct (DecimalFacts.nztail (little_digits n (N.pos p))) eqn:E; try exact Hle.
  exfalso. apply DecimalPos.Unsigned.of_lu_0 in E.
  rewrite little_digits_value in E by exact Hp. discriminate.
Qed.

Lemma string_of_uint_length d :
  String.length (NilEmpty.string_of_uint d) = Decimal.nb_digits d.
Proof. induction d; cbn; congruence. Qed.

Lemma String_of_Z_digits z : 0 <= z -> all_digits (String_of_Z z) = true.
Proof.
  destruct z as [|p|p]; intros Hz; [reflexivity| |lia].
  rewrite String_of_Z_pos. apply string_of_uint_digits.
Qed.

Lemma String_of_Z_length z n :
  0 <= z < 10 ^ Z.of_nat n -> (1 <= n)%nat ->
  (String.length (String_of_Z z) <= n)%nat.
Proof.
  destruct z as [|p|p]; intros [Hz Hlt] Hn; [exact Hn| |lia].
  rewrite String_of_Z_pos, string_of_uint_length.
  apply to_uint_size. 
  apply N2Z.inj_lt. rewrite N2Z.inj_pow, nat_N_Z. exact Hlt.
Qed.

Lemma digit_not_point c : is_digit c = true -> Ascii.eqb c "." = false.
Proof.
  destruct (Ascii.eqb_spec c "."); [subst; discriminate|reflexivity].
Qed.

Lemma split_point_digits w :
  all_digits w = true -> split_point w = (w, None).
Proof.
  induction w as [|c w IH]; [reflexivity|]. cbn [all_digits split_point].
  intros H. apply andb_prop in H. destruct H as [Hc Hw].
  now rewrite (digit_not_point _ Hc), (IH Hw).
Qed.

Lemma split_point_app w f :
  all_digits w = true -> split_point (append w (String "." f)) = (w, Some f).
Proof.
  induction w as [|c w IH]; [reflexivity|]. cbn [all_digits split_point append].
  intros H. apply andb_prop in H. destruct H as [Hc Hw].
  now rewrite (digit_not_point _ Hc), (IH Hw).
Qed.

Lemma length_append s t :
  String.length (append s t) = (String.length s + String.length t)%nat.
Proof. induction s as [|c s IH]; cbn; [reflexivity|now rewrite IH]. Qed.

Lemma length_zeros k : String.length (zeros k) = k.
Proof. induction k as [|k IH]; cbn; [reflexivity|now rewrite IH]. Qed.

Lemma all_digits_append s t :
  all_digits (append s t) = (all_digits s && all_digits t)%bool.
Proof.
  induction s as [|c s IH]; cbn; [reflexivity|].
  now rewrite IH, andb_assoc.
Qed.

Lemma all_digits_zeros k : all_digits (zeros k) = true.
Proof. induction k as [|k IH]; [reflexivity|exact IH]. Qed.

Lemma strip_zeros_restore s :
  append (strip_zeros s)
         (zeros (String.length s - String.length (strip_zeros s))) = s.
Proof.
  induction s as [|c s IH]; [reflexivity|]. cbn [strip_zeros].
  destruct (strip_zeros s) as [|c' t] eqn:E.
  - cbn in IH. rewrite Nat.sub_0_r in IH.
    destruct (Ascii.eqb_spec c "0") as [->|Hc]; cbn.
    + now rewrite IH.
    + now rewrite Nat.sub_0_r, IH.
  - cbn. cbn in IH. now rewrite IH.
Qed.

Lemma strip_zeros_length s :
  (String.length (strip_zeros s) <= String.length s)%nat.
Proof.
  pose proof (f_equal String.length (strip_zeros_restore s)) as H.
  rewrite length_append in H. lia.
Qed.

Lemma strip_zeros_digits s :
  all_digits s = true -> all_digits (strip_zeros s) = true.
Proof.
  intros H. rewrite <- (strip_zeros_restore s), all_digits_append in H.
  now apply andb_prop in H.
Qed.

Lemma strip_zeros_last s : last_char (strip_zeros s) <> Some "0"%char.
Proof.
  induction s as [|c s IH]; [discriminate|]. cbn [strip_zeros].
  destruct (strip_zeros s) as [|c' t] eqn:E.
  - destruct (Ascii.eqb_spec c "0") as [->|Hc]; cbn; congruence.
  - exact IH.
Qed.

Lemma Number_zeros_prefix k s :
  all_digits s = true -> s <> "" ->
  Number_of_string (append (zeros k) s) = Number_of_string s.
Proof.
  intros Hd Hs. induction k as [|k IH]; [reflexivity|].
  cbn [zeros append]. rewrite Number_zero_prefix; [exact IH| |].
  - now rewrite all_digits_append, all_digits_zeros.
  - destruct k; cbn; [exact Hs|discriminate].
Qed.

(** The six decimals of a remainder. *)
Lemma padded_remainder r :
  0 <= r < 1000000 ->
  let p := padStart6 (String_of_Z r) in
  String.length p = 6%nat /\ all_digits p = true /\
  Number_of_string p = Num r.
Proof.
  intros Hr p.
  assert (Hlen : (String.length (String_of_Z r) <= 6)%nat)
    by (apply String_of_Z_length; [cbn; lia|lia]).
  assert (Hdig : all_digits (String_of_Z r) = true)
    by (apply String_of_Z_digits; lia).
  assert (Hne : String_of_Z r <> "").
  { pose proof (String_of_Z_truthy r) as Ht. intros E. now rewrite E in Ht. }
  unfold p, padStart6. split; [|split].
  - rewrite length_append, length_zeros. lia.
  - now rewrite all_digits_append, all_digits_zeros.
  - rewrite Number_zeros_prefix by assumption. apply Number_of_String_of_Z.
Qed.

Lemma stripped_decimals p :
  String.length p = 6%nat ->
  let f := strip_zeros p in
  append f (zeros (6 - String.length f)) = p.
Proof. intros H f. rewrite <- H. apply strip_zeros_restore. Qed.

(** Reading what [fmtUSDC] wrote. *)
Lemma read_usdc_fmtUSDC x :
  0 <= x -> read_usdc (fmtUSDC (Some x)) = Num x.
Proof.
  intros Hx. cbn [fmtUSDC]. cbv zeta.
  set (w := Z.quot x 1000000). set (r := Z.rem x 1000000).
  assert (Hr : 0 <= r < 1000000).
  { unfold r. split; [apply Z.rem_nonneg; lia|].
    apply Z.rem_bound_pos; lia. }
  assert (Hw : 0 <= w) by (unfold w; apply Z.quot_pos; lia).
  assert (Hx' : x = w * 1000000 + r)
    by (unfold w, r; rewrite Z.mul_comm; apply Z.quot_rem'; lia).
  destruct (padded_remainder r Hr) as (Hlen & Hdig & Hnum).
  pose proof (stripped_decimals _ Hlen) as Hres. cbv zeta in Hres.
  pose proof (String_of_Z_digits w Hw) as Hwd.
  set (p := padStart6 (String_of_Z r)) in *.
  destruct (strip_zeros p) as [|c f] eqn:E; cbn [truthy_str].
  - unfold read_usdc. rewrite (split_point_digits _ Hwd).
    rewrite Number_of_String_of_Z.
    rewrite <- Hres in Hnum. cbn in Hnum.
    injection Hnum as Hr0. f_equal. lia.
  - unfold read_usdc. rewrite (split_point_app _ _ Hwd).
    rewrite Number_of_String_of_Z, Hres, Hnum. f_equal. lia.
Qed.

(** X9.  The text [fmtUSDC] gives for an amount that is not negative
    denotes that amount: read as decimal notation, whole part times a
    million plus the decimals as millionths, it is the amount again.  No
    two amounts are shown alike and no digit is lost. *)
Theorem fmtUSDC_reads_back :
  forall x, 0 <= x -> read_usdc (fmtUSDC (Some x)) = Num x.
Proof. intros x Hx. now apply read_usdc_fmtUSDC. Qed.

Lemma fmtUSDC_reads_back_witness :
  fmtUSDC (Some 123456789) = "123.456789" /\
  read_usdc (fmtUSDC (Some 123456789)) = Num 123456789.
Proof.
  split; [reflexivity|]. apply (fmtUSDC_reads_back 123456789). lia.
Defined.

(** X10.  For an amount that is not negative, [fmtUSDC] gives the whole
    number of units alone when the amount is a multiple of a million,
    and otherwise the whole number, a point, and between one and six
    decimal digits of which the last is not a zero. *)
Theorem fmtUSDC_shape :
  forall x, 0 <= x ->
    let w := String_of_Z (Z.quot x 1000000) in
    (Z.rem x 1000000 = 0 -> fmtUSDC (Some x) = w) /\
    (Z.rem x 1000000 <> 0 ->
     exists f, fmtUSDC (Some x) = append w (String "." f) /\
               (1 <= String.length f <= 6)%nat /\
               all_digits f = true /\
               last_char f <> Some "0"%char).
Proof.
  intros x Hx w. cbn [fmtUSDC]. cbv zeta. fold w.
  set (r := Z.rem x 1000000).
  assert (Hr : 0 <= r < 1000000).
  { unfold r. split; [apply Z.rem_nonneg; lia|].
    apply Z.rem_bound_pos; lia. }
  destruct (padded_remainder r Hr) as (Hlen & Hdig & Hnum).
  pose proof (stripped_decimals _ Hlen) as Hres. cbv zeta in Hres.
  pose proof (strip_zeros_length (padStart6 (String_of_Z r))) as Hle.
  pose proof (strip_zeros_digits _ Hdig) as Hfd.
  pose proof (strip_zeros_last (padStart6 (String_of_Z r))) as Hlast.
  rewrite Hlen in Hle.
  set (p := padStart6 (String_of_Z r)) in *.
  destruct (strip_zeros p) as [|c f] eqn:E; cbn [truthy_str].
  - split; [reflexivity|]. intros Hr0. exfalso.
    rewrite <- Hres in Hnum. cbn in Hnum.
    injection Hnum as Hr0'. congruence.
  - split.
    + intros Hr0. exfalso. unfold p in E. rewrite Hr0 in E. cbn in E.
      discriminate.
    + intros _. exists (String c f). repeat split; try assumption.
      cbn. lia.
Qed.

Lemma fmtUSDC_shape_witness :
  let w := String_of_Z (Z.quot 25000000 1000000) in
  (Z.rem 25000000 1000000 = 0 -> fmtUSDC (Some 25000000) = w) /\
  (Z.rem 25000000 1000000 <> 0 ->
   exists f, fmtUSDC (Some 25000000) = append w (String "." f) /\
             (1 <= String.length f <= 6)%nat /\
             all_digits f = true /\
             last_char f <> Some "0"%char).
Proof. apply (fmtUSDC_shape 25000000). lia. Defined.

(* ================================================================== *)
(** * Identifiers, submission and cells *)

(** ** [isBytes32Hex] *)

Lemma hex_digit_range c : is_hex c = true -> 0 <= hex_digit c < 16.
Proof.
  unfold is_hex, hex_digit, is_digit. cbv zeta.
  set (n := nat_of_ascii c).
  destruct (Nat.leb_spec 48 n), (Nat.leb_spec n 57), (Nat.leb_spec 97 n),
    (Nat.leb_spec n 102), (Nat.leb_spec 65 n), (Nat.leb_spec n 70);
    cbn; intros Hhex; try discriminate Hhex; lia.
Qed.

(** A run of [n] hexadecimal digits has [n] characters and a value below
    [16 ^ n]. *)
Lemma hex_run_value n : forall s acc,
  hex_run n s = true ->
  String.length s = n /\
  hex_value_from acc s = acc * 16 ^ Z.of_nat n + hex_value s /\
  0 <= hex_value s < 16 ^ Z.of_nat n.
Proof.
  unfold hex_value.
  induction n as [|n IH]; intros [|c s] acc H; try discriminate H.
  - cbn. repeat split; lia.
  - cbn [hex_run] in H. apply andb_prop in H. destruct H as [Hc Hs].
    pose proof (hex_digit_range c Hc) as Hd.
    destruct (IH s (16 * acc + hex_digit c) Hs) as (Hl & Hv & _).
    destruct (IH s (16 * 0 + hex_digit c) Hs) as (_ & Hv0 & Hr).
    cbn [String.length hex_value_from].
    rewrite Nat2Z.inj_succ, Z.pow_succ_r by lia.
    split; [now rewrite Hl|]. rewrite Hv, Hv0. split; [ring|]. nia.
Qed.

Lemma hex_char_digit d :
  0 <= d < 16 -> is_hex (hex_char d) = true /\ hex_digit (hex_char d) = d.
Proof.
  intros Hd.
  assert (H : d = 0 \/ d = 1 \/ d = 2 \/ d = 3 \/ d = 4 \/ d = 5 \/ d = 6 \/
              d = 7 \/ d = 8 \/ d = 9 \/ d = 10 \/ d = 11 \/ d = 12 \/
              d = 13 \/ d = 14 \/ d = 15) by lia.
  repeat (destruct H as [->|H]; [now split|]). subst. now split.
Qed.

Lemma hex_run_snoc n : forall s c,
  hex_run n s = true -> is_hex c = true ->
  hex_run (S n) (append s (String c "")) = true.
Proof.
  induction n as [|n IH]; intros [|c' s] c Hs Hc; try discriminate Hs.
  - cbn. now rewrite Hc.
  - cbn [hex_run] in Hs. apply andb_prop in Hs. destruct Hs as [Hc' Hs].
    cbn [append]. change (hex_run (S (S n)) (String c' ?t))
      with (is_hex c' && hex_run (S n) t)%bool.
    now rewrite Hc', IH.
Qed.

Lemma hex_value_from_snoc s : forall acc c,
  hex_value_from acc (append s (String c ""))
  = 16 * hex_value_from acc s + hex_digit c.
Proof.
  induction s as [|c' s IH]; intros acc c; [reflexivity|].
  cbn [append hex_value_from]. apply IH.
Qed.

(** Every value below [16 ^ n] has a text of [n] digits that reads back
    as the value. *)
Lemma hex_text_value n : forall v,
  0 <= v < 16 ^ Z.of_nat n ->
  hex_run n (hex_text n v) = true /\ hex_value (hex_text n v) = v.
Proof.
  unfold hex_value.
  induction n as [|n IH]; intros v Hv.
  - cbn in *. split; [reflexivity|lia].
  - rewrite Nat2Z.inj_succ, Z.pow_succ_r in Hv by lia.
    assert (Hq : 0 <= v / 16 < 16 ^ Z.of_nat n).
    { split; [apply Z.div_pos; lia|].
      apply Z.div_lt_upper_bound; lia. }
    assert (Hm : 0 <= v mod 16 < 16) by (apply Z.mod_pos_bound; lia).
    destruct (IH _ Hq) as [Hrun Hval].
    destruct (hex_char_digit _ Hm) as [Hc Hd].
    cbn [hex_text]. split; [now apply hex_run_snoc|].
    rewrite hex_value_from_snoc, Hval, Hd.
    symmetry. apply Z.div_mod. lia.
Qed.

(** An accepted identifier is [0x] and a run of 64 digits. *)
Lemma accepted_id_shape s :
  isBytes32Hex s = true ->
  exists body, s = String "0" (String "x" body) /\
               String.length body = 64%nat /\
               hex_run 64 body = true /\
               0 <= hex_value body < 2 ^ 256.
Proof.
  intros H. unfold isBytes32Hex in H.
  destruct s as [|c0 [|c1 body]]; try discriminate H;
    try (destruct c0 as [[] [] [] [] [] [] [] []]; discriminate H).
  destruct c0 as [[] [] [] [] [] [] [] []]; try discriminate H;
    destruct c1 as [[] [] [] [] [] [] [] []]; try discriminate H.
  exists body. destruct (hex_run_value 64 body 0 H) as (Hl & _ & Hr).
  repeat split; try assumption; lia.
Qed.

(** X11.  [isBytes32Hex] accepts exactly the texts made of [0x] and 64
    hexadecimal digits of either case.  Every accepted text has 66
    characters and denotes a number below [2 ^ 256], and every number
    below [2 ^ 256] has an accepted text that denotes it. *)
Theorem bytes32_ids_are_256_bit_values :
  (forall s, isBytes32Hex s = true ->
     exists body, s = String "0" (String "x" body) /\
                  String.length body = 64%nat /\
                  hex_run 64 body = true /\
                  0 <= hex_value body < 2 ^ 256) /\
  (forall body, hex_run 64 body = true ->
     isBytes32Hex (String "0" (String "x" body)) = true) /\
  (forall v, 0 <= v < 2 ^ 256 ->
     isBytes32Hex (String "0" (String "x" (hex_text 64 v))) = true /\
     hex_value (hex_text 64 v) = v).
Proof.
  split; [|split].
  - intros s H. now apply accepted_id_shape.
  - intros body H. exact H.
  - intros v Hv. change (2 ^ 256) with (16 ^ Z.of_nat 64) in Hv.
    destruct (hex_text_value 64 v Hv) as [Hrun Hval].
    split; [exact Hrun|exact Hval].
Qed.

(** ** [submit] *)

Lemma scan_receipt_app l1 : forall l2 p r,
  scan_receipt (l1 ++ l2) p r
  = scan_receipt l2 (fst (scan_receipt l1 p r)) (snd (scan_receipt l1 p r)).
Proof.
  induction l1 as [|[[a v|t|n]|] l1 IH]; intros l2 p r; cbn [app scan_receipt];
    try reflexivity; apply IH.
Qed.

Lemma scan_receipt_no_paid logs : forall p r,
  existsb is_paid logs = false -> fst (scan_receipt logs p r) = p.
Proof.
  induction logs as [|[[a v|t|n]|] logs IH]; intros p r H;
    cbn [existsb is_paid orb scan_receipt] in *;
    try discriminate H; try reflexivity; now apply IH.
Qed.

Lemma scan_receipt_no_rejected logs : forall p r,
  existsb is_rejected logs = false -> snd (scan_receipt logs p r) = r.
Proof.
  induction logs as [|[[a v|t|n]|] logs IH]; intros p r H;
    cbn [existsb is_rejected orb scan_receipt] in *;
    try discriminate H; try reflexivity; now apply IH.
Qed.

(** X13.  When the transaction is sent and mined, [submit] records its
    hash and reports on the receipt by precedence: if any log reads as
    [ClaimPaid], the amount and visit of the last such log, whatever
    [ClaimRejected] logs there are; else, if any log reads as
    [ClaimRejected], the reason of the last such log; else that no event
    was parsed.  Logs that do not parse are passed over. *)
Theorem receipt_text_precedence :
  forall send bal f tx logs,
    isBytes32Hex (patientId f) = true ->
    send (patientId f) (Number_of_string (form_code f))
         (Number_of_string (form_year f)) = inr tx ->
    wait tx = inr logs ->
    let after := form (submit (Some send) bal f) in
    lastTx after = hash tx /\
    (forall l1 a v l2,
       logs = l1 ++ Some (ParsedPaid a v) :: l2 ->
       existsb is_paid l2 = false ->
       result after
       = append "✅ Paid "
           (append (fmtUSDC (Some a))
              (append " USDC · visit #" (String_of_Z v)))) /\
    (existsb is_paid logs = false ->
     forall l1 t l2,
       logs = l1 ++ Some (ParsedRejected t) :: l2 ->
       existsb is_rejected l2 = false ->
       result after = append "❌ Rejected: " t) /\
    (existsb is_paid logs = false -> existsb is_rejected logs = false ->
     result after = "Tx mined, no event parsed (check explorer)").
Proof.
  intros send bal f tx logs Hid Hsend Hwait after.
  assert (Hafter : after =
    mkForm (patientId f) (form_code f) (form_year f) (hash tx)
           (receipt_text (scan_receipt logs None None))
           (match bal with Some b => b | None => vault f end)).
  { unfold after, submit. now rewrite Hid, Hsend, Hwait. }
  rewrite Hafter. cbn [lastTx result].
  split; [reflexivity|]. split; [|split].
  - intros l1 a v l2 -> Hl2.
    rewrite scan_receipt_app. cbn [scan_receipt].
    destruct (scan_receipt l2 (Some (a, v)) _) as [p r] eqn:E.
    pose proof (scan_receipt_no_paid l2 (Some (a, v))
                  (snd (scan_receipt l1 None None)) Hl2) as Hp.
    rewrite E in Hp. cbn in Hp. subst p. reflexivity.
  - intros Hnp l1 t l2 Hlogs Hl2.
    pose proof (scan_receipt_no_paid logs None None Hnp) as Hp.
    destruct (scan_receipt logs None None) as [p r] eqn:E.
    cbn in Hp. subst p.
    rewrite Hlogs, scan_receipt_app in E. cbn [scan_receipt] in E.
    pose proof (scan_receipt_no_rejected l2
                  (fst (scan_receipt l1 None None)) (Some t) Hl2) as Hr.
    rewrite E in Hr. cbn in Hr. subst r. reflexivity.
  - intros Hnp Hnr.
    pose proof (scan_receipt_no_paid logs None None Hnp) as Hp.
    pose proof (scan_receipt_no_rejected logs None None Hnr) as Hr.
    destruct (scan_receipt logs None None) as [p r].
    cbn in Hp, Hr. subst. reflexivity.
Qed.

Lemma receipt_text_precedence_witness :
  let after := form (submit (Some sample_send) None sample_form) in
  lastTx after = "0xfeed" /\
  result after = "✅ Paid 25 USDC · visit #3".
Proof.
  intros after.
  destruct (receipt_text_precedence sample_send None sample_form
              (mkTx "0xfeed" (inr sample_logs)) sample_logs
              eq_refl eq_refl eq_refl) as (H1 & H2 & _).
  split; [exact H1|].
  exact (H2 [Some (ParsedRejected "limit reached"); None;
             Some (ParsedPaid 1500000 2); Some (ParsedOther "Transfer")]
            25000000 3 [Some (ParsedRejected "late")] eq_refl eq_refl).
Defined.

(** X12.  [submit] sends nothing when the patient identifier is not
    accepted by [isBytes32Hex]: no call is made on the contract and the
    form is left as it was, with an alert when a signer is at hand.  A
    call that is made carries the identifier of the form, which is [0x]
    and 64 hexadecimal digits, a number below [2 ^ 256], and the code and
    year of the form read as numbers. *)
Theorem submit_sends_only_bytes32 :
  forall engineW bal f,
    let res := submit engineW bal f in
    (isBytes32Hex (patientId f) = false ->
     submitted res = None /\ form res = f /\
     (alerted res = true <-> engineW <> None)) /\
    (forall call, submitted res = Some call ->
       call = (patientId f, Number_of_string (form_code f),
               Number_of_string (form_year f)) /\
       alerted res = false /\
       exists body, patientId f = String "0" (String "x" body) /\
                    String.length body = 64%nat /\
                    0 <= hex_value body < 2 ^ 256).
Proof.
  intros engineW bal f res. unfold res, submit.
  destruct engineW as [send|].
  2:{ split; [intros _; repeat split; try discriminate; congruence|].
      intros call [=]. }
  destruct (isBytes32Hex (patientId f)) eqn:Hid; cbn [negb].
  - split; [discriminate|]. intros call Hcall.
    destruct (accepted_id_shape _ Hid) as (body & Hb & Hl & _ & Hv).
    destruct (send _ _ _) as [e|tx]; [|destruct (wait tx)];
      cbn in Hcall |- *; injection Hcall as <-;
      (split; [reflexivity|split; [reflexivity|now exists body]]).
  - split; [|intros call [=]]. intros _. cbn.
    repeat split; try discriminate; congruence.
Qed.

(** ** Cells *)

(** X14.  The cells of a row whose fields agree with its kind.  A
    rejected row shows its reason and a dash for the visit.  A paid row
    shows its visit index, and its amount as [fmtUSDC] writes it, which
    reads back as the amount, when the amount is positive; a paid row of
    amount zero shows an empty cell, not a zero. *)
Theorem cells_of_a_row :
  forall r, kind_exclusive r ->
    (kind r = rejected ->
     exists t, reason r = Some t /\ amount_cell r = t /\
               visit_cell r = "-") /\
    (kind r = paid ->
     exists a v, amount r = Some a /\ visitIndex r = Some v /\
                 visit_cell r = String_of_Z v /\
                 (0 < a -> amount_cell r = fmtUSDC (Some a) /\
                           read_usdc (amount_cell r) = Num a) /\
                 (a = 0 -> amount_cell r = "")).
Proof.
  intros r Hk. unfold kind_exclusive in Hk.
  unfold amount_cell, visit_cell.
  destruct (kind r); split; try discriminate; intros _.
  - destruct Hk as (Ha & Hv & Hr).
    destruct (amount r) as [a|]; [|congruence].
    destruct (visitIndex r) as [v|]; [|congruence].
    exists a, v. rewrite Hr. repeat split.
    + destruct (Z.eqb_spec a 0); [lia|reflexivity].
    + destruct (Z.eqb_spec a 0); [lia|].
      apply read_usdc_fmtUSDC. lia.
    + intros ->. reflexivity.
  - destruct Hk as (Hr & Ha & Hv).
    destruct (reason r) as [t|]; [|congruence].
    exists t. now rewrite Ha, Hv.
Qed.

Lemma cells_of_a_row_witness :
  let r := mkRow paid "7" 1 2025 (Some 1500000) (Some 2) None "0x05" 5 in
  amount_cell r = "1.5" /\ visit_cell r = "2" /\
  (kind r = rejected ->
   exists t, reason r = Some t /\ amount_cell r = t /\ visit_cell r = "-") /\
  (kind r = paid ->
   exists a v, amount r = Some a /\ visitIndex r = Some v /\
               visit_cell r = String_of_Z v /\
               (0 < a -> amount_cell r = fmtUSDC (Some a) /\
                         read_usdc (amount_cell r) = Num a) /\
               (a = 0 -> amount_cell r = "")).
Proof.
  intros r. split; [reflexivity|]. split; [reflexivity|].
  apply (cells_of_a_row r). cbn. repeat split; discriminate.
Defined.

(* ================================================================== *)
(** * The cost of a scan, and a field that is not a number *)

(** Through a source that answers every query, the loop issues one query
    per [ms + 1] blocks. *)
Lemma chunked_loop_count L (q : Z -> Z -> JsError + list L) fuel :
  (forall s e, exists logs, q s e = inr logs) ->
  forall start to ms out,
    0 <= ms -> start <= to -> (enough start to ms <= fuel)%nat ->
    Z.of_nat (List.length (trace (chunked_loop q fuel start to ms out)))
    = (to - start) / (ms + 1) + 1.
Proof.
  intros Hq. unfold enough.
  induction fuel as [|fuel IH]; intros start to ms out Hms Hle Hf; [lia|].
  rewrite chunked_loop_S.
  destruct (Z.leb_spec start to) as [_|]; [|lia].
  cbv zeta. set (e := Z.min (start + ms) to).
  destruct (Hq start e) as (logs & Hlogs). rewrite Hlogs, bind_tell.
  cbn [trace fst List.length]. rewrite Nat2Z.inj_succ.
  destruct (Z_le_gt_dec (to - start) ms) as [Hlast|Hmore].
  - replace e with to by (unfold e; lia).
    destruct fuel as [|fuel]; [lia|]. rewrite chunked_loop_S.
    destruct (Z.leb_spec (to + 1) to) as [|_]; [lia|]. cbn.
    rewrite Z.div_small by lia. reflexivity.
  - replace e with (start + ms) by (unfold e; lia).
    rewrite (IH (start + ms + 1) to ms (out ++ logs)) by lia.
    replace (to - start) with (to - (start + ms + 1) + 1 * (ms + 1)) by lia.
    rewrite Z.div_add by lia. lia.
Qed.

(** X16.  Through a node that answers every query, the helper asks for
    one range per [maxSpan + 1] blocks: on a range from [from] to [to]
    that is not empty it issues exactly [(to - from) / (maxSpan + 1) + 1]
    queries, all answered.  A range no wider than [maxSpan] costs one
    query. *)
Theorem queries_of_an_answered_scan :
  forall (L : Type) (q : Z -> Z -> JsError + list L) from to maxSpan,
    (forall s e, exists logs, q s e = inr logs) ->
    0 <= maxSpan -> from <= to ->
    exists n, forall fuel, (n <= fuel)%nat ->
      let tr := trace (chunkedQueryFilter q fuel from to maxSpan) in
      Z.of_nat (List.length tr) = (to - from) / (maxSpan + 1) + 1 /\
      Forall (fun x => q_ok x = true /\ q_span x = maxSpan) tr /\
      (to - from <= maxSpan -> List.length tr = 1%nat).
Proof.
  intros L q from to maxSpan Hq Hms Hle.
  exists (enough from to maxSpan). intros fuel Hf tr.
  assert (Hcount : Z.of_nat (List.length tr)
                   = (to - from) / (maxSpan + 1) + 1)
    by (now apply chunked_loop_count).
  split; [exact Hcount|]. split.
  - assert (Hr : exists out, completion (chunkedQueryFilter q fuel from to
                                           maxSpan) = Returned out).
    { destruct (completion (chunkedQueryFilter q fuel from to maxSpan))
        as [out|e|] eqn:Hc; [now exists out| |].
      - now elim (chunked_loop_total_source L q fuel from to maxSpan [] Hq e).
      - now elim (chunked_loop_terminates L q fuel from to maxSpan []
                    Hms Hf). }
    clear Hcount. unfold tr, chunkedQueryFilter in *. clear tr Hr Hf.
    revert from Hle. generalize (@nil L) as out.
    induction fuel as [|fuel IH]; intros out from Hle; [constructor|].
    rewrite chunked_loop_S.
    destruct (from <=? to); [|constructor]. cbv zeta.
    destruct (Hq from (Z.min (from + maxSpan) to)) as (logs & Hlogs).
    rewrite Hlogs, bind_tell. cbn [trace fst].
    constructor; [now split|].
    destruct (Z_le_gt_dec (Z.min (from + maxSpan) to + 1) to).
    + now apply IH.
    + destruct fuel as [|fuel]; [constructor|]. rewrite chunked_loop_S.
      destruct (Z.leb_spec (Z.min (from + maxSpan) to + 1) to); [lia|].
      constructor.
  - intros Hw. rewrite Z.div_small in Hcount by lia. lia.
Qed.

Lemma queries_of_an_answered_scan_witness :
  exists n, forall fuel, (n <= fuel)%nat ->
    let tr := trace (chunkedQueryFilter (@quiet_node unit) fuel 0 25000
                       9500) in
    Z.of_nat (List.length tr) = (25000 - 0) / (9500 + 1) + 1 /\
    Forall (fun x => q_ok x = true /\ q_span x = 9500) tr /\
    (25000 - 0 <= 9500 -> List.length tr = 1%nat).
Proof.
  apply (queries_of_an_answered_scan unit (@quiet_node unit) 0 25000 9500).
  - intros s e. now exists [].
  - lia.
  - lia.
Defined.

(** X15.  A manual field that begins with a letter (other than [I]) is
    not a number: the lower bound is [NaN], the loop test of the helper
    fails at once, and a call of [load] with both filters and the head
    at [to] asks the node nothing, shows no row and no error, and still
    stores [to + 1] as the cursor. *)
Theorem word_in_the_field_skips_the_scan :
  forall LOOKBACK fuel engine provider to st c rest,
    has_ClaimPaid engine = true -> has_ClaimRejected engine = true ->
    fromBlock st = String c rest -> starts_no_number c = true ->
    let res := load LOOKBACK fuel (Some engine) provider (Some (inr to)) st in
    lower_bound LOOKBACK st to = NaN /\
    paid_queries res = [] /\ rejected_queries res = [] /\
    outcome res = Loaded [] /\
    items (final res) = [] /\ err (final res) = "" /\
    claims_fromBlock (final res) = Some (String_of_Z (to + 1)).
Proof.
  intros LOOKBACK fuel engine provider to st c rest Hp Hr Hfb Hc res.
  assert (Hnan : lower_bound LOOKBACK st to = NaN).
  { unfold lower_bound, baseFrom. rewrite Hfb. cbn [truthy_str].
    now apply Number_of_word. }
  split; [exact Hnan|].
  unfold res. rewrite (load_run _ _ _ _ _ _ Hp Hr). cbv zeta.
  unfold paid_run, rejected_run. rewrite Hnan. cbn. now repeat split.
Qed.

Lemma word_in_the_field_skips_the_scan_witness :
  let st := mkState example_rows "latest" false "" (Some "4242") in
  let res := load 9000 20 (Some sample_engine) alice (Some (inr 1000)) st in
  lower_bound 9000 st 1000 = NaN /\
  paid_queries res = [] /\ rejected_queries res = [] /\
  outcome res = Loaded [] /\
  items (final res) = [] /\ err (final res) = "" /\
  claims_fromBlock (final res) = Some (String_of_Z (1000 + 1)).
Proof.
  intros st res.
  apply (word_in_the_field_skips_the_scan 9000 20 sample_engine alice 1000
           st "l"%char "atest"); reflexivity.
Defined.
